(** * Training orchestration of the text-conditioned StyleGAN2 trainer

    A shallow embedding of [train.py]: the helper functions
    ([requires_grad], [accumulate], the three loss helpers), the body of
    the training loop of [train], the loop itself, and the part of the
    [__main__] block that prepares the encoders, the optimizers and the
    resume counter.

    The deep-learning framework is external to the repository.  Its
    tensor operations, forward passes, random sources and the Adam update
    rule are the fields of the class [Torch] and stay uninterpreted;
    what is modelled concretely is what the script itself decides:
    control flow, which Python exception is raised where, the
    [requires_grad] / [grad] / [data] slots of the parameters, the
    parameter lists held by the two optimizers, the local variables of
    [train] that live across iterations, and the files written.  Python
    floats are modelled by real numbers and Python ints by [Z]. *)

From Stdlib Require Import ZArith List String Ascii Bool Reals Lia Lra.
From Stdlib Require Import DecimalString DecimalPos.
Import ListNotations.
Local Open Scope string_scope.
Local Open Scope list_scope.
Local Open Scope Z_scope.

(* ================================================================== *)
(** ** Python exceptions and the state-and-exception monad *)

Inductive exn : Type :=
| UnboundLocalError (name : string)   (* a subclass of NameError *)
| NameError (name : string)
| AttributeError (what : string)
| ZeroDivisionError
| KeyError (key : string)
| ValueError
| TypeError
| OverflowError
| ImportError
| RuntimeError (what : string).

(** [except NameError] catches [UnboundLocalError] too. *)
Definition is_NameError (e : exn) : bool :=
  match e with
  | UnboundLocalError _ | NameError _ => true
  | _ => false
  end.

Inductive outcome (A : Type) : Type :=
| Ok (a : A)
| Raise (e : exn).
Arguments Ok {A} a.
Arguments Raise {A} e.

(** A computation runs on a world [W]; when it raises, the world holds
    the effects performed up to the raise. *)
Definition M (W A : Type) : Type := W -> outcome A * W.

Definition ret {W A} (a : A) : M W A := fun w => (Ok a, w).

Definition bind {W A B} (c : M W A) (k : A -> M W B) : M W B :=
  fun w =>
    match c w with
    | (Ok a, w') => k a w'
    | (Raise e, w') => (Raise e, w')
    end.

Definition raise {W A} (e : exn) : M W A := fun w => (Raise e, w).
Definition gets {W A} (f : W -> A) : M W A := fun w => (Ok (f w), w).
Definition modify {W} (f : W -> W) : M W unit := fun w => (Ok tt, f w).

Declare Scope py_scope.
Delimit Scope py_scope with py.
Notation "x <- c1 ;; c2" := (bind c1 (fun x => c2))
  (at level 61, c1 at next level, right associativity) : py_scope.
Notation "' pat <- c1 ;; c2" := (bind c1 (fun x => match x with pat => c2 end))
  (at level 61, pat pattern, c1 at next level, right associativity) : py_scope.
Notation "c1 ;; c2" := (bind c1 (fun _ => c2))
  (at level 61, right associativity) : py_scope.
Local Open Scope py_scope.

(** [for a in l: body(a)] without [break]. *)
Fixpoint for_each {W A} (l : list A) (body : A -> M W unit) : M W unit :=
  match l with
  | [] => ret tt
  | a :: l' => body a ;; for_each l' body
  end.

(** A list comprehension whose element expression has effects. *)
Fixpoint map_m {W A B} (f : A -> M W B) (l : list A) : M W (list B) :=
  match l with
  | [] => ret []
  | a :: l' => b <- f a ;; bs <- map_m f l' ;; ret (b :: bs)
  end.

(** Reading a local variable that may not have been assigned yet. *)
Definition read_local {W A} (name : string) (v : W -> option A) : M W A :=
  fun w =>
    match v w with
    | Some a => (Ok a, w)
    | None => (Raise (UnboundLocalError name), w)
    end.

(** Python's [a % b] on ints: floored, sign of the divisor, and
    [ZeroDivisionError] for [b = 0]. *)
Definition py_mod {W} (a b : Z) : M W Z :=
  if b =? 0 then raise ZeroDivisionError else ret (a mod b).

(** A value that is either a Python int or a tensor. *)
Inductive pyval (A : Type) : Type :=
| PyInt (z : Z)
| PyTensor (t : A).
Arguments PyInt {A} z.
Arguments PyTensor {A} t.

(* ================================================================== *)
(** ** Dictionaries with string keys, in insertion order *)

Fixpoint lookup {A} (k : string) (m : list (string * A)) : option A :=
  match m with
  | [] => None
  | (k', a) :: m' => if String.eqb k k' then Some a else lookup k m'
  end.

Fixpoint update {A} (k : string) (f : A -> A) (m : list (string * A))
  : list (string * A) :=
  match m with
  | [] => []
  | (k', a) :: m' =>
      if String.eqb k k' then (k', f a) :: m' else (k', a) :: update k f m'
  end.

(** [d[k] = v]: overwrite in place, or append a new key. *)
Fixpoint dict_set {A} (k : string) (v : A) (m : list (string * A))
  : list (string * A) :=
  match m with
  | [] => [(k, v)]
  | (k', a) :: m' =>
      if String.eqb k k' then (k', v) :: m' else (k', a) :: dict_set k v m'
  end.

Definition keys {A} (m : list (string * A)) : list string := map fst m.

(* ================================================================== *)
(** ** Parameters, modules and the in-place tensor arithmetic of
       [accumulate] *)

(** The data of a parameter, flattened.  Only [accumulate] computes on
    it, elementwise. *)
Definition tensor := list R.

Record param : Type := mk_param {
  data : tensor;
  requires_grad_flag : bool;
  grad : option tensor
}.

Definition set_data (t : tensor) (p : param) : param :=
  mk_param t (requires_grad_flag p) (grad p).
Definition set_flag (b : bool) (p : param) : param :=
  mk_param (data p) b (grad p).
Definition set_grad (g : option tensor) (p : param) : param :=
  mk_param (data p) (requires_grad_flag p) g.

(** [model.named_parameters()], in registration order. *)
Definition module := list (string * param).

(** [t.mul_(c)] *)
Definition mul_ (t : tensor) (c : R) : tensor := map (fun x => (x * c)%R) t.

Fixpoint zip_with {A B C} (f : A -> B -> C) (l : list A) (l' : list B) : list C :=
  match l, l' with
  | a :: l, b :: l' => f a b :: zip_with f l l'
  | _, _ => []
  end.

(** [t.add_(other, alpha=a)]: [t + a * other] elementwise.  Shapes are
    not modelled beyond the number of elements: equal sizes are
    required, broadcasting is left out. *)
Definition add_ (t other : tensor) (alpha : R) : option tensor :=
  if Nat.eqb (List.length t) (List.length other)
  then Some (zip_with (fun x y => (x + alpha * y)%R) t other)
  else None.

(** The networks that exist in the script. *)
Inductive net : Type :=
| Generator | Discriminator | GEma | TextEncoder | ImageEncoder.

Definition net_eqb (a b : net) : bool :=
  match a, b with
  | Generator, Generator | Discriminator, Discriminator | GEma, GEma
  | TextEncoder, TextEncoder | ImageEncoder, ImageEncoder => true
  | _, _ => false
  end.

(** An identifier of a parameter object. *)
Definition pid := (net * string)%type.

(* ================================================================== *)
(** ** The framework, uninterpreted *)

(** Everything the script imports and calls without defining it, and
    the one floating-point computation of the script whose rounding
    shows in its output.  No law is assumed about any field. *)
Class Torch : Type := {
  (** tensors tracked by autograd: images, captions, embeddings,
      predictions, losses *)
  act : Type;
  (** what the data loader yields *)
  batch : Type;
  (** the state of the global random generators *)
  rng_state : Type;
  (** the moment estimates and step counts of one Adam optimizer *)
  adam_state : Type;
  (** an [AdaptiveAugment] object *)
  ada_state : Type;

  tensor_of_float : R -> act;             (* torch.tensor(x) *)
  neg : act -> act;                       (* -x *)
  softplus : act -> act;                  (* F.softplus(x) *)
  mean : act -> act;                      (* x.mean() *)
  tsum : act -> act;                      (* x.sum() *)
  add : act -> act -> act;                (* x + y *)
  scale : R -> act -> act;                (* c * x and x * c, c a number *)
  pow : act -> Z -> act;                  (* x.pow(n) *)
  reshape_rows : act -> act;              (* x.reshape(x.shape[0], -1) *)
  sum_dim : act -> Z -> act;              (* x.sum(d) *)
  first_row : act -> act;                 (* x[0] *)
  cat1 : act -> act -> act;               (* torch.cat((x, y), 1) *)
  detach : act -> act;                    (* x.detach() *)
  transpose12 : act -> act;               (* x.transpose(1, 2).contiguous() *)
  last_slice : act -> act;                (* x[:, :, -1].contiguous() *)
  shape0 : act -> Z;                      (* x.shape[0] *)
  full : Z -> R -> act;                   (* FloatTensor(n, 1).fill_(v) *)
  arange : Z -> act;                      (* LongTensor(range(n)) *)
  item : act -> R;                        (* x.item() *)
  with_grad : act -> act;                 (* x.requires_grad = True *)
  bce_loss : act -> act -> act;           (* nn.BCELoss()(x, y) *)
  autograd_grad : act -> act -> act;      (* autograd.grad(outputs, inputs) *)

  randn : list Z -> rng_state -> act * rng_state;     (* torch.randn *)
  unbind0 : act -> list act;                          (* x.unbind(0) *)
  random_random : rng_state -> R * rng_state;         (* random.random() *)
  augment : act -> R -> rng_state -> act * rng_state; (* non_leaking.augment *)

  (** the n-th batch that [sample_data(loader)] yields *)
  loader_batch : nat -> batch;
  (** [prepare_data]: images, captions, caption lengths, class ids *)
  prepare_data : batch -> act * act * act * act;

  (** forward passes; the Boolean is the train/eval mode *)
  generator_forward : module -> bool -> list act -> act;
  discriminator_forward : module -> bool -> act -> act -> act * act;
  rnn_init_hidden : module -> Z -> act;
  rnn_forward : module -> bool -> act -> act -> act -> act * act;
  gpt2_forward : module -> bool -> act -> act;          (* text_encoder(c)[0] *)
  cnn_forward : module -> bool -> act -> act * act;
  (** [miscc.losses.sent_loss] *)
  sent_loss : act -> act -> act -> act -> Z -> act * act;

  (** the gradient of a loss with respect to a parameter, when the
      graph of the loss reaches it *)
  param_grad : act -> pid -> option tensor;
  (** accumulation of a new gradient into an existing [.grad] *)
  grad_add : tensor -> tensor -> tensor;
  (** the Adam update of one parameter, and the optimizer state after
      a step *)
  adam_update : adam_state -> pid -> tensor -> tensor -> tensor;
  adam_tick : adam_state -> adam_state;
  (** [optim.Adam(_, lr=lr, betas=(0 ** ratio, 0.99 ** ratio))] *)
  adam_new : R -> R -> adam_state;
  (** [optimizer.load_state_dict(sd)] *)
  adam_load_state : adam_state -> list (string * tensor) -> adam_state;

  ada_new : R -> Z -> Z -> ada_state;             (* AdaptiveAugment(...) *)
  ada_tune : ada_state -> act -> ada_state * R;   (* ada_augment.tune(x) *)
  ada_r_t_stat : ada_state -> R;                  (* ada_augment.r_t_stat *)

  (** [distributed.reduce_loss_dict] *)
  reduce_loss_dict : list (string * pyval act) -> list (string * pyval act);
  (** [torch.load(path, ...)] of a state dict *)
  torch_load : string -> list (string * tensor);
  (** [torch.load(path, ...)] of a checkpoint: a dict of state dicts *)
  torch_load_ckpt : string -> list (string * list (string * tensor));

  (** [int(n ** 0.5)] for an int [0 <= n]: [n] converted to a double,
      the C library's [pow] on doubles and the truncation of its
      result.  [None] is the OverflowError of an [n] that no double
      holds. *)
  int_pow_half : Z -> option Z
}.

(* ================================================================== *)
(** ** Command line arguments, configuration and process context *)

Record args_t : Type := mk_args {
  a_iter : Z;
  a_start_iter : Z;
  a_n_sample : Z;
  a_lr : R;
  a_r1 : R;
  a_d_reg_every : Z;
  a_g_reg_every : Z;
  a_mixing : R;
  a_latent : Z;
  a_wandb : bool;
  a_augment : bool;
  a_augment_p : R;
  a_ada_target : R;
  a_ada_length : Z;
  a_distributed : bool
}.

Record ctx_t : Type := mk_ctx {
  args : args_t;
  text_encoder_type : string;
  conditioned : bool;
  rank : Z;                  (* get_rank() *)
  wandb_imported : bool;     (* the module-level name wandb is not None *)
  cfg_batch_size : Z;        (* cfg.TRAIN.BATCH_SIZE *)
  cfg_smooth_lambda : R;     (* cfg.TRAIN.SMOOTH.LAMBDA *)
  cfg_net_e : string         (* cfg.TRAIN.NET_E *)
}.

(** What the process prints, shows, logs and writes. *)
Inductive event (A : Type) : Type :=
| EvPrint (s : string)
| EvSetDescription (d g r1 sent : R)
| EvWandbLog (g d p rt r1 real fake : R)
| EvSaveImage (img : A) (path : string) (nrow : Z)
| EvTorchSave (dict_keys : list string) (path : string).
Arguments EvPrint {A} s.
Arguments EvSetDescription {A} d g r1 sent.
Arguments EvWandbLog {A} g d p rt r1 real fake.
Arguments EvSaveImage {A} img path nrow.
Arguments EvTorchSave {A} dict_keys path.

Definition is_file_write {A} (e : event A) : bool :=
  match e with
  | EvSaveImage _ _ _ | EvTorchSave _ _ => true
  | _ => false
  end.

(* ================================================================== *)
(** ** The world of the script *)

Section Model.
Context {T : Torch}.

(** [optim.Adam(params, ...)]: the parameter objects it was given, and
    its internal state. *)
Record optimizer : Type := mk_optimizer {
  param_ids : list pid;
  ostate : adam_state
}.

(** Objects that outlive a call of [train]. *)
Record torch_world : Type := mk_tw {
  nets : net -> module;          (* the parameters of each network *)
  training : net -> bool;        (* module.training *)
  g_optim : optimizer;
  d_optim : optimizer;
  rng : rng_state;
  loader_pos : nat;              (* batches drawn from the loader so far *)
  out : list (event act)         (* oldest first *)
}.

(** The local variables of [train] that are read in a later statement
    block than the one that assigns them, or that are assigned under a
    condition.  [None] is "not assigned yet". *)
Record locals : Type := mk_locals {
  l_r1_loss : option act;
  l_ada_aug_p : option R;
  l_r_t_stat : option R;
  l_ada_augment : option ada_state;
  l_loss_dict : option (list (string * pyval act));
  l_sample_z : option act;
  l_sample_words_embs : option act;
  l_sample_sent_emb : option act;
  l_words_embs : option act;
  l_sent_emb : option act
}.

Record world : Type := mk_world { tw : torch_world; loc : locals }.

Definition upd_tw (f : torch_world -> torch_world) (w : world) : world :=
  mk_world (f (tw w)) (loc w).
Definition upd_loc (f : locals -> locals) (w : world) : world :=
  mk_world (tw w) (f (loc w)).

Definition set_nets (x : net -> module) (t : torch_world) : torch_world :=
  mk_tw x (training t) (g_optim t) (d_optim t) (rng t) (loader_pos t) (out t).
Definition set_training (x : net -> bool) (t : torch_world) : torch_world :=
  mk_tw (nets t) x (g_optim t) (d_optim t) (rng t) (loader_pos t) (out t).
Definition set_g_optim (x : optimizer) (t : torch_world) : torch_world :=
  mk_tw (nets t) (training t) x (d_optim t) (rng t) (loader_pos t) (out t).
Definition set_d_optim (x : optimizer) (t : torch_world) : torch_world :=
  mk_tw (nets t) (training t) (g_optim t) x (rng t) (loader_pos t) (out t).
Definition set_rng (x : rng_state) (t : torch_world) : torch_world :=
  mk_tw (nets t) (training t) (g_optim t) (d_optim t) x (loader_pos t) (out t).
Definition set_loader_pos (x : nat) (t : torch_world) : torch_world :=
  mk_tw (nets t) (training t) (g_optim t) (d_optim t) (rng t) x (out t).
Definition set_out (x : list (event act)) (t : torch_world) : torch_world :=
  mk_tw (nets t) (training t) (g_optim t) (d_optim t) (rng t) (loader_pos t) x.

Definition set_r1_loss (x : act) (l : locals) : locals :=
  mk_locals (Some x) (l_ada_aug_p l) (l_r_t_stat l) (l_ada_augment l)
    (l_loss_dict l) (l_sample_z l) (l_sample_words_embs l)
    (l_sample_sent_emb l) (l_words_embs l) (l_sent_emb l).
Definition set_ada_aug_p (x : R) (l : locals) : locals :=
  mk_locals (l_r1_loss l) (Some x) (l_r_t_stat l) (l_ada_augment l)
    (l_loss_dict l) (l_sample_z l) (l_sample_words_embs l)
    (l_sample_sent_emb l) (l_words_embs l) (l_sent_emb l).
Definition set_r_t_stat (x : R) (l : locals) : locals :=
  mk_locals (l_r1_loss l) (l_ada_aug_p l) (Some x) (l_ada_augment l)
    (l_loss_dict l) (l_sample_z l) (l_sample_words_embs l)
    (l_sample_sent_emb l) (l_words_embs l) (l_sent_emb l).
Definition set_ada_augment (x : ada_state) (l : locals) : locals :=
  mk_locals (l_r1_loss l) (l_ada_aug_p l) (l_r_t_stat l) (Some x)
    (l_loss_dict l) (l_sample_z l) (l_sample_words_embs l)
    (l_sample_sent_emb l) (l_words_embs l) (l_sent_emb l).
Definition set_loss_dict (x : list (string * pyval act)) (l : locals) : locals :=
  mk_locals (l_r1_loss l) (l_ada_aug_p l) (l_r_t_stat l) (l_ada_augment l)
    (Some x) (l_sample_z l) (l_sample_words_embs l)
    (l_sample_sent_emb l) (l_words_embs l) (l_sent_emb l).
Definition set_sample_z (x : act) (l : locals) : locals :=
  mk_locals (l_r1_loss l) (l_ada_aug_p l) (l_r_t_stat l) (l_ada_augment l)
    (l_loss_dict l) (Some x) (l_sample_words_embs l)
    (l_sample_sent_emb l) (l_words_embs l) (l_sent_emb l).
Definition set_sample_words_embs (x : act) (l : locals) : locals :=
  mk_locals (l_r1_loss l) (l_ada_aug_p l) (l_r_t_stat l) (l_ada_augment l)
    (l_loss_dict l) (l_sample_z l) (Some x)
    (l_sample_sent_emb l) (l_words_embs l) (l_sent_emb l).
Definition set_sample_sent_emb (x : act) (l : locals) : locals :=
  mk_locals (l_r1_loss l) (l_ada_aug_p l) (l_r_t_stat l) (l_ada_augment l)
    (l_loss_dict l) (l_sample_z l) (l_sample_words_embs l)
    (Some x) (l_words_embs l) (l_sent_emb l).
Definition set_words_embs (x : act) (l : locals) : locals :=
  mk_locals (l_r1_loss l) (l_ada_aug_p l) (l_r_t_stat l) (l_ada_augment l)
    (l_loss_dict l) (l_sample_z l) (l_sample_words_embs l)
    (l_sample_sent_emb l) (Some x) (l_sent_emb l).
Definition set_sent_emb (x : act) (l : locals) : locals :=
  mk_locals (l_r1_loss l) (l_ada_aug_p l) (l_r_t_stat l) (l_ada_augment l)
    (l_loss_dict l) (l_sample_z l) (l_sample_words_embs l)
    (l_sample_sent_emb l) (l_words_embs l) (Some x).

(** A function entered afresh has no local assigned. *)
Definition no_locals : locals :=
  mk_locals None None None None None None None None None None.

Definition assign (f : locals -> locals) : M world unit := modify (upd_loc f).

Definition set_net (n : net) (m : module) (w : world) : world :=
  upd_tw (fun t => set_nets (fun n' => if net_eqb n' n then m else nets t n') t) w.

Definition emit (e : event act) : M world unit :=
  modify (upd_tw (fun t => set_out (out t ++ [e]) t)).

(** [print(s)] *)
Definition print (s : string) : M world unit := emit (EvPrint s).

(** Drawing from a random source threads the generator state. *)
Definition draw {A} (f : rng_state -> A * rng_state) : M world A :=
  fun w =>
    let (a, r) := f (rng (tw w)) in (Ok a, upd_tw (set_rng r) w).

(** [next(loader)] on the endless generator [sample_data(loader)]. *)
Definition next_batch : M world batch :=
  fun w =>
    (Ok (loader_batch (loader_pos (tw w))),
     upd_tw (fun t => set_loader_pos (S (loader_pos t)) t) w).

(* ------------------------------------------------------------------ *)
(** *** Framework operations on parameters *)

(** [model.zero_grad()]: the gradients of the parameters of [model] are
    reset. *)
Definition zero_grad (n : net) : M world unit :=
  modify (fun w =>
    set_net n (map (fun kp => (fst kp, set_grad None (snd kp))) (nets (tw w) n)) w).

(** [model.eval()] *)
Definition eval_mode (n : net) : M world unit :=
  modify (upd_tw (fun t =>
    set_training (fun n' => if net_eqb n' n then false else training t n') t)).

(** One parameter under [loss.backward()]: a gradient is deposited only
    in a parameter that requires one and that the graph of the loss
    reaches. *)
Definition backward_param (loss : act) (n : net) (kp : string * param)
  : string * param :=
  if requires_grad_flag (snd kp) then
    match param_grad loss (n, fst kp) with
    | Some g =>
        (fst kp,
         set_grad (Some (match grad (snd kp) with
                         | Some g0 => grad_add g0 g
                         | None => g
                         end)) (snd kp))
    | None => kp
    end
  else kp.

(** [loss.backward()] on a tensor. *)
Definition backward (loss : act) : M world unit :=
  modify (upd_tw (fun t =>
    set_nets (fun n => map (backward_param loss n) (nets t n)) t)).

(** [loss.backward()] on a value that may be a plain int. *)
Definition py_backward (loss : pyval act) : M world unit :=
  match loss with
  | PyTensor l => backward l
  | PyInt _ => raise (AttributeError "backward")
  end.

(** One parameter of the optimizer under [optimizer.step()]: a
    parameter without gradient is skipped. *)
Definition step_param (st : adam_state) (ns : net -> module) (id : pid)
  : net -> module :=
  match lookup (snd id) (ns (fst id)) with
  | Some p =>
      match grad p with
      | Some g =>
          fun n' =>
            if net_eqb n' (fst id)
            then update (snd id) (set_data (adam_update st id (data p) g))
                        (ns (fst id))
            else ns n'
      | None => ns
      end
  | None => ns
  end.

Definition optim_step (o : optimizer) (ns : net -> module)
  : (net -> module) * optimizer :=
  (fold_left (step_param (ostate o)) (param_ids o) ns,
   mk_optimizer (param_ids o) (adam_tick (ostate o))).

(** [d_optim.step()] *)
Definition d_optim_step : M world unit :=
  modify (upd_tw (fun t =>
    let r := optim_step (d_optim t) (nets t) in
    set_d_optim (snd r) (set_nets (fst r) t))).

(** [g_optim.step()] *)
Definition g_optim_step : M world unit :=
  modify (upd_tw (fun t =>
    let r := optim_step (g_optim t) (nets t) in
    set_g_optim (snd r) (set_nets (fst r) t))).

(** [optim.Adam(model.parameters(), ...)] *)
Definition adam_of (n : net) (st : adam_state) (w : world) : optimizer :=
  mk_optimizer (map (fun k => (n, k)) (keys (nets (tw w) n))) st.

(* ------------------------------------------------------------------ *)
(** *** The helper functions of [train.py] *)

(** [requires_grad(model, flag)] *)
Definition requires_grad (n : net) (flag : bool) : M world unit :=
  modify (fun w =>
    set_net n (map (fun kp => (fst kp, set_flag flag (snd kp))) (nets (tw w) n)) w).

(** [par[k]] for [par = dict(model.named_parameters())] *)
Definition get_param (n : net) (k : string) : M world param :=
  fun w =>
    match lookup k (nets (tw w) n) with
    | Some p => (Ok p, w)
    | None => (Raise (KeyError k), w)
    end.

Definition put_data (n : net) (k : string) (t : tensor) : M world unit :=
  modify (fun w => set_net n (update k (set_data t) (nets (tw w) n)) w).

(** [par1[k].data.mul_(decay).add_(par2[k].data, alpha=1 - decay)]:
    the receiver [par1[k].data.mul_(decay)] is evaluated, in place,
    before the argument [par2[k].data] is looked up, and both tensors
    live in the same store. *)
Definition accumulate_key (model1 model2 : net) (decay : R) (k : string)
  : M world unit :=
  p1 <- get_param model1 k ;;
  put_data model1 k (mul_ (data p1) decay) ;;
  p2 <- get_param model2 k ;;
  p1' <- get_param model1 k ;;
  match add_ (data p1') (data p2) (1 - decay) with
  | Some t => put_data model1 k t
  | None => raise (RuntimeError "size mismatch")
  end.

(** [accumulate(model1, model2, decay)] *)
Definition accumulate (model1 model2 : net) (decay : R) : M world unit :=
  par1_keys <- gets (fun w => keys (nets (tw w) model1)) ;;
  for_each par1_keys (accumulate_key model1 model2 decay).

(** [d_logistic_loss(real_pred, fake_pred)] *)
Definition d_logistic_loss (real_pred fake_pred : act) : act :=
  let real_loss := softplus (neg real_pred) in
  let fake_loss := softplus fake_pred in
  add (mean real_loss) (mean fake_loss).

(** [d_r1_loss(real_pred, real_img)] *)
Definition d_r1_loss (real_pred real_img : act) : act :=
  let grad_real := autograd_grad (tsum real_pred) real_img in
  let grad_penalty := mean (sum_dim (reshape_rows (pow grad_real 2)) 1) in
  grad_penalty.

(** [g_nonsaturating_loss(fake_pred)] *)
Definition g_nonsaturating_loss (fake_pred : act) : act :=
  let loss := mean (softplus (neg fake_pred)) in
  loss.

(** [make_noise(batch, latent_dim, 1, device)] *)
Definition make_noise_1 (batch_n latent_dim : Z) : M world act :=
  draw (randn [batch_n; latent_dim]).

(** [make_noise(batch, latent_dim, n_noise, device)] for [n_noise] other
    than 1; the tuple is modelled as a list. *)
Definition make_noise_n (batch_n latent_dim n_noise : Z) : M world (list act) :=
  z <- draw (randn [n_noise; batch_n; latent_dim]) ;;
  ret (unbind0 z).

(** [mixing_noise(batch, latent_dim, prob, device)]; [and] does not
    draw the random number when [prob > 0] fails. *)
Definition mixing_noise (batch_n latent_dim : Z) (prob : R) : M world (list act) :=
  if Rlt_dec 0 prob then
    u <- draw random_random ;;
    if Rlt_dec u prob then make_noise_n batch_n latent_dim 2
    else z <- make_noise_1 batch_n latent_dim ;; ret [z]
  else z <- make_noise_1 batch_n latent_dim ;; ret [z].

(* ------------------------------------------------------------------ *)
(** *** Python strings used for the file names *)

(** [str(i)] *)
Definition str_of_int (i : Z) : string := NilZero.string_of_int (Z.to_int i).

Fixpoint zeros (n : nat) : string :=
  match n with
  | O => ""
  | S n' => String "0" (zeros n')
  end.

(** [s.zfill(width)]: zeros go after a leading sign. *)
Definition zfill (width : nat) (s : string) : string :=
  let n := String.length s in
  if Nat.leb width n then s
  else
    match s with
    | String ch rest =>
        if (Ascii.eqb ch "+" || Ascii.eqb ch "-")%bool
        then String ch (zeros (width - n) ++ rest)%string
        else (zeros (width - n) ++ s)%string
    | EmptyString => zeros width
    end.

(** [f"sample/{str(i).zfill(6)}.png"] *)
Definition sample_path (i : Z) : string :=
  ("sample/" ++ zfill 6 (str_of_int i) ++ ".png")%string.

(** [f"checkpoint/{str(i).zfill(6)}.pt"] *)
Definition checkpoint_path (i : Z) : string :=
  ("checkpoint/" ++ zfill 6 (str_of_int i) ++ ".pt")%string.

(** The keys of the dictionary given to [torch.save], in order. *)
Definition checkpoint_keys : list string :=
  ["g"; "d"; "g_ema"; "g_optim"; "d_optim"; "args"; "ada_aug_p"].

(* ------------------------------------------------------------------ *)
(** *** The body of the training loop, block by block *)

(** [accum = 0.5 ** (32 / (10 * 1000))] *)
Definition accum : R := Rpower 0.5 (32 / (10 * 1000)).

Definition sent_emb_local : M world act :=
  read_local "sent_emb" (fun w => l_sent_emb (loc w)).
Definition ada_aug_p_local : M world R :=
  read_local "ada_aug_p" (fun w => l_ada_aug_p (loc w)).

(** [loss_dict[k] = v] *)
Definition loss_dict_store (k : string) (v : pyval act) : M world unit :=
  ld <- read_local "loss_dict" (fun w => l_loss_dict (loc w)) ;;
  assign (set_loss_dict (dict_set k v ld)).

(** Lines 222-227: the next batch. *)
Definition fetch_batch : M world (act * act * act * act) :=
  data_batch <- next_batch ;;
  ret (prepare_data data_batch).

(** Lines 230-244: the caption embeddings.  [mask] and [num_words] are
    assigned there and read nowhere; they are left out. *)
Definition encode_captions (c : ctx_t) (real_img captions cap_lens : act)
  : M world unit :=
  if conditioned c then
    te <- gets (fun w => (nets (tw w) TextEncoder, training (tw w) TextEncoder)) ;;
    (if String.eqb (text_encoder_type c) "rnn" then
       let hidden := rnn_init_hidden (fst te) (shape0 real_img) in
       let r := rnn_forward (fst te) (snd te) captions cap_lens hidden in
       assign (set_words_embs (fst r)) ;;
       assign (set_sent_emb (snd r))
     else if String.eqb (text_encoder_type c) "transformer" then
       let words_embs := transpose12 (gpt2_forward (fst te) (snd te) captions) in
       assign (set_words_embs words_embs) ;;
       assign (set_sent_emb (last_slice words_embs))
     else ret tt) ;;
    words_embs <- read_local "words_embs" (fun w => l_words_embs (loc w)) ;;
    sent_emb <- sent_emb_local ;;
    assign (set_words_embs (detach words_embs)) ;;
    assign (set_sent_emb (detach sent_emb))
  else ret tt.

(** Lines 249-253 and 317-321.  [mixing_noise] returns a tuple or a
    list, so the first test reduces to [conditioned] and the [elif]
    branch is never taken. *)
Definition conditioned_noise (c : ctx_t) (real_img : act) : M world (list act) :=
  noise <- mixing_noise (shape0 real_img) (a_latent (args c)) (a_mixing (args c)) ;;
  if conditioned c then
    map_m (fun ns => sent_emb <- sent_emb_local ;; ret (cat1 ns sent_emb)) noise
  else ret noise.

(** [model(noise)] of a generator; the second component of the result
    is dropped by the caller. *)
Definition run_generator (n : net) (noise : list act) : M world act :=
  gets (fun w => generator_forward (nets (tw w) n) (training (tw w) n) noise).

(** [discriminator(img, sent_emb)] *)
Definition run_discriminator (img : act) : M world (act * act) :=
  sent_emb <- sent_emb_local ;;
  gets (fun w =>
    discriminator_forward (nets (tw w) Discriminator)
      (training (tw w) Discriminator) img sent_emb).

(** [augment(img, ada_aug_p)], first component *)
Definition run_augment (img : act) : M world act :=
  p <- ada_aug_p_local ;;
  draw (augment img p).

(** Lines 275-279.  A conditional expression binds weaker than [+]:
    the source text [A + (B + C) if conditioned else 0] is the
    expression [(A + (B + C)) if conditioned else 0]. *)
Definition d_loss_value (cond : bool)
  (real_pred fake_pred fake_logits fake_labels real_logits real_labels : act)
  : pyval act :=
  if cond then
    PyTensor (add (d_logistic_loss real_pred fake_pred)
                  (add (bce_loss fake_logits fake_labels)
                       (bce_loss real_logits real_labels)))
  else PyInt 0.

(** Lines 246-285: everything of the discriminator update up to and
    including [discriminator.zero_grad()].  Returns [d_loss],
    [real_pred] and [match_labels]. *)
Definition d_forward (c : ctx_t) (real_img : act)
  : M world (pyval act * act * act) :=
  requires_grad Generator false ;;
  requires_grad Discriminator true ;;
  noise <- conditioned_noise c real_img ;;
  fake_img <- run_generator Generator noise ;;
  imgs <- (if a_augment (args c) then
             real_img_aug <- run_augment real_img ;;
             fake_img' <- run_augment fake_img ;;
             ret (real_img_aug, fake_img')
           else ret (real_img, fake_img)) ;;
  let real_img_aug := fst imgs in
  let fake_img := snd imgs in
  let real_labels := full (shape0 real_img) 1 in
  let fake_labels := full (shape0 real_img) 0 in
  let match_labels := arange (cfg_batch_size c) in
  fake <- run_discriminator fake_img ;;
  real <- run_discriminator real_img_aug ;;
  let d_loss :=
    d_loss_value (conditioned c) (fst real) (fst fake)
      (snd fake) fake_labels (snd real) real_labels in
  loss_dict_store "d" d_loss ;;
  loss_dict_store "real_score" (PyTensor (mean (fst real))) ;;
  loss_dict_store "fake_score" (PyTensor (mean (fst fake))) ;;
  zero_grad Discriminator ;;
  ret (d_loss, fst real, match_labels).

(** Lines 286-287: [d_loss.backward(); d_optim.step()]. *)
Definition d_backward_step (d_loss : pyval act) : M world unit :=
  py_backward d_loss ;;
  d_optim_step.

(** Lines 289-291. *)
Definition ada_tune_block (c : ctx_t) (real_pred : act) : M world unit :=
  if a_augment (args c) then
    if Req_dec_T (a_augment_p (args c)) 0 then
      ada <- read_local "ada_augment" (fun w => l_ada_augment (loc w)) ;;
      let r := ada_tune ada real_pred in
      assign (set_ada_augment (fst r)) ;;
      assign (set_ada_aug_p (snd r)) ;;
      assign (set_r_t_stat (ada_r_t_stat (fst r)))
    else ret tt
  else ret tt.

(** The loss given to [backward] on line 308:
    [args.r1 / 2 * r1_loss * args.d_reg_every + 0 * real_pred[0]]. *)
Definition r1_penalty (c : ctx_t) (r1_loss real_pred : act) : act :=
  add (scale (IZR (a_d_reg_every (args c)))
             (scale (a_r1 (args c) / 2) r1_loss))
      (scale 0 (first_row real_pred)).

(** Lines 296-305: the forward pass of the regularization step.
    Returns the new [r1_loss] and [real_pred]. *)
Definition d_reg_forward (c : ctx_t) (real_img : act) : M world (act * act) :=
  let real_img := with_grad real_img in
  real_img_aug <- (if a_augment (args c) then run_augment real_img
                   else ret real_img) ;;
  real <- run_discriminator real_img_aug ;;
  let r1_loss := d_r1_loss (fst real) real_img in
  assign (set_r1_loss r1_loss) ;;
  ret (r1_loss, fst real).

(** Lines 307-310. *)
Definition d_reg_backward_step (c : ctx_t) (r1_loss real_pred : act)
  : M world unit :=
  zero_grad Discriminator ;;
  backward (r1_penalty c r1_loss real_pred) ;;
  d_optim_step.

(** Lines 293-312.  Returns [real_img], on which line 296 may have set
    [requires_grad]. *)
Definition d_regularize_block (c : ctx_t) (i : Z) (real_img : act) : M world act :=
  m <- py_mod i (a_d_reg_every (args c)) ;;
  let d_regularize := m =? 0 in
  real_img' <- (if d_regularize then
                  r <- d_reg_forward c real_img ;;
                  d_reg_backward_step c (fst r) (snd r) ;;
                  ret (with_grad real_img)
                else ret real_img) ;;
  r1_loss <- read_local "r1_loss" (fun w => l_r1_loss (loc w)) ;;
  loss_dict_store "r1" (PyTensor r1_loss) ;;
  ret real_img'.

(** Lines 330-343: [g_loss] after [g_loss += s_loss], and [s_loss]. *)
Definition g_loss_value (c : ctx_t) (fake_pred s_loss0 s_loss1 : act) : act * act :=
  let g_loss := g_nonsaturating_loss fake_pred in
  let s_loss := scale (cfg_smooth_lambda c) (add s_loss0 s_loss1) in
  (add g_loss s_loss, s_loss).

(** Lines 314-348: everything of the generator update up to and
    including [generator.zero_grad()].  Returns [g_loss]. *)
Definition g_forward (c : ctx_t) (real_img match_labels class_ids : act)
  : M world act :=
  requires_grad Generator true ;;
  requires_grad Discriminator false ;;
  noise <- conditioned_noise c real_img ;;
  fake_img <- run_generator Generator noise ;;
  fake_img <- (if a_augment (args c) then run_augment fake_img
               else ret fake_img) ;;
  fake <- run_discriminator fake_img ;;
  enc <- gets (fun w =>
           cnn_forward (nets (tw w) ImageEncoder)
             (training (tw w) ImageEncoder) fake_img) ;;
  let cnn_code := snd enc in
  sent_emb <- sent_emb_local ;;
  let s := sent_loss cnn_code sent_emb match_labels class_ids (cfg_batch_size c) in
  let r := g_loss_value c (fst fake) (fst s) (snd s) in
  loss_dict_store "g" (PyTensor (fst r)) ;;
  loss_dict_store "sent" (PyTensor (snd r)) ;;
  zero_grad Generator ;;
  ret (fst r).

(** Lines 349-350: [g_loss.backward(); g_optim.step()]. *)
Definition g_backward_step (g_loss : act) : M world unit :=
  backward g_loss ;;
  g_optim_step.

(** Line 352: the value is not used, the division is performed. *)
Definition g_regularize_test (c : ctx_t) (i : Z) : M world unit :=
  m <- py_mod i (a_g_reg_every (args c)) ;;
  ret tt.

(** Line 386.  [g_module] is [generator.module] under
    [args.distributed] and [generator] otherwise: the same parameter
    objects either way. *)
Definition ema_block : M world unit := accumulate GEma Generator accum.

(** [loss_reduced[k].mean().item()] *)
Definition reduced_value (loss_reduced : list (string * pyval act)) (k : string)
  : M world R :=
  match lookup k loss_reduced with
  | Some (PyTensor t) => ret (item (mean t))
  | Some (PyInt _) => raise (AttributeError "mean")
  | None => raise (KeyError k)
  end.

(** Lines 423-436. *)
Definition save_sample (c : ctx_t) (i : Z) : M world unit :=
  eval_mode GEma ;;
  sample_z <- read_local "sample_z" (fun w => l_sample_z (loc w)) ;;
  sample_encoded <-
    (if conditioned c then
       sample_sent_emb <-
         read_local "sample_sent_emb" (fun w => l_sample_sent_emb (loc w)) ;;
       ret (cat1 sample_z sample_sent_emb)
     else ret sample_z) ;;
  sample <- run_generator GEma [sample_encoded] ;;
  (* int(args.n_sample ** 0.5): a negative base gives a complex number,
     which int() refuses; the rest is floating point *)
  nrow <- (if a_n_sample (args c) <? 0 then raise TypeError
           else match int_pow_half (a_n_sample (args c)) with
                | Some nrow => ret nrow
                | None => raise OverflowError
                end) ;;
  emit (EvSaveImage sample (sample_path i) nrow).

(** Lines 388-450. *)
Definition report_block (c : ctx_t) (i : Z) : M world unit :=
  loss_dict <- read_local "loss_dict" (fun w => l_loss_dict (loc w)) ;;
  let loss_reduced := reduce_loss_dict loss_dict in
  d_loss_val <- reduced_value loss_reduced "d" ;;
  g_loss_val <- reduced_value loss_reduced "g" ;;
  r1_val <- reduced_value loss_reduced "r1" ;;
  real_score_val <- reduced_value loss_reduced "real_score" ;;
  fake_score_val <- reduced_value loss_reduced "fake_score" ;;
  sent_loss_val <- reduced_value loss_reduced "sent" ;;
  if rank c =? 0 then
    emit (EvSetDescription d_loss_val g_loss_val r1_val sent_loss_val) ;;
    (if (wandb_imported c && a_wandb (args c))%bool then
       ada_aug_p <- ada_aug_p_local ;;
       r_t_stat <- read_local "r_t_stat" (fun w => l_r_t_stat (loc w)) ;;
       emit (EvWandbLog g_loss_val d_loss_val ada_aug_p r_t_stat r1_val
               real_score_val fake_score_val)
     else ret tt) ;;
    (if i mod 100 =? 0 then save_sample c i else ret tt) ;;
    (if i mod 10000 =? 0 then
       ada_aug_p <- ada_aug_p_local ;;
       emit (EvTorchSave checkpoint_keys (checkpoint_path i))
     else ret tt)
  else ret tt.

(** Lines 222-287: from the batch to the discriminator step. *)
Definition before_d_step (c : ctx_t)
  : M world (act * act * (pyval act * act * act)) :=
  b <- fetch_batch ;;
  let real_img := fst (fst (fst b)) in
  let captions := snd (fst (fst b)) in
  let cap_lens := snd (fst b) in
  let class_ids := snd b in
  encode_captions c real_img captions cap_lens ;;
  d <- d_forward c real_img ;;
  ret (real_img, class_ids, d).

(** Lines 289-348: from after the discriminator step to the generator
    step.  Returns [g_loss]. *)
Definition between_steps (c : ctx_t) (i : Z)
  (x : act * act * (pyval act * act * act)) : M world act :=
  let real_img := fst (fst x) in
  let class_ids := snd (fst x) in
  let real_pred := snd (fst (snd x)) in
  let match_labels := snd (snd x) in
  ada_tune_block c real_pred ;;
  real_img <- d_regularize_block c i real_img ;;
  g_forward c real_img match_labels class_ids.

(** Lines 352-450. *)
Definition after_g_step (c : ctx_t) (i : Z) : M world unit :=
  g_regularize_test c i ;;
  ema_block ;;
  report_block c i.

(** One pass through the loop body for the counter [i], after the test
    [i > args.iter]. *)
Definition train_iter (c : ctx_t) (i : Z) : M world unit :=
  x <- before_d_step c ;;
  d_backward_step (fst (fst (snd x))) ;;
  g_loss <- between_steps c i x ;;
  g_backward_step g_loss ;;
  after_g_step c i.

(* ------------------------------------------------------------------ *)
(** *** The function [train] *)

(** [for a in l: ...] whose body may [break]; the body answers [true]
    when it breaks. *)
Fixpoint for_break {W A} (l : list A) (body : A -> M W bool) : M W unit :=
  match l with
  | [] => ret tt
  | a :: l' => b <- body a ;; if b then ret tt else for_break l' body
  end.

(** [range(n)] *)
Definition py_range (n : Z) : list Z := map Z.of_nat (seq 0 (Z.to_nat n)).

(** Lines 186-212: the fixed sample inputs. *)
Definition sample_inputs (c : ctx_t) : M world unit :=
  data_batch <- next_batch ;;
  let b := prepare_data data_batch in
  let sample_captions := snd (fst (fst b)) in
  let cap_lens := snd (fst b) in
  sample_z <- draw (randn [cfg_batch_size c; a_latent (args c)]) ;;
  assign (set_sample_z sample_z) ;;
  if conditioned c then
    te <- gets (fun w => (nets (tw w) TextEncoder, training (tw w) TextEncoder)) ;;
    (if String.eqb (text_encoder_type c) "rnn" then
       let hidden := rnn_init_hidden (fst te) (cfg_batch_size c) in
       let r := rnn_forward (fst te) (snd te) sample_captions cap_lens hidden in
       assign (set_sample_words_embs (fst r)) ;;
       assign (set_sample_sent_emb (snd r))
     else if String.eqb (text_encoder_type c) "transformer" then
       let words_embs := transpose12 (gpt2_forward (fst te) (snd te) sample_captions) in
       assign (set_sample_words_embs words_embs) ;;
       assign (set_sample_sent_emb (last_slice words_embs))
     else ret tt) ;;
    words_embs <-
      read_local "sample_words_embs" (fun w => l_sample_words_embs (loc w)) ;;
    sent_emb <-
      read_local "sample_sent_emb" (fun w => l_sample_sent_emb (loc w)) ;;
    assign (set_sample_words_embs (detach words_embs)) ;;
    assign (set_sample_sent_emb (detach sent_emb))
  else ret tt.

(** Lines 155-212: what [train] does before the loop.  The progress
    bar wrapper of rank 0 yields the same indices as the range. *)
Definition train_prologue (c : ctx_t) : M world unit :=
  assign (set_r1_loss (tensor_of_float 0)) ;;
  assign (set_loss_dict []) ;;
  assign (set_ada_aug_p (if Rgt_dec (a_augment_p (args c)) 0
                         then a_augment_p (args c) else 0%R)) ;;
  assign (set_r_t_stat 0) ;;
  (if a_augment (args c) then
     if Req_dec_T (a_augment_p (args c)) 0 then
       assign (set_ada_augment
                 (ada_new (a_ada_target (args c)) (a_ada_length (args c)) 8))
     else ret tt
   else ret tt) ;;
  sample_inputs c.

(** Lines 214-220, with the rest of the loop body as [step]. *)
Definition loop_pass (c : ctx_t) (step : Z -> M world unit) (idx : Z)
  : M world bool :=
  let i := idx + a_start_iter (args c) in
  if i >? a_iter (args c) then print "Done!" ;; ret true
  else step i ;; ret false.

(** Lines 157 and 214-450. *)
Definition train_loop (c : ctx_t) (step : Z -> M world unit) : M world unit :=
  for_break (py_range (a_iter (args c))) (loop_pass c step).

(** [train(...)]: a fresh frame, the prologue, the loop. *)
Definition train (c : ctx_t) : M world unit :=
  modify (upd_loc (fun _ => no_locals)) ;;
  train_prologue c ;;
  train_loop c (train_iter c).

(* ------------------------------------------------------------------ *)
(** *** The [__main__] block, from line 606 on *)

(** [try: body except <catches>: handler] *)
Definition try_except {W A} (body : M W A) (catches : exn -> bool)
  (handler : M W A) : M W A :=
  fun w =>
    match body w with
    | (Raise e, w') => if catches e then handler w' else (Raise e, w')
    | r => r
    end.

Fixpoint has_char (ch : ascii) (s : string) : bool :=
  match s with
  | EmptyString => false
  | String x s' => (Ascii.eqb x ch || has_char ch s')%bool
  end.

(** [os.path.basename(p)] on POSIX: what follows the last slash. *)
Fixpoint basename (p : string) : string :=
  match p with
  | EmptyString => ""
  | String _ p' => if has_char "/" p then basename p' else p
  end.

Fixpoint last_index (ch : ascii) (s : string) : option nat :=
  match s with
  | EmptyString => None
  | String x s' =>
      match last_index ch s' with
      | Some k => Some (S k)
      | None => if Ascii.eqb x ch then Some O else None
      end
  end.

Fixpoint all_char (ch : ascii) (s : string) : bool :=
  match s with
  | EmptyString => true
  | String x s' => (Ascii.eqb x ch && all_char ch s')%bool
  end.

(** [os.path.splitext(name)[0]] for a name without slash: the part
    before the last dot, unless only dots precede that dot. *)
Definition splitext_root (name : string) : string :=
  match last_index "." name with
  | Some d =>
      if all_char "." (substring 0 d name) then name else substring 0 d name
  | None => name
  end.

Definition is_space (ch : ascii) : bool :=
  let n := nat_of_ascii ch in
  (Nat.eqb n 32 || (Nat.leb 9 n && Nat.leb n 13))%bool.

Fixpoint lstrip (s : string) : string :=
  match s with
  | String x s' => if is_space x then lstrip s' else s
  | EmptyString => ""
  end.

Fixpoint rstrip (s : string) : string :=
  match s with
  | String x s' =>
      match rstrip s' with
      | EmptyString => if is_space x then "" else String x ""
      | r => String x r
      end
  | EmptyString => ""
  end.

Definition digit_value (ch : ascii) : option Z :=
  let n := nat_of_ascii ch in
  if (Nat.leb 48 n && Nat.leb n 57)%bool then Some (Z.of_nat (n - 48)) else None.

(** Decimal digits, single underscores allowed between two digits. *)
Fixpoint parse_digits (s : string) (acc : Z) (after_digit : bool) : option Z :=
  match s with
  | EmptyString => if after_digit then Some acc else None
  | String x s' =>
      if Ascii.eqb x "_" then
        if after_digit then parse_digits s' acc false else None
      else
        match digit_value x with
        | Some d => parse_digits s' (10 * acc + d) true
        | None => None
        end
  end.

(** [int(s)] for an ASCII string [s]: surrounding white space, an
    optional sign, decimal digits; [ValueError] otherwise. *)
Definition py_int (s : string) : outcome Z :=
  let r :=
    match rstrip (lstrip s) with
    | String "-" t => option_map Z.opp (parse_digits t 0 false)
    | String "+" t => parse_digits t 0 false
    | t => parse_digits t 0 false
    end in
  match r with
  | Some z => Ok z
  | None => Raise ValueError
  end.

Definition lift {W A} (r : outcome A) : M W A := fun w => (r, w).

Definition set_start_iter (z : Z) (c : ctx_t) : ctx_t :=
  let a := args c in
  mk_ctx
    (mk_args (a_iter a) z (a_n_sample a) (a_lr a) (a_r1 a) (a_d_reg_every a)
       (a_g_reg_every a) (a_mixing a) (a_latent a) (a_wandb a) (a_augment a)
       (a_augment_p a) (a_ada_target a) (a_ada_length a) (a_distributed a))
    (text_encoder_type c) (conditioned c) (rank c) (wandb_imported c)
    (cfg_batch_size c) (cfg_smooth_lambda c) (cfg_net_e c).

Definition set_wandb_imported (b : bool) (c : ctx_t) : ctx_t :=
  mk_ctx (args c) (text_encoder_type c) (conditioned c) (rank c) b
    (cfg_batch_size c) (cfg_smooth_lambda c) (cfg_net_e c).

(** Lines 26-30.  [installed] says whether [import wandb] succeeds. *)
Definition import_wandb (installed : bool) : M world unit :=
  if installed then ret tt else raise ImportError.

Definition wandb_guard (installed : bool) : M world bool :=
  try_except (import_wandb installed ;; ret true)
    (fun e => match e with ImportError => true | _ => false end)
    (ret false).

(** Lines 683-688. *)
Definition resume_counter (c : ctx_t) (ckpt : string) : M world ctx_t :=
  try_except
    (let ckpt_name := basename ckpt in
     z <- lift (py_int (splitext_root ckpt_name)) ;;
     ret (set_start_iter z c))
    (fun e => match e with ValueError => true | _ => false end)
    (ret c).

(** [model.load_state_dict(sd)] with the default [strict=True]: the
    entries that fit are copied, then missing, unexpected or
    wrongly-sized entries are reported. *)
Definition load_param (sd : list (string * tensor)) (kp : string * param)
  : string * param :=
  match lookup (fst kp) sd with
  | Some t =>
      if Nat.eqb (List.length t) (List.length (data (snd kp)))
      then (fst kp, set_data t (snd kp)) else kp
  | None => kp
  end.

Definition state_dict_fits (sd : list (string * tensor)) (m : module) : bool :=
  (forallb (fun kp =>
      match lookup (fst kp) sd with
      | Some t => Nat.eqb (List.length t) (List.length (data (snd kp)))
      | None => false
      end) m
   && forallb (fun kt =>
      match lookup (fst kt) m with Some _ => true | None => false end) sd)%bool.

Definition load_state_dict (n : net) (sd : list (string * tensor)) : M world unit :=
  m <- gets (fun w => nets (tw w) n) ;;
  modify (set_net n (map (load_param sd) m)) ;;
  if state_dict_fits sd m then ret tt else raise (RuntimeError "load_state_dict").

(** [ckpt[k]] *)
Definition ckpt_entry (ck : list (string * list (string * tensor))) (k : string)
  : M world (list (string * tensor)) :=
  match lookup k ck with
  | Some sd => ret sd
  | None => raise (KeyError k)
  end.

(** [s.replace(old, new)]; [skip] counts the characters of a match
    that remain to be dropped. *)
Fixpoint replace_from (old new : string) (skip : nat) (s : string) : string :=
  match s with
  | EmptyString => ""
  | String x s' =>
      match skip with
      | S k => replace_from old new k s'
      | O =>
          if String.prefix old s
          then (new ++ replace_from old new (String.length old - 1) s')%string
          else String x (replace_from old new O s')
      end
  end.

(** Lines 642-660: both encoders are loaded, frozen and put in
    evaluation mode.  The two [for p in ...parameters()] loops are the
    loop of [requires_grad]. *)
Definition setup_encoders (c : ctx_t) : M world unit :=
  load_state_dict TextEncoder (torch_load (cfg_net_e c)) ;;
  requires_grad TextEncoder false ;;
  print ("Load text encoder from: " ++ cfg_net_e c)%string ;;
  eval_mode TextEncoder ;;
  let img_encoder_path :=
    replace_from "text_encoder" "image_encoder" O (cfg_net_e c) in
  load_state_dict ImageEncoder (torch_load img_encoder_path) ;;
  requires_grad ImageEncoder false ;;
  print ("Load image encoder from: " ++ img_encoder_path)%string ;;
  eval_mode ImageEncoder.

(** Lines 664-676. *)
Definition setup_optimizers (c : ctx_t) : M world unit :=
  let g := a_g_reg_every (args c) in
  let d := a_d_reg_every (args c) in
  (if g + 1 =? 0 then raise ZeroDivisionError else ret tt) ;;
  (if d + 1 =? 0 then raise ZeroDivisionError else ret tt) ;;
  let g_reg_ratio := (IZR g / IZR (g + 1))%R in
  let d_reg_ratio := (IZR d / IZR (d + 1))%R in
  modify (fun w =>
    upd_tw (set_g_optim
      (adam_of Generator (adam_new (a_lr (args c) * g_reg_ratio) g_reg_ratio) w)) w) ;;
  modify (fun w =>
    upd_tw (set_d_optim
      (adam_of Discriminator (adam_new (a_lr (args c) * d_reg_ratio) d_reg_ratio) w)) w).

(** Lines 678-695. *)
Definition resume (c : ctx_t) (ckpt : option string) : M world ctx_t :=
  match ckpt with
  | None => ret c
  | Some path =>
      print ("load model: " ++ path)%string ;;
      let ck := torch_load_ckpt path in
      c' <- resume_counter c path ;;
      g <- ckpt_entry ck "g" ;;
      load_state_dict Generator g ;;
      d <- ckpt_entry ck "d" ;;
      load_state_dict Discriminator d ;;
      e <- ckpt_entry ck "g_ema" ;;
      load_state_dict GEma e ;;
      g_sd <- ckpt_entry ck "g_optim" ;;
      modify (upd_tw (fun t =>
        set_g_optim (mk_optimizer (param_ids (g_optim t))
                       (adam_load_state (ostate (g_optim t)) g_sd)) t)) ;;
      d_sd <- ckpt_entry ck "d_optim" ;;
      modify (upd_tw (fun t =>
        set_d_optim (mk_optimizer (param_ids (d_optim t))
                       (adam_load_state (ostate (d_optim t)) d_sd)) t)) ;;
      ret c'
  end.

(** Lines 583 and 606-695, on a world in which the five networks have
    been constructed.  Wrapping the generator and the discriminator for
    distributed training (lines 697-710) keeps their parameter objects
    and is not modelled. *)
Definition main_setup (c : ctx_t) (ckpt : option string) : M world ctx_t :=
  let c := set_start_iter 0 c in
  eval_mode GEma ;;
  accumulate GEma Generator 0 ;;
  setup_encoders c ;;
  setup_optimizers c ;;
  resume c ckpt.

(** The script from the import guard to the end. *)
Definition main (installed : bool) (c : ctx_t) (ckpt : option string)
  : M world unit :=
  wandb_ok <- wandb_guard installed ;;
  c' <- main_setup (set_wandb_imported wandb_ok c) ckpt ;;
  train c'.

End Model.

(* ================================================================== *)
(** ** A free interpretation of the framework

    Tensors are the terms built by the operations; random sources and
    the loader count their calls.  It is used to run the model on
    concrete inputs. *)

#[local] Unset Elimination Schemes.
Inductive sym : Type :=
| Sym (op : string) (operands : list sym).
#[local] Set Elimination Schemes.

Definition sym_torch : Torch := {|
  act := sym;
  batch := nat;
  rng_state := nat;
  adam_state := nat;
  ada_state := nat;
  tensor_of_float := fun _ => Sym "tensor" [];
  neg := fun x => Sym "neg" [x];
  softplus := fun x => Sym "softplus" [x];
  mean := fun x => Sym "mean" [x];
  tsum := fun x => Sym "sum" [x];
  add := fun x y => Sym "add" [x; y];
  scale := fun _ x => Sym "scale" [x];
  pow := fun x _ => Sym "pow" [x];
  reshape_rows := fun x => Sym "reshape" [x];
  sum_dim := fun x _ => Sym "sum_dim" [x];
  first_row := fun x => Sym "first_row" [x];
  cat1 := fun x y => Sym "cat" [x; y];
  detach := fun x => Sym "detach" [x];
  transpose12 := fun x => Sym "transpose" [x];
  last_slice := fun x => Sym "last_slice" [x];
  shape0 := fun _ => 4;
  full := fun _ _ => Sym "full" [];
  arange := fun _ => Sym "arange" [];
  item := fun _ => 0%R;
  with_grad := fun x => Sym "with_grad" [x];
  bce_loss := fun x y => Sym "bce" [x; y];
  autograd_grad := fun x y => Sym "grad" [x; y];
  randn := fun _ n => (Sym "randn" [], S n);
  unbind0 := fun x => [Sym "unbind_0" [x]; Sym "unbind_1" [x]];
  random_random := fun n => (0%R, S n);
  augment := fun x _ n => (Sym "augment" [x], S n);
  loader_batch := fun n => n;
  prepare_data := fun _ =>
    (Sym "imgs" [], Sym "captions" [], Sym "cap_lens" [], Sym "class_ids" []);
  generator_forward := fun _ _ noise => Sym "generator" noise;
  discriminator_forward := fun _ _ img emb =>
    (Sym "pred" [img; emb], Sym "logits" [img; emb]);
  rnn_init_hidden := fun _ _ => Sym "hidden" [];
  rnn_forward := fun _ _ caps lens h =>
    (Sym "words_embs" [caps; lens; h], Sym "sent_emb" [caps; lens; h]);
  gpt2_forward := fun _ _ caps => Sym "gpt2" [caps];
  cnn_forward := fun _ _ img => (Sym "region_features" [img], Sym "cnn_code" [img]);
  sent_loss := fun code emb labels ids _ =>
    (Sym "s_loss0" [code; emb; labels; ids], Sym "s_loss1" [code; emb; labels; ids]);
  param_grad := fun _ _ => Some [1%R];
  grad_add := fun g _ => g;
  adam_update := fun _ _ d _ => d;
  adam_tick := S;
  adam_new := fun _ _ => O;
  adam_load_state := fun st _ => st;
  ada_new := fun _ _ _ => O;
  ada_tune := fun st _ => (S st, 0%R);
  ada_r_t_stat := fun _ => 0%R;
  reduce_loss_dict := fun d => d;
  torch_load := fun _ => [("weight", [0%R])];
  torch_load_ckpt := fun _ =>
    [("g", [("weight", [0%R])]); ("d", [("weight", [0%R])]);
     ("g_ema", [("weight", [0%R])]); ("g_optim", []); ("d_optim", [])];
  int_pow_half := fun n => Some (Z.sqrt n)
|}.

(** Every network has one parameter of one element. *)
Definition demo_module (x : R) : module := [("weight", mk_param [x] true None)].

Definition demo_world : world (T := sym_torch) :=
  mk_world
    (mk_tw (T := sym_torch)
           (fun n => match n with
                     | Generator => demo_module 1
                     | GEma => demo_module 2
                     | _ => demo_module 3
                     end)
           (fun _ => true)
           (mk_optimizer (T := sym_torch) [] O)
           (mk_optimizer (T := sym_torch) [] O) O O [])
    no_locals.

Definition demo_args : args_t :=
  mk_args 2 0 64 0.002 10 16 4 0.9 512 false false 0 0.6 500000 false.

Definition demo_ctx : ctx_t :=
  mk_ctx demo_args "rnn" true 0 false 4 1 "text_encoder200.pth".

(** The same run without caption conditioning, the default of
    [train] and of [--cond]. *)
Definition demo_ctx_uncond : ctx_t :=
  mk_ctx demo_args "rnn" false 0 false 4 1 "text_encoder200.pth".

(** The world after the setup of the [__main__] block, the world at
    the head of the loop, and the world after one pass. *)
Definition demo_ready : world (T := sym_torch) :=
  snd (main_setup demo_ctx None demo_world).

Definition demo_loop : world (T := sym_torch) :=
  snd ((modify (upd_loc (fun _ => no_locals)) ;; train_prologue demo_ctx)%py
         demo_ready).

Definition demo_after : world (T := sym_torch) :=
  snd (train_iter demo_ctx 0 demo_loop).

(* ================================================================== *)
(** ** Predicates used in the statements *)

(** A property of the world that a computation cannot break, whether
    it returns or raises. *)
Definition preserves {W A} (I : W -> Prop) (m : M W A) : Prop :=
  forall w r w', I w -> m w = (r, w') -> I w'.

(** The exponential moving average of two tensors, elementwise:
    [decay * a + (1 - decay) * b]. *)
Definition ema_data (decay : R) (t1 t2 : tensor) : tensor :=
  zip_with (fun a b => (decay * a + (1 - decay) * b)%R) t1 t2.

(** Parameter names are unique, and every parameter of [m1] has a
    namesake of the same size in [m2]: what holds of two networks built
    by the same constructor call. *)
Definition compatible (m1 m2 : module) : Prop :=
  NoDup (keys m1) /\
  forall k p1, lookup k m1 = Some p1 ->
    exists p2, lookup k m2 = Some p2 /\
               List.length (data p1) = List.length (data p2).

Definition all_flags (b : bool) (m : module) : Prop :=
  Forall (fun kp => requires_grad_flag (snd kp) = b) m.

(** The names and the data of the parameters of a module, without
    flags and gradients. *)
Definition data_of (m : module) : list (string * tensor) :=
  map (fun kp => (fst kp, data (snd kp))) m.

Section Predicates.
Context {T : Torch}.

(** Everything but the parameter store is the same in both worlds. *)
Definition same_but_nets (w w' : world) : Prop :=
  training (tw w') = training (tw w) /\
  g_optim (tw w') = g_optim (tw w) /\
  d_optim (tw w') = d_optim (tw w) /\
  rng (tw w') = rng (tw w) /\
  loader_pos (tw w') = loader_pos (tw w) /\
  out (tw w') = out (tw w) /\
  loc w' = loc w.

(** No parameter of the network [n] is held by the optimizer. *)
Definition unregistered (n : net) (o : optimizer) : Prop :=
  forall id, In id (param_ids o) -> fst id <> n.

(** The optimizer holds parameters of the network [n] only. *)
Definition registered_in (n : net) (o : optimizer) : Prop :=
  forall id, In id (param_ids o) -> fst id = n.

(** The parameters and the mode of the network [n] are [m] and [b],
    no parameter of [n] asks for a gradient and no optimizer holds
    one. *)
Definition frozen_net (n : net) (m : module) (b : bool) (w : world) : Prop :=
  nets (tw w) n = m /\ training (tw w) n = b /\ all_flags false m /\
  unregistered n (g_optim (tw w)) /\ unregistered n (d_optim (tw w)).

(** The data of the parameters of [n] is [d] and no optimizer holds
    one of them. *)
Definition data_fixed (n : net) (d : list (string * tensor)) (w : world) : Prop :=
  data_of (nets (tw w) n) = d /\
  unregistered n (g_optim (tw w)) /\ unregistered n (d_optim (tw w)).

(** Each optimizer holds parameters of its own network only. *)
Definition optims_wf (w : world) : Prop :=
  registered_in Generator (g_optim (tw w)) /\
  registered_in Discriminator (d_optim (tw w)).

(** The [requires_grad] flags of the generator are all [bg], those of
    the discriminator all [bd]. *)
Definition flags_are (bg bd : bool) (w : world) : Prop :=
  all_flags bg (nets (tw w) Generator) /\
  all_flags bd (nets (tw w) Discriminator).

(** Both encoders are frozen and in evaluation mode. *)
Definition encoders_ready (w : world) : Prop :=
  all_flags false (nets (tw w) TextEncoder)
  /\ all_flags false (nets (tw w) ImageEncoder)
  /\ training (tw w) TextEncoder = false
  /\ training (tw w) ImageEncoder = false.

(** The parameter store, the modes and the local variables are as
    given. *)
Definition static_is (N : net -> module) (Tr : net -> bool) (L : locals)
  (w : world) : Prop :=
  nets (tw w) = N /\ training (tw w) = Tr /\ loc w = L.

(** The discriminator optimizer and the local [r1_loss] are as
    given. *)
Definition r1_state (o : optimizer) (v : option act) (w : world) : Prop :=
  d_optim (tw w) = o /\ l_r1_loss (loc w) = v.

(** The output is [o] followed by events that all satisfy [P]. *)
Definition out_extends (o : list (event act)) (P : event act -> Prop)
  (w : world) : Prop :=
  exists evs, out (tw w) = o ++ evs /\ Forall P evs.

(** An event that writes a file comes from rank 0 and is the sample of
    a counter divisible by 100 or the checkpoint of a counter divisible
    by 10000, under the name made from the counter. *)
Definition file_event_ok (c : ctx_t) (i : Z) (e : event act) : Prop :=
  is_file_write e = true ->
  rank c = 0
  /\ ((exists img nrow, e = EvSaveImage img (sample_path i) nrow
                        /\ i mod 100 = 0)
      \/ (e = EvTorchSave checkpoint_keys (checkpoint_path i)
          /\ i mod 10000 = 0)).

End Predicates.

(* ================================================================== *)
(** ** More of [train.py], and what the further properties are stated with *)

(** *** Numerals in file names *)

(** The value of a decimal numeral read from the left, after [acc]. *)
Fixpoint uint_value (d : Decimal.uint) (acc : Z) : Z :=
  match d with
  | Decimal.Nil => acc
  | Decimal.D0 l => uint_value l (10 * acc + 0)
  | Decimal.D1 l => uint_value l (10 * acc + 1)
  | Decimal.D2 l => uint_value l (10 * acc + 2)
  | Decimal.D3 l => uint_value l (10 * acc + 3)
  | Decimal.D4 l => uint_value l (10 * acc + 4)
  | Decimal.D5 l => uint_value l (10 * acc + 5)
  | Decimal.D6 l => uint_value l (10 * acc + 6)
  | Decimal.D7 l => uint_value l (10 * acc + 7)
  | Decimal.D8 l => uint_value l (10 * acc + 8)
  | Decimal.D9 l => uint_value l (10 * acc + 9)
  end.

Fixpoint str_forall (p : ascii -> bool) (s : string) : bool :=
  match s with
  | EmptyString => true
  | String x s' => (p x && str_forall p s')%bool
  end.

Definition is_digit (ch : ascii) : bool :=
  match digit_value ch with
  | Some _ => true
  | None => false
  end.

(** A digit or a minus sign: what [str(i).zfill(6)] is made of. *)
Definition is_numeral_char (ch : ascii) : bool :=
  (is_digit ch || Ascii.eqb ch "-")%bool.

(** [sample_data(loader)], lines 73-76, as the generator object it
    returns.  [loader e] is what the [e]-th traversal [for batch in
    loader] goes through; the state of the generator is the number of
    the traversal and the position in it.  [sample_data_next] is
    [next(...)]: the batch and the new state, or [None] when [fuel]
    restarts of the [while True] loop did not reach a batch. *)
Fixpoint sample_data_next {B} (loader : nat -> list B) (fuel : nat)
  (e j : nat) : option (B * (nat * nat)) :=
  match nth_error (loader e) j with
  | Some b => Some (b, (e, S j))
  | None =>
      match fuel with
      | O => None
      | S fuel' => sample_data_next loader fuel' (S e) O
      end
  end.

Section MorePredicates.
Context {T : Torch}.

(** The two worlds differ at most in the state of the random
    generators. *)
Definition same_but_rng (w w' : world) : Prop :=
  nets (tw w') = nets (tw w) /\
  training (tw w') = training (tw w) /\
  g_optim (tw w') = g_optim (tw w) /\
  d_optim (tw w') = d_optim (tw w) /\
  loader_pos (tw w') = loader_pos (tw w) /\
  out (tw w') = out (tw w) /\
  loc w' = loc w.

(** Nothing has been learnt or written: the data of every parameter,
    both optimizers and the output are as given. *)
Definition untrained (D : net -> list (string * tensor)) (og od : optimizer)
  (o : list (event act)) (w : world) : Prop :=
  (forall n, data_of (nets (tw w) n) = D n) /\
  g_optim (tw w) = og /\ d_optim (tw w) = od /\ out (tw w) = o.

(** Lines 222-350: a pass through the loop body up to and including
    [g_optim.step()]. *)
Definition train_iter_prefix (c : ctx_t) (i : Z) : M world unit :=
  x <- before_d_step c ;;
  d_backward_step (fst (fst (snd x))) ;;
  g_loss <- between_steps c i x ;;
  g_backward_step g_loss.

End MorePredicates.

Section MoreModel.
Context {T : Torch}.

(** [set_grad_none(model, targets)], lines 135-138 *)
Definition set_grad_none (n : net) (targets : list string) : M world unit :=
  modify (fun w =>
    set_net n
      (map (fun kp =>
              if existsb (String.eqb (fst kp)) targets
              then (fst kp, set_grad None (snd kp)) else kp)
         (nets (tw w) n)) w).

(** What [optimizer.step()] makes of one parameter. *)
Definition stepped (st : adam_state) (id : pid) (p : param) : param :=
  match grad p with
  | Some g => set_data (adam_update st id (data p) g) p
  | None => p
  end.

End MoreModel.

Section StepPredicates.
Context {T : Torch}.

(** The data of the parameters of the generator is [d] and
    [d_optim] holds none of them. *)
Definition generator_data (d : list (string * tensor)) (w : world) : Prop :=
  data_of (nets (tw w) Generator) = d /\
  unregistered Generator (d_optim (tw w)).

End StepPredicates.

Section ShapePredicates.
Context {T : Torch}.

(** The parameter names of every network, in order, and the parameters
    each optimizer holds. *)
Definition shape_is (K : net -> list string) (ig id : list pid) (w : world)
  : Prop :=
  (forall n, keys (nets (tw w) n) = K n) /\
  param_ids (g_optim (tw w)) = ig /\
  param_ids (d_optim (tw w)) = id.

End ShapePredicates.

Section Captions.
Context {T : Torch}.

(** [words_embs, sent_emb] as the text encoder of the given type
    produces them, before [detach]. *)
Definition caption_embeddings (c : ctx_t) (real_img captions cap_lens : act)
  (w : world) : act * act :=
  let te := nets (tw w) TextEncoder in
  let mode := training (tw w) TextEncoder in
  if String.eqb (text_encoder_type c) "rnn"
  then rnn_forward te mode captions cap_lens
         (rnn_init_hidden te (shape0 real_img))
  else let words_embs := transpose12 (gpt2_forward te mode captions) in
       (words_embs, last_slice words_embs).

End Captions.

Section Output.
Context {T : Torch}.

(** What a pass that returns on rank 0 writes for the counter [i], in
    the world [w] it ends in: the description of the progress bar, the
    wandb record, the sample and the checkpoint. *)
Definition description_of (w : world) (e : event act) : Prop :=
  exists ld td tg tr ts,
    l_loss_dict (loc w) = Some ld
    /\ lookup "d" (reduce_loss_dict ld) = Some (PyTensor td)
    /\ lookup "g" (reduce_loss_dict ld) = Some (PyTensor tg)
    /\ lookup "r1" (reduce_loss_dict ld) = Some (PyTensor tr)
    /\ lookup "sent" (reduce_loss_dict ld) = Some (PyTensor ts)
    /\ e = EvSetDescription (item (mean td)) (item (mean tg))
             (item (mean tr)) (item (mean ts)).

Definition wandb_record_of (w : world) (e : event act) : Prop :=
  exists ld td tg tr treal tfake p rt,
    l_loss_dict (loc w) = Some ld
    /\ lookup "d" (reduce_loss_dict ld) = Some (PyTensor td)
    /\ lookup "g" (reduce_loss_dict ld) = Some (PyTensor tg)
    /\ lookup "r1" (reduce_loss_dict ld) = Some (PyTensor tr)
    /\ lookup "real_score" (reduce_loss_dict ld) = Some (PyTensor treal)
    /\ lookup "fake_score" (reduce_loss_dict ld) = Some (PyTensor tfake)
    /\ l_ada_aug_p (loc w) = Some p
    /\ l_r_t_stat (loc w) = Some rt
    /\ e = EvWandbLog (item (mean tg)) (item (mean td)) p rt
             (item (mean tr)) (item (mean treal)) (item (mean tfake)).

(** The sample of lines 423-436 in the world [w]: the image that
    [g_ema], in evaluation mode, makes of the fixed [sample_z] (joined
    with the fixed [sample_sent_emb] when [conditioned]), under the name
    made from the counter, in rows of [int(args.n_sample ** 0.5)]. *)
Definition sample_of (c : ctx_t) (i : Z) (w : world) (e : event act) : Prop :=
  exists z nrow,
    l_sample_z (loc w) = Some z
    /\ training (tw w) GEma = false
    /\ 0 <= a_n_sample (args c)
    /\ int_pow_half (a_n_sample (args c)) = Some nrow
    /\ if conditioned c
       then exists se,
              l_sample_sent_emb (loc w) = Some se
              /\ e = EvSaveImage
                       (generator_forward (nets (tw w) GEma) false [cat1 z se])
                       (sample_path i) nrow
       else e = EvSaveImage (generator_forward (nets (tw w) GEma) false [z])
                  (sample_path i) nrow.

End Output.

Definition is_wandb_record {A} (e : event A) : bool :=
  match e with
  | EvWandbLog _ _ _ _ _ _ _ => true
  | _ => false
  end.

(** *** More runs on the free interpretation *)

(** [g_ema] with a parameter the generator does not have. *)
Definition demo_mismatch : world (T := sym_torch) :=
  mk_world
    (mk_tw (T := sym_torch)
           (fun n => match n with
                     | GEma => [("a", mk_param [2%R] true None);
                                ("b", mk_param [4%R] true None);
                                ("c", mk_param [6%R] true None)]
                     | _ => [("a", mk_param [1%R] true None);
                             ("c", mk_param [3%R] true None)]
                     end)
           (fun _ => true)
           (mk_optimizer (T := sym_torch) [] O)
           (mk_optimizer (T := sym_torch) [] O) O O [])
    no_locals.

(** The demo run with [--g_reg_every 0]. *)
Definition demo_ctx_g0 : ctx_t :=
  mk_ctx (mk_args 2 0 64 0.002 10 16 0 0.9 512 false false 0 0.6 500000 false)
    "rnn" true 0 false 4 1 "text_encoder200.pth".

(** The demo run with a text encoder type that [train] does not know. *)
Definition demo_ctx_bert : ctx_t :=
  mk_ctx demo_args "bert" true 0 false 4 1 "text_encoder200.pth".

(** The free interpretation with checkpoints that hold no averaged
    generator. *)
Definition sym_torch_no_ema : Torch := {|
  act := sym;
  batch := nat;
  rng_state := nat;
  adam_state := nat;
  ada_state := nat;
  tensor_of_float := @tensor_of_float sym_torch;
  neg := @neg sym_torch;
  softplus := @softplus sym_torch;
  mean := @mean sym_torch;
  tsum := @tsum sym_torch;
  add := @add sym_torch;
  scale := @scale sym_torch;
  pow := @pow sym_torch;
  reshape_rows := @reshape_rows sym_torch;
  sum_dim := @sum_dim sym_torch;
  first_row := @first_row sym_torch;
  cat1 := @cat1 sym_torch;
  detach := @detach sym_torch;
  transpose12 := @transpose12 sym_torch;
  last_slice := @last_slice sym_torch;
  shape0 := @shape0 sym_torch;
  full := @full sym_torch;
  arange := @arange sym_torch;
  item := @item sym_torch;
  with_grad := @with_grad sym_torch;
  bce_loss := @bce_loss sym_torch;
  autograd_grad := @autograd_grad sym_torch;
  randn := @randn sym_torch;
  unbind0 := @unbind0 sym_torch;
  random_random := @random_random sym_torch;
  augment := @augment sym_torch;
  loader_batch := @loader_batch sym_torch;
  prepare_data := @prepare_data sym_torch;
  generator_forward := @generator_forward sym_torch;
  discriminator_forward := @discriminator_forward sym_torch;
  rnn_init_hidden := @rnn_init_hidden sym_torch;
  rnn_forward := @rnn_forward sym_torch;
  gpt2_forward := @gpt2_forward sym_torch;
  cnn_forward := @cnn_forward sym_torch;
  sent_loss := @sent_loss sym_torch;
  param_grad := @param_grad sym_torch;
  grad_add := @grad_add sym_torch;
  adam_update := @adam_update sym_torch;
  adam_tick := @adam_tick sym_torch;
  adam_new := @adam_new sym_torch;
  adam_load_state := @adam_load_state sym_torch;
  ada_new := @ada_new sym_torch;
  ada_tune := @ada_tune sym_torch;
  ada_r_t_stat := @ada_r_t_stat sym_torch;
  reduce_loss_dict := @reduce_loss_dict sym_torch;
  torch_load := @torch_load sym_torch;
  torch_load_ckpt := fun _ =>
    [("g", [("weight", [0%R])]); ("d", [("weight", [0%R])]);
     ("g_optim", []); ("d_optim", [])];
  int_pow_half := @int_pow_half sym_torch
|}.

Definition demo_world_no_ema : world (T := sym_torch_no_ema) :=
  mk_world
    (mk_tw (T := sym_torch_no_ema)
           (fun _ => demo_module 1)
           (fun _ => true)
           (mk_optimizer (T := sym_torch_no_ema) [] O)
           (mk_optimizer (T := sym_torch_no_ema) [] O) O O [])
    no_locals.

(** The demo run with [--iter 1]. *)
Definition demo_ctx_one : ctx_t :=
  mk_ctx (mk_args 1 0 64 0.002 10 16 4 0.9 512 false false 0 0.6 500000 false)
    "rnn" true 0 false 4 1 "text_encoder200.pth".

(* ================================================================== *)
(** * Properties *)

(** ** The monad *)

Lemma bind_ok_inv {W A B} (m : M W A) (k : A -> M W B) w b w' :
  bind m k w = (Ok b, w') ->
  exists a w1, m w = (Ok a, w1) /\ k a w1 = (Ok b, w').
Proof.
  unfold bind. destruct (m w) as [[a|e] w1]; intros H.
  - now exists a, w1.
  - discriminate.
Qed.

Lemma bind_run {W A B} (m : M W A) (k : A -> M W B) w a w1 :
  m w = (Ok a, w1) -> bind m k w = k a w1.
Proof. unfold bind. now intros ->. Qed.

Lemma bind_raises {W A B} (m : M W A) (k : A -> M W B) w e w1 :
  m w = (Raise e, w1) -> bind m k w = (Raise e, w1).
Proof. unfold bind. now intros ->. Qed.


Lemma preserves_ret {W A} (I : W -> Prop) (a : A) : preserves I (ret a).
Proof. intros w r w' H E. now inversion E; subst. Qed.

Lemma preserves_raise {W A} (I : W -> Prop) e : preserves I (@raise W A e).
Proof. intros w r w' H E. now inversion E; subst. Qed.

Lemma preserves_gets {W A} (I : W -> Prop) (f : W -> A) : preserves I (gets f).
Proof. intros w r w' H E. now inversion E; subst. Qed.

Lemma preserves_lift {W A} (I : W -> Prop) (o : outcome A) : preserves I (lift o).
Proof. intros w r w' H E. now inversion E; subst. Qed.

Lemma preserves_read_local {W A} (I : W -> Prop) name (v : W -> option A) :
  preserves I (read_local name v).
Proof.
  intros w r w' H E. unfold read_local in E.
  destruct (v w); now inversion E; subst.
Qed.

Lemma preserves_py_mod {W} (I : W -> Prop) a b : preserves I (@py_mod W a b).
Proof.
  unfold py_mod. destruct (b =? 0); [apply preserves_raise | apply preserves_ret].
Qed.

Lemma preserves_modify {W} (I : W -> Prop) (f : W -> W) :
  (forall w, I w -> I (f w)) -> preserves I (modify f).
Proof. intros Hf w r w' H E. inversion E; subst. now apply Hf. Qed.

Lemma preserves_bind {W A B} (I : W -> Prop) (m : M W A) (k : A -> M W B) :
  preserves I m -> (forall a, preserves I (k a)) -> preserves I (bind m k).
Proof.
  intros Hm Hk w r w' H E. unfold bind in E.
  destruct (m w) as [[a|e] w1] eqn:Em.
  - exact (Hk a w1 r w' (Hm _ _ _ H Em) E).
  - inversion E; subst. exact (Hm _ _ _ H Em).
Qed.

Lemma preserves_for_each {W A} (I : W -> Prop) (l : list A) (body : A -> M W unit) :
  (forall a, preserves I (body a)) -> preserves I (for_each l body).
Proof.
  intros Hb. induction l as [|a l IH]; simpl.
  - apply preserves_ret.
  - apply preserves_bind; auto.
Qed.

Lemma preserves_map_m {W A B} (I : W -> Prop) (f : A -> M W B) (l : list A) :
  (forall a, preserves I (f a)) -> preserves I (map_m f l).
Proof.
  intros Hf. induction l as [|a l IH]; simpl.
  - apply preserves_ret.
  - apply preserves_bind; auto. intros b.
    apply preserves_bind; auto. intros bs. apply preserves_ret.
Qed.

Lemma preserves_for_break {W A} (I : W -> Prop) (l : list A) (body : A -> M W bool) :
  (forall a, preserves I (body a)) -> preserves I (for_break l body).
Proof.
  intros Hb. induction l as [|a l IH]; simpl.
  - apply preserves_ret.
  - apply preserves_bind; auto. intros [|]; [apply preserves_ret | exact IH].
Qed.

Lemma preserves_try_except {W A} (I : W -> Prop) (m h : M W A) catches :
  preserves I m -> preserves I h -> preserves I (try_except m catches h).
Proof.
  intros Hm Hh w r w' H E. unfold try_except in E.
  destruct (m w) as [[a|e] w1] eqn:Em.
  - inversion E; subst. exact (Hm _ _ _ H Em).
  - destruct (catches e).
    + exact (Hh _ _ _ (Hm _ _ _ H Em) E).
    + inversion E; subst. exact (Hm _ _ _ H Em).
Qed.

(** ** The loop *)

Lemma for_break_never {W A} (l : list A) (body : A -> M W bool) (step : A -> M W unit) :
  (forall a w, In a l -> body a w = (step a ;; ret false) w) ->
  forall w, for_break l body w = for_each l step w.
Proof.
  induction l as [|a l IH]; intros Hb w; simpl.
  - reflexivity.
  - unfold bind at 1. rewrite Hb by now left.
    unfold bind, ret. destruct (step a w) as [[[]|e] w1]; simpl.
    + apply IH. intros a' w' Hin. apply Hb. now right.
    + reflexivity.
Qed.

Lemma for_break_split {W A} (l1 l2 : list A) (body : A -> M W bool)
  (step : A -> M W unit) (stop : M W unit) :
  (forall a w, In a l1 -> body a w = (step a ;; ret false) w) ->
  (forall a w, hd_error l2 = Some a -> body a w = (stop ;; ret true) w) ->
  forall w,
    for_break (l1 ++ l2) body w =
    (for_each l1 step ;; match l2 with [] => ret tt | _ => stop end) w.
Proof.
  induction l1 as [|a l1 IH]; intros H1 H2 w; simpl.
  - destruct l2 as [|b l2]; simpl; [reflexivity|].
    unfold bind at 1. rewrite (H2 b w eq_refl).
    unfold bind, ret. destruct (stop w) as [[[]|e] w1]; reflexivity.
  - unfold bind at 1. rewrite H1 by now left.
    unfold bind at 1 2 3. unfold ret at 1.
    destruct (step a w) as [[[]|e] w1]; simpl.
    + rewrite IH; auto. intros a' w' Hin. apply H1. now right.
    + reflexivity.
Qed.

Lemma py_range_spec n i : In i (py_range n) <-> 0 <= i < n.
Proof.
  unfold py_range. rewrite in_map_iff. split.
  - intros [k [<- Hk]]. apply in_seq in Hk. lia.
  - intros H. exists (Z.to_nat i). split; [lia|]. apply in_seq. lia.
Qed.

Lemma py_range_length n : 0 <= n -> Z.of_nat (List.length (py_range n)) = n.
Proof.
  intros H. unfold py_range. rewrite length_map, length_seq. lia.
Qed.

Lemma py_range_split n k :
  0 <= k <= n ->
  py_range n = py_range k ++ map Z.of_nat (seq (Z.to_nat k) (Z.to_nat (n - k))).
Proof.
  intros H. unfold py_range.
  replace (Z.to_nat n) with (Z.to_nat k + Z.to_nat (n - k))%nat by lia.
  now rewrite seq_app, map_app.
Qed.

Lemma for_each_map {W A B} (f : A -> B) (l : list A) (body : B -> M W unit) w :
  for_each (map f l) body w = for_each l (fun a => body (f a)) w.
Proof.
  revert w. induction l as [|a l IH]; intros w; simpl; [reflexivity|].
  unfold bind. destruct (body (f a) w) as [[[]|e] w1]; auto.
Qed.

Section Proofs.
Context {T : Torch}.

Lemma loop_pass_continue c step idx w :
  idx + a_start_iter (args c) <= a_iter (args c) ->
  loop_pass c step idx w = (step (idx + a_start_iter (args c)) ;; ret false) w.
Proof.
  intros H. unfold loop_pass.
  destruct (Z.gtb_spec (idx + a_start_iter (args c)) (a_iter (args c))); [lia|].
  reflexivity.
Qed.

Lemma loop_pass_break c step idx w :
  idx + a_start_iter (args c) > a_iter (args c) ->
  loop_pass c step idx w = (print "Done!" ;; ret true) w.
Proof.
  intros H. unfold loop_pass.
  destruct (Z.gtb_spec (idx + a_start_iter (args c)) (a_iter (args c))); [|lia].
  reflexivity.
Qed.

(** C8. The loop runs the body for the counters [i = idx + start_iter],
    [idx] in [range(args.iter)], until the first [i > args.iter], where
    it prints "Done!" and stops.  With [start_iter = 0] the body runs
    exactly for [i = 0 .. args.iter - 1], [args.iter] times; for every
    [start_iter >= 0] the counters of the passes that run the body are
    all at most [args.iter]. *)
Theorem train_loop_counters (c : ctx_t) :
  0 <= a_start_iter (args c) ->
  (a_start_iter (args c) = 0 ->
     (forall step w,
        train_loop c step w = for_each (py_range (a_iter (args c))) step w)
     /\ (forall i, In i (py_range (a_iter (args c))) <-> 0 <= i < a_iter (args c))
     /\ (0 <= a_iter (args c) ->
         Z.of_nat (List.length (py_range (a_iter (args c)))) = a_iter (args c)))
  /\ (exists (l : list Z) (done : bool),
        Forall (fun i => i <= a_iter (args c)) l
        /\ forall step w,
             train_loop c step w =
             (for_each l step ;; if done then print "Done!" else ret tt) w).
Proof.
  intros Hs. split.
  - intros H0. split; [|split].
    + intros step w. unfold train_loop.
      rewrite (for_break_never _ _ (fun idx => step (idx + a_start_iter (args c)))).
      * rewrite H0. clear. generalize (py_range (a_iter (args c))). intros l.
        revert w. induction l as [|a l IH]; intros w; simpl; [reflexivity|].
        rewrite Z.add_0_r. unfold bind. destruct (step a w) as [[[]|e] w1]; auto.
      * intros a w' Hin. apply py_range_spec in Hin.
        apply loop_pass_continue. lia.
    + apply py_range_spec.
    + apply py_range_length.
  - set (n := a_iter (args c)). set (s := a_start_iter (args c)).
    set (k := Z.max 0 (Z.min n (n - s + 1))).
    exists (map (fun idx => idx + s) (py_range k)), (k <? n).
    split.
    + apply Forall_forall. intros i Hi. apply in_map_iff in Hi.
      destruct Hi as [idx [<- Hidx]]. apply py_range_spec in Hidx.
      unfold k in Hidx. lia.
    + intros step w. unfold train_loop. fold n.
      destruct (Z.leb_spec n 0) as [Hn|Hn].
      * assert (Hk : k = 0) by (unfold k; lia).
        rewrite Hk. destruct (Z.ltb_spec 0 n); [lia|].
        unfold py_range. replace (Z.to_nat n) with O by lia. reflexivity.
      * rewrite (py_range_split n k) by (unfold k; lia).
        rewrite (for_break_split _ _ _ (fun idx => step (idx + s)) (print "Done!")).
        -- unfold bind. rewrite for_each_map.
           destruct (for_each (py_range k) (fun a => step (a + s)) w) as [[[]|e] w1];
             [|reflexivity].
           destruct (Z.ltb_spec k n) as [Hlt|Hge].
           ++ replace (Z.to_nat (n - k)) with (S (Z.to_nat (n - k - 1))) by lia.
              reflexivity.
           ++ replace (Z.to_nat (n - k)) with O by lia. reflexivity.
        -- intros a w' Hin. apply py_range_spec in Hin.
           apply loop_pass_continue. fold n s. unfold k in Hin. lia.
        -- intros a w' Hhd. apply loop_pass_break. fold n s.
           destruct (Z.to_nat (n - k)) as [|m] eqn:Em; simpl in Hhd; [discriminate|].
           inversion Hhd; subst a. unfold k in *. lia.
Qed.

(** ** Dictionaries and tensors *)

Lemma lookup_update_same {A} k (f : A -> A) m :
  lookup k (update k f m) = option_map f (lookup k m).
Proof.
  induction m as [|[k' a] m IH]; simpl; [reflexivity|].
  destruct (String.eqb k k') eqn:E; simpl; rewrite E; auto.
Qed.

Lemma lookup_update_other {A} k k' (f : A -> A) m :
  k <> k' -> lookup k' (update k f m) = lookup k' m.
Proof.
  intros Hne. induction m as [|[k0 a] m IH]; simpl; [reflexivity|].
  destruct (String.eqb_spec k k0) as [->|Hk]; simpl.
  - destruct (String.eqb_spec k' k0); [congruence | reflexivity].
  - destruct (String.eqb k' k0); auto.
Qed.

Lemma keys_update {A} k (f : A -> A) m : keys (update k f m) = keys m.
Proof.
  unfold keys. induction m as [|[k' a] m IH]; simpl; [reflexivity|].
  destruct (String.eqb k k'); simpl; congruence.
Qed.

Lemma lookup_in_keys {A} k (m : list (string * A)) :
  In k (keys m) <-> lookup k m <> None.
Proof.
  unfold keys. induction m as [|[k' a] m IH]; simpl.
  - split; [tauto | congruence].
  - destruct (String.eqb_spec k k') as [->|Hne].
    + split; [congruence | auto].
    + rewrite <- IH. split; [intros [?|?]; [congruence | assumption] | auto].
Qed.

Lemma zip_with_mul_add decay t1 t2 :
  zip_with (fun x y => (x + (1 - decay) * y)%R) (mul_ t1 decay) t2
  = ema_data decay t1 t2.
Proof.
  unfold ema_data, mul_. revert t2.
  induction t1 as [|a t1 IH]; intros [|b t2]; simpl; try reflexivity.
  f_equal; [ring | apply IH].
Qed.

Lemma ema_data_zero t1 t2 :
  List.length t1 = List.length t2 -> ema_data 0 t1 t2 = t2.
Proof.
  unfold ema_data. revert t2.
  induction t1 as [|a t1 IH]; intros [|b t2] H; simpl in *; try discriminate;
    try reflexivity.
  f_equal; [ring | apply IH; congruence].
Qed.

Lemma length_mul_ t c : List.length (mul_ t c) = List.length t.
Proof. apply length_map. Qed.

(** ** [accumulate] *)

Lemma net_eqb_refl a : net_eqb a a = true.
Proof. now destruct a. Qed.

Lemma net_eqb_spec' a b : {net_eqb a b = true /\ a = b} + {net_eqb a b = false /\ a <> b}.
Proof. destruct a, b; simpl; (left; split; [reflexivity | congruence]) || (right; split; [reflexivity | congruence]). Qed.

Lemma nets_set_net_same n m (w : world) : nets (tw (set_net n m w)) n = m.
Proof. simpl. now rewrite net_eqb_refl. Qed.

Lemma net_eqb_false a b : a <> b -> net_eqb a b = false.
Proof. destruct a, b; simpl; congruence. Qed.

Lemma net_eqb_true_eq a b : net_eqb a b = true -> a = b.
Proof. destruct a, b; simpl; congruence. Qed.

Lemma nets_set_net_other n n' m (w : world) :
  n' <> n -> nets (tw (set_net n m w)) n' = nets (tw w) n'.
Proof. intros H. simpl. now rewrite net_eqb_false. Qed.

(** One key of [accumulate], when both parameters exist with the same
    size. *)
Lemma accumulate_key_ok model1 model2 decay k (w : world) p1 p2 :
  model1 <> model2 ->
  lookup k (nets (tw w) model1) = Some p1 ->
  lookup k (nets (tw w) model2) = Some p2 ->
  List.length (data p1) = List.length (data p2) ->
  exists w',
    accumulate_key model1 model2 decay k w = (Ok tt, w')
    /\ same_but_nets w w'
    /\ (forall n, n <> model1 -> nets (tw w') n = nets (tw w) n)
    /\ keys (nets (tw w') model1) = keys (nets (tw w) model1)
    /\ lookup k (nets (tw w') model1)
       = Some (set_data (ema_data decay (data p1) (data p2)) p1)
    /\ (forall k', k' <> k ->
          lookup k' (nets (tw w') model1) = lookup k' (nets (tw w) model1)).
Proof.
  intros Hne H1 H2 Hlen.
  unfold accumulate_key, get_param, put_data, modify, bind.
  rewrite H1. rewrite nets_set_net_other by congruence. rewrite H2.
  rewrite nets_set_net_same, lookup_update_same, H1. simpl option_map. cbv iota beta.
  unfold add_. cbn [data set_data]. rewrite length_mul_, Hlen, Nat.eqb_refl.
  eexists. split; [reflexivity|].
  split; [repeat split|]. split; [|split; [|split]].
  - intros n Hn. rewrite !nets_set_net_other by assumption. reflexivity.
  - rewrite !nets_set_net_same, !keys_update. reflexivity.
  - rewrite !nets_set_net_same, !lookup_update_same, H1. simpl.
    rewrite zip_with_mul_add. reflexivity.
  - intros k' Hk'. rewrite !nets_set_net_same.
    rewrite !lookup_update_other by congruence. reflexivity.
Qed.

(** One key of [accumulate] returns only in that case. *)
Lemma accumulate_key_ok_inv model1 model2 decay k (w w' : world) :
  model1 <> model2 ->
  accumulate_key model1 model2 decay k w = (Ok tt, w') ->
  exists p1 p2,
    lookup k (nets (tw w) model1) = Some p1
    /\ lookup k (nets (tw w) model2) = Some p2
    /\ List.length (data p1) = List.length (data p2).
Proof.
  intros Hne.
  unfold accumulate_key, get_param, put_data, modify, bind.
  destruct (lookup k (nets (tw w) model1)) as [p1|] eqn:H1; [|discriminate].
  rewrite nets_set_net_other by congruence.
  destruct (lookup k (nets (tw w) model2)) as [p2|] eqn:H2; [|discriminate].
  rewrite nets_set_net_same, lookup_update_same, H1. simpl option_map. cbv iota beta.
  unfold add_. cbn [data set_data]. rewrite length_mul_.
  destruct (Nat.eqb_spec (List.length (data p1)) (List.length (data p2))) as [E|E];
    [|discriminate].
  intros _. now exists p1, p2.
Qed.

Lemma accumulate_keys_ok model1 model2 decay ks :
  model1 <> model2 -> NoDup ks ->
  forall w : world,
    (forall k, In k ks ->
       exists p1 p2,
         lookup k (nets (tw w) model1) = Some p1
         /\ lookup k (nets (tw w) model2) = Some p2
         /\ List.length (data p1) = List.length (data p2)) ->
    exists w',
      for_each ks (accumulate_key model1 model2 decay) w = (Ok tt, w')
      /\ same_but_nets w w'
      /\ (forall n, n <> model1 -> nets (tw w') n = nets (tw w) n)
      /\ keys (nets (tw w') model1) = keys (nets (tw w) model1)
      /\ (forall k p1 p2, In k ks ->
            lookup k (nets (tw w) model1) = Some p1 ->
            lookup k (nets (tw w) model2) = Some p2 ->
            lookup k (nets (tw w') model1)
            = Some (set_data (ema_data decay (data p1) (data p2)) p1))
      /\ (forall k, ~ In k ks ->
            lookup k (nets (tw w') model1) = lookup k (nets (tw w) model1)).
Proof.
  intros Hne Hnd. induction Hnd as [|k ks Hk Hnd IH]; intros w Hall.
  - exists w. simpl. repeat split; auto. intros k p1 p2 [].
  - destruct (Hall k (or_introl eq_refl)) as [p1 [p2 [H1 [H2 Hlen]]]].
    destruct (accumulate_key_ok model1 model2 decay k w p1 p2 Hne H1 H2 Hlen)
      as [w1 [E1 [F1 [N1 [K1 [L1 O1]]]]]].
    destruct (IH w1) as [w2 [E2 [F2 [N2 [K2 [L2 O2]]]]]].
    { intros k' Hk'. destruct (Hall k' (or_intror Hk')) as [q1 [q2 [Q1 [Q2 Ql]]]].
      exists q1, q2. rewrite O1 by (intros ->; contradiction).
      rewrite N1 by congruence. auto. }
    exists w2. simpl. rewrite (bind_run _ _ _ _ _ E1). split; [exact E2|].
    split; [|split; [|split; [|split]]].
    + unfold same_but_nets in *. intuition congruence.
    + intros n Hn. rewrite N2, N1; auto.
    + congruence.
    + intros k' q1 q2 [<-|Hin] Q1 Q2.
      * rewrite O2 by assumption. rewrite L1. congruence.
      * apply L2; auto.
        -- rewrite O1 by (intros ->; contradiction). exact Q1.
        -- rewrite N1 by congruence. exact Q2.
    + intros k' Hk'. rewrite O2 by (intros Hin; apply Hk'; now right).
      apply O1. intros ->. apply Hk'. now left.
Qed.

Lemma accumulate_keys_ok_inv model1 model2 decay ks :
  model1 <> model2 -> NoDup ks ->
  forall w w' : world,
    for_each ks (accumulate_key model1 model2 decay) w = (Ok tt, w') ->
    forall k, In k ks ->
      exists p1 p2,
        lookup k (nets (tw w) model1) = Some p1
        /\ lookup k (nets (tw w) model2) = Some p2
        /\ List.length (data p1) = List.length (data p2).
Proof.
  intros Hne Hnd. induction Hnd as [|k ks Hk Hnd IH]; intros w w' E k' Hin.
  - destruct Hin.
  - simpl in E. apply bind_ok_inv in E. destruct E as [[] [w1 [E1 E2]]].
    destruct (accumulate_key_ok_inv _ _ _ _ _ _ Hne E1) as [p1 [p2 [H1 [H2 Hlen]]]].
    destruct Hin as [<-|Hin]; [now exists p1, p2|].
    destruct (accumulate_key_ok model1 model2 decay k w p1 p2 Hne H1 H2 Hlen)
      as [w1' [E1' [_ [N1 [_ [_ O1]]]]]].
    assert (w1' = w1) by congruence. subst w1'.
    destruct (IH _ _ E2 k' Hin) as [q1 [q2 [Q1 [Q2 Ql]]]].
    exists q1, q2. rewrite O1 in Q1 by (intros ->; contradiction).
    rewrite N1 in Q2 by congruence. auto.
Qed.

(** ** Gradients and optimizer steps *)

Lemma backward_param_fst loss n kp : fst (backward_param loss n kp) = fst kp.
Proof.
  unfold backward_param. destruct (requires_grad_flag (snd kp)); auto.
  destruct (param_grad loss (n, fst kp)); auto.
Qed.

Lemma backward_param_data loss n kp :
  data (snd (backward_param loss n kp)) = data (snd kp).
Proof.
  unfold backward_param. destruct (requires_grad_flag (snd kp)); auto.
  destruct (param_grad loss (n, fst kp)); auto.
Qed.

Lemma backward_param_flag loss n kp :
  requires_grad_flag (snd (backward_param loss n kp)) = requires_grad_flag (snd kp).
Proof.
  unfold backward_param. destruct (requires_grad_flag (snd kp)) eqn:E; auto.
  destruct (param_grad loss (n, fst kp)); auto.
Qed.

Lemma backward_frozen loss n m :
  all_flags false m -> map (backward_param loss n) m = m.
Proof.
  induction 1 as [|kp m Hkp Hm IH]; simpl; [reflexivity|].
  rewrite IH. unfold backward_param. now rewrite Hkp.
Qed.

Lemma backward_flags loss n b m :
  all_flags b m -> all_flags b (map (backward_param loss n) m).
Proof.
  unfold all_flags. intros H. apply Forall_map. revert H. apply Forall_impl.
  intros kp. now rewrite backward_param_flag.
Qed.

Lemma backward_data_of loss n m :
  data_of (map (backward_param loss n) m) = data_of m.
Proof.
  unfold data_of. rewrite map_map. apply map_ext. intros kp.
  now rewrite backward_param_fst, backward_param_data.
Qed.

Lemma update_flags {b} k t m :
  all_flags b m -> all_flags b (update k (set_data t) m).
Proof.
  induction 1 as [|[k' p] m Hp Hm IH]; simpl; [constructor|].
  destruct (String.eqb k k'); constructor; auto.
Qed.

Lemma step_param_other st ns id n :
  fst id <> n -> step_param st ns id n = ns n.
Proof.
  intros H. unfold step_param.
  destruct (lookup (snd id) (ns (fst id))) as [p|]; auto.
  destruct (grad p); auto. rewrite net_eqb_false; congruence.
Qed.

Lemma step_param_flags st ns id b n :
  all_flags b (ns n) -> all_flags b (step_param st ns id n).
Proof.
  intros H. unfold step_param.
  destruct (lookup (snd id) (ns (fst id))) as [p|]; auto.
  destruct (grad p); auto.
  destruct (net_eqb_spec' n (fst id)) as [[-> ->]|[-> Hne]]; auto.
  now apply update_flags.
Qed.

Lemma optim_step_other (o : optimizer) ns n :
  unregistered n o -> fst (optim_step o ns) n = ns n.
Proof.
  unfold unregistered, optim_step. simpl. generalize (ostate o). intros st.
  revert ns. induction (param_ids o) as [|id ids IH]; intros ns H; simpl; auto.
  rewrite IH by (intros id' Hin; apply H; now right).
  apply step_param_other. apply H. now left.
Qed.

Lemma optim_step_flags (o : optimizer) ns b n :
  all_flags b (ns n) -> all_flags b (fst (optim_step o ns) n).
Proof.
  unfold optim_step. simpl. generalize (ostate o). intros st.
  revert ns. induction (param_ids o) as [|id ids IH]; intros ns H; simpl; auto.
  apply IH. now apply step_param_flags.
Qed.

Lemma optim_step_only (o : optimizer) ns n n' :
  registered_in n o -> n' <> n -> fst (optim_step o ns) n' = ns n'.
Proof.
  intros H Hne. apply optim_step_other. intros id Hin E.
  rewrite (H id Hin) in E. congruence.
Qed.

(** ** Invariants of the world, block by block *)

Lemma preserves_draw {A} (I : world -> Prop) (f : rng_state -> A * rng_state) :
  (forall w r, I w -> I (upd_tw (set_rng r) w)) -> preserves I (draw f).
Proof.
  intros H w r w' Hw E. unfold draw in E.
  destruct (f (rng (tw w))) as [a r0]. inversion E; subst. now apply H.
Qed.

Lemma preserves_next_batch (I : world -> Prop) :
  (forall w n, I w -> I (upd_tw (set_loader_pos n) w)) -> preserves I next_batch.
Proof.
  intros H w r w' Hw E. unfold next_batch in E. inversion E; subst.
  exact (H w (S (loader_pos (tw w))) Hw).
Qed.

Lemma preserves_get_param (I : world -> Prop) n k : preserves I (get_param n k).
Proof.
  intros w r w' H E. unfold get_param in E.
  destruct (lookup k (nets (tw w) n)); now inversion E; subst.
Qed.

Create HintDb pres discriminated.

Ltac head_of t :=
  lazymatch t with
  | ?f _ => head_of f
  | _ => t
  end.

(** Walks through a block; [solver] closes the obligations left by the
    assignments to the world. *)
Ltac pres_step solver :=
  cbv beta zeta;
  lazymatch goal with
  | |- preserves _ (bind _ _) => apply preserves_bind; [|intro]
  | |- preserves _ (ret _) => apply preserves_ret
  | |- preserves _ (raise _) => apply preserves_raise
  | |- preserves _ (gets _) => apply preserves_gets
  | |- preserves _ (lift _) => apply preserves_lift
  | |- preserves _ (read_local _ _) => apply preserves_read_local
  | |- preserves _ (py_mod _ _) => apply preserves_py_mod
  | |- preserves _ (get_param _ _) => apply preserves_get_param
  | |- preserves _ (for_each _ _) => apply preserves_for_each; intro
  | |- preserves _ (map_m _ _) => apply preserves_map_m; intro
  | |- preserves _ (for_break _ _) => apply preserves_for_break; intro
  | |- preserves _ (try_except _ _ _) => apply preserves_try_except
  | |- preserves _ (draw _) => apply preserves_draw; solver
  | |- preserves _ next_batch => apply preserves_next_batch; solver
  | |- preserves _ (modify _) => apply preserves_modify; solver
  | |- preserves _ (if ?b then _ else _) => destruct b eqn:?
  | |- preserves _ (match ?x with _ => _ end) => destruct x
  | |- preserves _ ?m =>
      first [ solve [auto with pres]
            | let h := head_of m in unfold h ]
  end.

Ltac pres solver := repeat (pres_step solver).

(** *** A frozen network that no optimizer holds stays as it is *)

Ltac frozen_solver :=
  let w := fresh "w" in
  intros w; intros;
  match goal with
  | H : frozen_net _ _ _ w |- _ =>
      destruct H as [? [? [? [? ?]]]]; repeat split; auto
  end.

Lemma frozen_backward n m b loss :
  preserves (frozen_net n m b) (backward loss).
Proof.
  apply preserves_modify. intros w [H1 [H2 [H3 [H4 H5]]]].
  repeat split; auto. cbn. rewrite H1. now apply backward_frozen.
Qed.

Lemma frozen_d_optim_step n m b : preserves (frozen_net n m b) d_optim_step.
Proof.
  apply preserves_modify. intros w [H1 [H2 [H3 [H4 H5]]]].
  repeat split; auto. cbn -[optim_step]. rewrite optim_step_other; auto.
Qed.

Lemma frozen_g_optim_step n m b : preserves (frozen_net n m b) g_optim_step.
Proof.
  apply preserves_modify. intros w [H1 [H2 [H3 [H4 H5]]]].
  repeat split; auto. cbn -[optim_step]. rewrite optim_step_other; auto.
Qed.

#[local] Hint Resolve frozen_backward frozen_d_optim_step frozen_g_optim_step : pres.

Lemma frozen_train_iter n m b c i :
  n = TextEncoder \/ n = ImageEncoder ->
  preserves (frozen_net n m b) (train_iter c i).
Proof.
  intros [-> | ->]; pres frozen_solver.
Qed.

Lemma frozen_train n m b c :
  n = TextEncoder \/ n = ImageEncoder ->
  preserves (frozen_net n m b) (train c).
Proof.
  intros [-> | ->]; pres frozen_solver.
Qed.

Lemma bind_modify {A} (f : world -> world) (k : unit -> M world A) w :
  bind (modify f) k w = k tt (f w).
Proof. reflexivity. Qed.

Lemma all_flags_set_flag b (m : module) :
  all_flags b (map (fun kp => (fst kp, set_flag b (snd kp))) m).
Proof. unfold all_flags. apply Forall_map. now apply Forall_forall. Qed.

(** Splits a run that returned into the runs of its statements. *)
Ltac ok_inv H :=
  repeat
    match type of H with
    | bind _ _ _ = (Ok _, _) =>
        let a := fresh "a" in
        let w := fresh "w" in
        let E := fresh "E" in
        apply bind_ok_inv in H; destruct H as [a [w [E H]]];
        lazymatch type of a with
        | unit => destruct a
        | _ => idtac
        end
    end.

Lemma load_state_dict_nets n sd (w : world) r w' :
  load_state_dict n sd w = (r, w') ->
  w' = set_net n (map (load_param sd) (nets (tw w) n)) w.
Proof.
  unfold load_state_dict, bind, gets, modify.
  destruct (state_dict_fits sd (nets (tw w) n)); intros E; now inversion E.
Qed.

(** What lines 642-660 establish. *)
Lemma setup_encoders_post c (w w' : world) :
  setup_encoders c w = (Ok tt, w') -> encoders_ready w'.
Proof.
  intros H. unfold setup_encoders in H. cbv zeta in H. ok_inv H.
  apply load_state_dict_nets in E, E3.
  unfold requires_grad, print, emit, eval_mode, modify in *.
  inversion E0; inversion E1; inversion E2; inversion E4; inversion E5;
    inversion H; subst; clear.
  unfold encoders_ready. cbn. repeat split; apply all_flags_set_flag.
Qed.

Ltac ready_solver :=
  let w := fresh "w" in
  intros w; intros;
  match goal with
  | H : encoders_ready w |- _ =>
      destruct H as [? [? [? ?]]]; repeat split; cbn -[optim_step]; auto
  end.

Ltac wf_solver :=
  let w := fresh "w" in
  intros w; intros;
  match goal with
  | H : optims_wf w |- _ => destruct H as [? ?]; split; cbn; auto
  end.

Lemma ready_setup_optimizers c : preserves encoders_ready (setup_optimizers c).
Proof. pres ready_solver. Qed.

Lemma ready_resume c ckpt : preserves encoders_ready (resume c ckpt).
Proof. pres ready_solver. Qed.

Lemma wf_resume c ckpt : preserves optims_wf (resume c ckpt).
Proof. pres wf_solver. Qed.

Lemma registered_adam_of n st (w : world) : registered_in n (adam_of n st w).
Proof.
  intros id Hin. unfold adam_of in Hin. simpl in Hin.
  apply in_map_iff in Hin. destruct Hin as [k [<- _]]. reflexivity.
Qed.

(** What lines 664-676 establish. *)
Lemma setup_optimizers_post c (w w' : world) :
  setup_optimizers c w = (Ok tt, w') -> optims_wf w'.
Proof.
  intros H. unfold setup_optimizers in H. cbv zeta in H. ok_inv H.
  unfold modify in *. inversion E1; inversion H; subst.
  split; cbn; apply registered_adam_of.
Qed.

Lemma registered_unregistered n n' (o : optimizer) :
  registered_in n o -> n' <> n -> unregistered n' o.
Proof. intros H Hne id Hin E. rewrite (H id Hin) in E. congruence. Qed.

(** What the [__main__] block establishes before it calls [train]. *)
Lemma main_setup_post c ckpt (w w' : world) c' :
  main_setup c ckpt w = (Ok c', w') -> encoders_ready w' /\ optims_wf w'.
Proof.
  intros H. unfold main_setup in H. cbv zeta in H. ok_inv H.
  apply setup_encoders_post in E1.
  pose proof (ready_setup_optimizers _ _ _ _ E1 E2) as R2.
  apply setup_optimizers_post in E2.
  split.
  - exact (ready_resume _ _ _ _ _ R2 H).
  - exact (wf_resume _ _ _ _ _ E2 H).
Qed.

(** C10. After the setup of the [__main__] block every parameter of the
    text encoder and of the image encoder has [requires_grad] false,
    both encoders are in evaluation mode, and no parameter of either is
    held by [g_optim] or [d_optim].  From such a world on, a pass
    through the loop body, however it ends, leaves the parameters and
    the mode of both encoders as they are, and so does the whole run
    of [train]. *)
Theorem encoders_untouched c ckpt (w w1 : world) c1 :
  main_setup c ckpt w = (Ok c1, w1) ->
  exists mt mi,
    (frozen_net TextEncoder mt false w1 /\ frozen_net ImageEncoder mi false w1)
    /\ (forall c2 i wa r wb,
          frozen_net TextEncoder mt false wa ->
          frozen_net ImageEncoder mi false wa ->
          train_iter c2 i wa = (r, wb) ->
          frozen_net TextEncoder mt false wb
          /\ frozen_net ImageEncoder mi false wb)
    /\ (forall r w2,
          train c1 w1 = (r, w2) ->
          nets (tw w2) TextEncoder = mt /\ nets (tw w2) ImageEncoder = mi
          /\ training (tw w2) TextEncoder = false
          /\ training (tw w2) ImageEncoder = false).
Proof.
  intros H. apply main_setup_post in H. destruct H as [[F1 [F2 [M1 M2]]] [G D]].
  exists (nets (tw w1) TextEncoder), (nets (tw w1) ImageEncoder).
  assert (Ht : frozen_net TextEncoder (nets (tw w1) TextEncoder) false w1).
  { repeat split; auto; eapply registered_unregistered; eauto; discriminate. }
  assert (Hi : frozen_net ImageEncoder (nets (tw w1) ImageEncoder) false w1).
  { repeat split; auto; eapply registered_unregistered; eauto; discriminate. }
  split; [now split|]. split.
  - intros c2 i wa r wb Ha Hb E. split.
    + eapply frozen_train_iter; eauto.
    + eapply frozen_train_iter; eauto.
  - intros r w2 E.
    pose proof (frozen_train _ _ _ c1 (or_introl eq_refl) _ _ _ Ht E) as [A [B _]].
    pose proof (frozen_train _ _ _ c1 (or_intror eq_refl) _ _ _ Hi E) as [A' [B' _]].
    auto.
Qed.

(** *** The [requires_grad] flags between two calls of [requires_grad] *)

Lemma all_flags_set_grad b g (m : module) :
  all_flags b m -> all_flags b (map (fun kp => (fst kp, set_grad g (snd kp))) m).
Proof.
  unfold all_flags. intros H. apply Forall_map. revert H. apply Forall_impl.
  intros kp. simpl. auto.
Qed.

Ltac flags_solver :=
  let w := fresh "w" in
  intros w; intros;
  match goal with
  | H : flags_are _ _ w |- _ =>
      destruct H as [? ?]; split; cbn -[optim_step];
      auto using all_flags_set_grad, backward_flags, optim_step_flags
  end.

Lemma flags_backward bg bd loss : preserves (flags_are bg bd) (backward loss).
Proof. apply preserves_modify. flags_solver. Qed.

Lemma flags_d_optim_step bg bd : preserves (flags_are bg bd) d_optim_step.
Proof. apply preserves_modify. flags_solver. Qed.

Lemma flags_g_optim_step bg bd : preserves (flags_are bg bd) g_optim_step.
Proof. apply preserves_modify. flags_solver. Qed.

#[local] Hint Resolve flags_backward flags_d_optim_step flags_g_optim_step : pres.

Lemma flags_d_backward_step bg bd d :
  preserves (flags_are bg bd) (d_backward_step d).
Proof. pres flags_solver. Qed.

Lemma flags_g_backward_step bg bd g :
  preserves (flags_are bg bd) (g_backward_step g).
Proof. pres flags_solver. Qed.

Lemma flags_ada_tune_block bg bd c p :
  preserves (flags_are bg bd) (ada_tune_block c p).
Proof. pres flags_solver. Qed.

Lemma flags_d_regularize_block bg bd c i x :
  preserves (flags_are bg bd) (d_regularize_block c i x).
Proof. pres flags_solver. Qed.

(** However [d_forward] ends, it leaves the generator without and the
    discriminator with gradient flags. *)
Lemma d_forward_flags c x (w : world) r w' :
  d_forward c x w = (r, w') -> flags_are false true w'.
Proof.
  intros E. unfold d_forward in E. unfold requires_grad at 1 2 in E.
  rewrite bind_modify in E. cbv beta in E. rewrite bind_modify in E. cbv beta in E.
  match type of E with
  | ?m ?w0 = _ =>
      assert (P : preserves (flags_are false true) m) by (pres flags_solver);
      apply (P w0 r w'); [|exact E]
  end.
  split; cbn; apply all_flags_set_flag.
Qed.

(** However [g_forward] ends, it leaves the generator with and the
    discriminator without gradient flags. *)
Lemma g_forward_flags c x ml ids (w : world) r w' :
  g_forward c x ml ids w = (r, w') -> flags_are true false w'.
Proof.
  intros E. unfold g_forward in E. unfold requires_grad at 1 2 in E.
  rewrite bind_modify in E. cbv beta in E. rewrite bind_modify in E. cbv beta in E.
  match type of E with
  | ?m ?w0 = _ =>
      assert (P : preserves (flags_are true false) m) by (pres flags_solver);
      apply (P w0 r w'); [|exact E]
  end.
  split; cbn; apply all_flags_set_flag.
Qed.

(** *** The optimizers keep their parameter lists *)

Lemma wf_train_iter c i : preserves optims_wf (train_iter c i).
Proof. pres wf_solver. Qed.

Lemma wf_before_d_step c : preserves optims_wf (before_d_step c).
Proof. pres wf_solver. Qed.

Lemma wf_d_backward_step d : preserves optims_wf (d_backward_step d).
Proof. pres wf_solver. Qed.

Lemma wf_between_steps c i x : preserves optims_wf (between_steps c i x).
Proof. pres wf_solver. Qed.

(** *** What one optimizer step can change *)

Lemma backward_step_frame (w : world) loss :
  let w1 := upd_tw (fun t =>
              set_nets (fun n => map (backward_param loss n) (nets t n)) t) w in
  (forall n, data_of (nets (tw w1) n) = data_of (nets (tw w) n))
  /\ (forall n, all_flags false (nets (tw w) n) -> nets (tw w1) n = nets (tw w) n).
Proof.
  cbn. split; intros n; [apply backward_data_of | apply backward_frozen].
Qed.

Lemma d_backward_step_frame d (w w' : world) :
  optims_wf w ->
  d_backward_step d w = (Ok tt, w') ->
  (forall n, n <> Discriminator ->
     data_of (nets (tw w') n) = data_of (nets (tw w) n))
  /\ (forall n, n <> Discriminator -> all_flags false (nets (tw w) n) ->
        nets (tw w') n = nets (tw w) n).
Proof.
  intros [_ Hd] E. destruct d as [z|loss]; [discriminate|].
  unfold d_backward_step, py_backward, backward, d_optim_step, bind, modify in E.
  injection E as <-. cbn -[data_of].
  split; intros n Hn;
    pose proof (optim_step_only (d_optim (tw w))
                  (fun n0 => map (backward_param loss n0) (nets (tw w) n0))
                  Discriminator n Hd Hn) as R;
    unfold optim_step in R; cbn [fst] in R; rewrite R.
  - apply backward_data_of.
  - apply backward_frozen.
Qed.

Lemma g_backward_step_frame g (w w' : world) :
  optims_wf w ->
  g_backward_step g w = (Ok tt, w') ->
  (forall n, n <> Generator ->
     data_of (nets (tw w') n) = data_of (nets (tw w) n))
  /\ (forall n, n <> Generator -> all_flags false (nets (tw w) n) ->
        nets (tw w') n = nets (tw w) n).
Proof.
  intros [Hg _] E.
  unfold g_backward_step, backward, g_optim_step, bind, modify in E.
  injection E as <-. cbn -[data_of].
  split; intros n Hn;
    pose proof (optim_step_only (g_optim (tw w))
                  (fun n0 => map (backward_param g n0) (nets (tw w) n0))
                  Generator n Hg Hn) as R;
    unfold optim_step in R; cbn [fst] in R; rewrite R.
  - apply backward_data_of.
  - apply backward_frozen.
Qed.

Lemma train_iter_ok_inv c i (w w' : world) :
  train_iter c i w = (Ok tt, w') ->
  exists x w1 w2 g w3 w4,
    before_d_step c w = (Ok x, w1)
    /\ d_backward_step (fst (fst (snd x))) w1 = (Ok tt, w2)
    /\ between_steps c i x w2 = (Ok g, w3)
    /\ g_backward_step g w3 = (Ok tt, w4)
    /\ after_g_step c i w4 = (Ok tt, w').
Proof.
  intros H. unfold train_iter in H. ok_inv H.
  do 6 eexists. repeat (split; [eassumption|]). eassumption.
Qed.

Lemma before_d_step_flags c (w : world) x w1 :
  before_d_step c w = (Ok x, w1) -> flags_are false true w1.
Proof.
  intros H. unfold before_d_step in H. cbv zeta in H. ok_inv H.
  inversion H; subst. eapply d_forward_flags; eauto.
Qed.

Lemma between_steps_flags c i x (w : world) g w3 :
  between_steps c i x w = (Ok g, w3) -> flags_are true false w3.
Proof.
  intros H. unfold between_steps in H. cbv zeta in H. ok_inv H.
  eapply g_forward_flags; eauto.
Qed.

(** C5. In a pass through the loop body, [d_loss.backward();
    d_optim.step()] starts in a world where every generator parameter
    has [requires_grad] false and every discriminator parameter has it
    true, and ends in such a world; it leaves the generator parameters
    as they are and changes the data of no parameter outside the
    discriminator.  [g_loss.backward(); g_optim.step()] starts and ends
    with the two flags reversed, leaves the discriminator parameters as
    they are and changes the data of no parameter outside the
    generator.  A pass that returns consists of these steps, in this
    order. *)
Theorem alternating_updates c i (w : world) :
  optims_wf w ->
  (forall x w1,
     before_d_step c w = (Ok x, w1) ->
     flags_are false true w1
     /\ forall w2,
          d_backward_step (fst (fst (snd x))) w1 = (Ok tt, w2) ->
          flags_are false true w2
          /\ nets (tw w2) Generator = nets (tw w1) Generator
          /\ (forall n, n <> Discriminator ->
                data_of (nets (tw w2) n) = data_of (nets (tw w1) n))
          /\ forall g w3,
               between_steps c i x w2 = (Ok g, w3) ->
               flags_are true false w3
               /\ forall w4,
                    g_backward_step g w3 = (Ok tt, w4) ->
                    flags_are true false w4
                    /\ nets (tw w4) Discriminator = nets (tw w3) Discriminator
                    /\ (forall n, n <> Generator ->
                          data_of (nets (tw w4) n) = data_of (nets (tw w3) n)))
  /\ (forall w',
        train_iter c i w = (Ok tt, w') ->
        exists x w1 w2 g w3 w4,
          before_d_step c w = (Ok x, w1)
          /\ d_backward_step (fst (fst (snd x))) w1 = (Ok tt, w2)
          /\ between_steps c i x w2 = (Ok g, w3)
          /\ g_backward_step g w3 = (Ok tt, w4)
          /\ after_g_step c i w4 = (Ok tt, w')).
Proof.
  intros Hwf. split; [|apply train_iter_ok_inv].
  intros x w1 E1.
  pose proof (before_d_step_flags _ _ _ _ E1) as F1.
  pose proof (wf_before_d_step _ _ _ _ Hwf E1) as W1.
  split; [exact F1|]. intros w2 E2.
  pose proof (flags_d_backward_step _ _ _ _ _ _ F1 E2) as F2.
  pose proof (wf_d_backward_step _ _ _ _ W1 E2) as W2.
  destruct (d_backward_step_frame _ _ _ W1 E2) as [D2 N2].
  split; [exact F2|]. split; [|split; [exact D2|]].
  { apply N2; [discriminate | apply F1]. }
  intros g w3 E3.
  pose proof (between_steps_flags _ _ _ _ _ _ E3) as F3.
  pose proof (wf_between_steps _ _ _ _ _ _ W2 E3) as W3.
  split; [exact F3|]. intros w4 E4.
  pose proof (flags_g_backward_step _ _ _ _ _ _ F3 E4) as F4.
  destruct (g_backward_step_frame _ _ _ W3 E4) as [D4 N4].
  split; [exact F4|]. split; [|exact D4].
  apply N4; [discriminate | apply F3].
Qed.

(** ** Running without caption conditioning *)

(** Evaluates a block on a symbolic world: reduces, then splits on the
    random draw or the test that blocks the reduction. *)
Ltac run_case :=
  match goal with
  | |- context [randn ?s ?r] => destruct (randn s r)
  | |- context [random_random ?r] => destruct (random_random r)
  | |- context [augment ?x ?p ?r] => destruct (augment x p r)
  | |- context [Rlt_dec ?x ?y] => destruct (Rlt_dec x y)
  | |- context [Rgt_dec ?x ?y] => destruct (Rgt_dec x y)
  | |- context [Req_dec_T ?x ?y] => destruct (Req_dec_T x y)
  | |- context [a_augment ?a] => destruct (a_augment a)
  | H : ?x = _ |- context [match ?x with _ => _ end] => rewrite H
  end.

Ltac run_cases :=
  repeat (cbn -[Rlt_dec Rgt_dec Req_dec_T]; run_case).

Lemma train_iter_unconditioned c i (w : world) p :
  conditioned c = false ->
  l_sent_emb (loc w) = None ->
  l_ada_aug_p (loc w) = Some p ->
  exists w', train_iter c i w = (Raise (UnboundLocalError "sent_emb"), w').
Proof.
  destruct c as [a ty cond rk wi bs lam ne]. simpl. intros -> Hs Hp.
  unfold train_iter, before_d_step, fetch_batch, encode_captions, d_forward,
    conditioned_noise, mixing_noise, make_noise_n, make_noise_1, run_generator,
    run_discriminator, run_augment, sent_emb_local, ada_aug_p_local, read_local,
    next_batch, requires_grad, draw, bind, ret, gets, modify.
  run_cases; eexists; reflexivity.
Qed.

Lemma train_prologue_unconditioned c (w : world) :
  conditioned c = false ->
  exists w1 p,
    (modify (upd_loc (fun _ => no_locals)) ;; train_prologue c) w = (Ok tt, w1)
    /\ l_sent_emb (loc w1) = None
    /\ l_ada_aug_p (loc w1) = Some p.
Proof.
  destruct c as [a ty cond rk wi bs lam ne]. simpl. intros ->.
  unfold train_prologue, sample_inputs, assign, next_batch, draw, bind, ret,
    gets, modify.
  run_cases; do 2 eexists; repeat split.
Qed.

Lemma py_range_pos n : 0 < n -> exists l, py_range n = 0 :: l.
Proof.
  intros H. unfold py_range.
  destruct (Z.to_nat n) as [|m] eqn:E; [lia|]. simpl. eauto.
Qed.

Lemma train_unconditioned c (w : world) :
  conditioned c = false ->
  0 < a_iter (args c) ->
  a_start_iter (args c) <= a_iter (args c) ->
  exists w', train c w = (Raise (UnboundLocalError "sent_emb"), w').
Proof.
  intros Hc Hi Hs.
  destruct (train_prologue_unconditioned c w Hc) as [w1 [p [E1 [Hn Hp]]]].
  destruct (train_iter_unconditioned c (0 + a_start_iter (args c)) w1 p Hc Hn Hp)
    as [w2 E2].
  exists w2. unfold train.
  change (((modify (upd_loc (fun _ => no_locals)) ;; train_prologue c) ;;
           train_loop c (train_iter c)) w = (Raise (UnboundLocalError "sent_emb"), w2)).
  rewrite (bind_run _ _ _ _ _ E1).
  unfold train_loop. destruct (py_range_pos _ Hi) as [l ->]. simpl.
  apply bind_raises. rewrite loop_pass_continue by lia.
  apply bind_raises. exact E2.
Qed.

(** C2. With [conditioned] false nothing assigns [sent_emb]: the first
    pass through the loop body raises [UnboundLocalError], a
    [NameError], at [discriminator(fake_img, sent_emb)], and so does
    every pass that starts without [sent_emb].  Hence a call of [train]
    that enters the loop body and does not end in a [NameError] has
    [conditioned] true. *)
Theorem unconditioned_name_error c (w : world) :
  0 < a_iter (args c) ->
  a_start_iter (args c) <= a_iter (args c) ->
  (conditioned c = false ->
     (exists w', train c w = (Raise (UnboundLocalError "sent_emb"), w'))
     /\ (forall i w1 p,
           l_sent_emb (loc w1) = None -> l_ada_aug_p (loc w1) = Some p ->
           exists w2,
             train_iter c i w1 = (Raise (UnboundLocalError "sent_emb"), w2))
     /\ is_NameError (UnboundLocalError "sent_emb") = true)
  /\ (forall r w',
        train c w = (r, w') ->
        (forall e, r = Raise e -> is_NameError e = false) ->
        conditioned c = true).
Proof.
  intros Hi Hs. split.
  - intros Hc. split; [now apply train_unconditioned|].
    split; [|reflexivity].
    intros i w1 p. now apply train_iter_unconditioned.
  - intros r w' E Hr. destruct (conditioned c) eqn:Hc; [reflexivity|].
    destruct (train_unconditioned c w Hc Hi Hs) as [w2 E2].
    rewrite E2 in E. inversion E; subst.
    specialize (Hr _ eq_refl). discriminate.
Qed.

(** ** The losses *)


Lemma map_m_cat (l : list act) (w : world) se :
  l_sent_emb (loc w) = Some se ->
  map_m (fun ns => sent_emb <- sent_emb_local ;; ret (cat1 ns sent_emb)) l w
  = (Ok (map (fun ns => cat1 ns se) l), w).
Proof.
  intros H. induction l as [|a l IH]; simpl; [reflexivity|].
  assert (E : (sent_emb <- sent_emb_local ;; ret (cat1 a sent_emb)) w
              = (Ok (cat1 a se), w)).
  { unfold bind, sent_emb_local, read_local. now rewrite H. }
  rewrite (bind_run _ _ _ _ _ E). rewrite (bind_run _ _ _ _ _ IH). reflexivity.
Qed.

Lemma map_m_unbound (l : list act) (w : world) r w' :
  l_sent_emb (loc w) = None ->
  map_m (fun ns => sent_emb <- sent_emb_local ;; ret (cat1 ns sent_emb)) l w
  = (r, w') ->
  w' = w.
Proof.
  intros H. destruct l as [|a l]; simpl.
  - intros E. now inversion E.
  - assert (E : (sent_emb <- sent_emb_local ;; ret (cat1 a sent_emb)) w
                = (Raise (UnboundLocalError "sent_emb"), w)).
    { unfold bind, sent_emb_local, read_local. now rewrite H. }
    rewrite (bind_raises _ _ _ _ _ E). intros E'. now inversion E'.
Qed.

(** ** Inversion of the elementary statements *)

Lemma gets_inv {A} (f : world -> A) (w : world) r w' :
  gets f w = (r, w') -> r = Ok (f w) /\ w' = w.
Proof. unfold gets. intros E. now inversion E. Qed.

Lemma ret_inv {A} (a : A) (w : world) r w' :
  ret a w = (r, w') -> r = Ok a /\ w' = w.
Proof. unfold ret. intros E. now inversion E. Qed.

Lemma modify_inv (f : world -> world) (w : world) r w' :
  modify f w = (r, w') -> r = Ok tt /\ w' = f w.
Proof. unfold modify. intros E. now inversion E. Qed.

Lemma read_local_ok_inv {A} name (v : world -> option A) (w : world) a w' :
  read_local name v w = (Ok a, w') -> v w = Some a /\ w' = w.
Proof.
  unfold read_local. destruct (v w); intros E; inversion E; now subst.
Qed.

Lemma draw_inv {A} (f : rng_state -> A * rng_state) (w : world) r w' :
  draw f w = (r, w') ->
  r = Ok (fst (f (rng (tw w)))) /\ w' = upd_tw (set_rng (snd (f (rng (tw w))))) w.
Proof.
  unfold draw. destruct (f (rng (tw w))) as [a s]. intros E. now inversion E.
Qed.

Lemma run_discriminator_ok_inv img (w : world) r w' :
  run_discriminator img w = (Ok r, w') ->
  w' = w
  /\ exists sent_emb,
       l_sent_emb (loc w) = Some sent_emb
       /\ r = discriminator_forward (nets (tw w) Discriminator)
                (training (tw w) Discriminator) img sent_emb.
Proof.
  intros H. unfold run_discriminator, sent_emb_local in H. ok_inv H.
  apply read_local_ok_inv in E. destruct E as [E ->].
  apply gets_inv in H. destruct H as [H ->]. inversion H. eauto.
Qed.

Lemma run_augment_ok_inv img (w : world) a w' :
  run_augment img w = (Ok a, w') ->
  exists p,
    l_ada_aug_p (loc w) = Some p
    /\ a = fst (augment img p (rng (tw w)))
    /\ w' = upd_tw (set_rng (snd (augment img p (rng (tw w))))) w.
Proof.
  intros H. unfold run_augment, ada_aug_p_local in H. ok_inv H.
  apply read_local_ok_inv in E. destruct E as [E ->].
  apply draw_inv in H. destruct H as [H ->]. inversion H. eauto.
Qed.

Lemma loss_dict_store_ok_inv k v (w : world) w' :
  loss_dict_store k v w = (Ok tt, w') ->
  exists ld,
    l_loss_dict (loc w) = Some ld
    /\ w' = upd_loc (set_loss_dict (dict_set k v ld)) w.
Proof.
  intros H. unfold loss_dict_store in H. ok_inv H.
  apply read_local_ok_inv in E. destruct E as [E ->].
  apply modify_inv in H. destruct H as [_ ->]. eauto.
Qed.

Lemma lookup_dict_set_same {A} k (v : A) m : lookup k (dict_set k v m) = Some v.
Proof.
  induction m as [|[k' a] m IH]; simpl.
  - now rewrite String.eqb_refl.
  - destruct (String.eqb k k') eqn:E; simpl; now rewrite E.
Qed.

Lemma lookup_dict_set_other {A} k k' (v : A) m :
  k <> k' -> lookup k' (dict_set k v m) = lookup k' m.
Proof.
  intros Hne. induction m as [|[k0 a] m IH]; simpl.
  - destruct (String.eqb_spec k' k); [congruence | reflexivity].
  - destruct (String.eqb_spec k k0) as [->|Hk]; simpl.
    + destruct (String.eqb_spec k' k0); [congruence | reflexivity].
    + destruct (String.eqb k' k0); auto.
Qed.

Ltac static_solver :=
  let w := fresh "w" in
  intros w; intros;
  match goal with
  | H : static_is _ _ _ w |- _ => destruct H as [? [? ?]]; repeat split; cbn; auto
  end.

Lemma static_conditioned_noise N Tr L c x :
  preserves (static_is N Tr L) (conditioned_noise c x).
Proof. pres static_solver. Qed.

Lemma conditioned_noise_static c x (w : world) r w' :
  conditioned_noise c x w = (r, w') ->
  nets (tw w') = nets (tw w) /\ training (tw w') = training (tw w) /\ loc w' = loc w.
Proof.
  intros E.
  exact (static_conditioned_noise _ _ _ c x w r w' (conj eq_refl (conj eq_refl eq_refl)) E).
Qed.

(** What [g_forward] computed when it returns, in terms of the world it
    started in. *)
Lemma g_forward_ok_inv c real_img match_labels class_ids (w w' : world) g_loss :
  g_forward c real_img match_labels class_ids w = (Ok g_loss, w') ->
  exists noise fake_img sent_emb,
    l_sent_emb (loc w) = Some sent_emb
    /\ (let fresh :=
          generator_forward
            (map (fun kp => (fst kp, set_flag true (snd kp))) (nets (tw w) Generator))
            (training (tw w) Generator) noise in
        if a_augment (args c)
        then exists p r, fake_img = fst (augment fresh p r)
        else fake_img = fresh)
    /\ (let fake_pred :=
          fst (discriminator_forward
                 (map (fun kp => (fst kp, set_flag false (snd kp)))
                      (nets (tw w) Discriminator))
                 (training (tw w) Discriminator) fake_img sent_emb) in
        let cnn_code :=
          snd (cnn_forward (nets (tw w) ImageEncoder)
                 (training (tw w) ImageEncoder) fake_img) in
        let s := sent_loss cnn_code sent_emb match_labels class_ids
                   (cfg_batch_size c) in
        let s_loss := scale (cfg_smooth_lambda c) (add (fst s) (snd s)) in
        g_loss = add (mean (softplus (neg fake_pred))) s_loss
        /\ exists ld,
             l_loss_dict (loc w') = Some ld
             /\ lookup "g" ld = Some (PyTensor g_loss)
             /\ lookup "sent" ld = Some (PyTensor s_loss)).
Proof.
  intros H. unfold g_forward in H. unfold requires_grad at 1 2 in H.
  rewrite bind_modify in H. cbv beta in H. rewrite bind_modify in H.
  cbv beta zeta in H. ok_inv H.
  apply conditioned_noise_static in E. destruct E as [N0 [T0 L0]].
  apply gets_inv in E0. destruct E0 as [G0 ->]. inversion G0; subst a0; clear G0.
  cbn in N0, T0, L0.
  assert (A1 : nets (tw w2) = nets (tw w0) /\ training (tw w2) = training (tw w0)
               /\ loc w2 = loc w0
               /\ if a_augment (args c)
                  then exists p r,
                         a1 = fst (augment
                                     (generator_forward (nets (tw w0) Generator)
                                        (training (tw w0) Generator) a) p r)
                  else a1 = generator_forward (nets (tw w0) Generator)
                              (training (tw w0) Generator) a).
  { destruct (a_augment (args c)).
    - apply run_augment_ok_inv in E1. destruct E1 as [p [Hp [-> ->]]].
      cbn. eauto 6.
    - apply ret_inv in E1. destruct E1 as [R ->]. inversion R. auto. }
  clear E1. destruct A1 as [N2 [T2 [L2 A1]]].
  apply run_discriminator_ok_inv in E2. destruct E2 as [-> [se [Hse ->]]].
  apply gets_inv in E3. destruct E3 as [R ->]. inversion R; subst a3; clear R.
  unfold sent_emb_local in E4. apply read_local_ok_inv in E4.
  destruct E4 as [Hse' ->]. rewrite Hse in Hse'. inversion Hse'; subst a4; clear Hse'.
  apply loss_dict_store_ok_inv in E5. destruct E5 as [ld [Hld ->]].
  apply loss_dict_store_ok_inv in E6. destruct E6 as [ld' [Hld' ->]].
  apply modify_inv in E7. destruct E7 as [_ ->].
  apply ret_inv in H. destruct H as [R ->]. inversion R; subst g_loss; clear R.
  cbn in Hld'. inversion Hld'; subst ld'; clear Hld'.
  rewrite L2, L0 in Hse. rewrite N2, T2, N0, T0. rewrite N0, T0 in A1.
  cbn in A1. cbn.
  exists a, a1, se. split; [exact Hse|]. split; [exact A1|].
  split; [reflexivity|].
  eexists. split; [reflexivity|]. split.
  - rewrite lookup_dict_set_other by discriminate. apply lookup_dict_set_same.
  - apply lookup_dict_set_same.
Qed.

Lemma between_steps_ok_inv c i x (w w' : world) g :
  between_steps c i x w = (Ok g, w') ->
  exists wa real_img wb,
    ada_tune_block c (snd (fst (snd x))) w = (Ok tt, wa)
    /\ d_regularize_block c i (fst (fst x)) wa = (Ok real_img, wb)
    /\ g_forward c real_img (snd (snd x)) (snd (fst x)) wb = (Ok g, w').
Proof.
  intros H. unfold between_steps in H. cbv zeta in H. ok_inv H.
  do 3 eexists. split; [eassumption|]. split; eassumption.
Qed.


(** ** The R1 regularization step *)

Lemma d_reg_forward_ok_inv c x (w w' : world) r :
  d_reg_forward c x w = (Ok r, w') ->
  exists real_img_aug sent_emb,
    l_sent_emb (loc w) = Some sent_emb
    /\ (if a_augment (args c)
        then exists p rs, real_img_aug = fst (augment (with_grad x) p rs)
        else real_img_aug = with_grad x)
    /\ snd r = fst (discriminator_forward (nets (tw w) Discriminator)
                      (training (tw w) Discriminator) real_img_aug sent_emb)
    /\ fst r = d_r1_loss (snd r) (with_grad x)
    /\ l_r1_loss (loc w') = Some (fst r)
    /\ nets (tw w') = nets (tw w)
    /\ g_optim (tw w') = g_optim (tw w)
    /\ d_optim (tw w') = d_optim (tw w)
    /\ l_loss_dict (loc w') = l_loss_dict (loc w).
Proof.
  intros H. unfold d_reg_forward in H. cbv zeta in H. ok_inv H.
  assert (A : nets (tw w0) = nets (tw w) /\ training (tw w0) = training (tw w)
              /\ loc w0 = loc w /\ g_optim (tw w0) = g_optim (tw w)
              /\ d_optim (tw w0) = d_optim (tw w)
              /\ if a_augment (args c)
                 then exists p rs, a = fst (augment (with_grad x) p rs)
                 else a = with_grad x).
  { destruct (a_augment (args c)).
    - apply run_augment_ok_inv in E. destruct E as [p [Hp [-> ->]]]. cbn. eauto 10.
    - apply ret_inv in E. destruct E as [R ->]. inversion R. auto 10. }
  clear E. destruct A as [N0 [T0 [L0 [G0 [D0 A]]]]].
  apply run_discriminator_ok_inv in E0. destruct E0 as [-> [se [Hse ->]]].
  apply modify_inv in E1. destruct E1 as [_ ->].
  apply ret_inv in H. destruct H as [R ->]. inversion R; subst r; clear R.
  rewrite L0 in Hse. rewrite N0, T0. cbn. rewrite L0.
  exists a, se. repeat split; auto.
Qed.

Lemma py_mod_ok_inv a b (w : world) m w' :
  py_mod a b w = (Ok m, w') -> b <> 0 /\ m = a mod b /\ w' = w.
Proof.
  unfold py_mod. destruct (Z.eqb_spec b 0); intros E; inversion E; auto.
Qed.

Lemma d_reg_backward_step_ok c r1 rp (w : world) :
  exists w',
    d_reg_backward_step c r1 rp w = (Ok tt, w')
    /\ ostate (d_optim (tw w')) = adam_tick (ostate (d_optim (tw w)))
    /\ g_optim (tw w') = g_optim (tw w)
    /\ loc w' = loc w.
Proof.
  eexists. split; [reflexivity|]. cbn. auto.
Qed.

(** What lines 293-312 did when they return. *)
Lemma d_regularize_block_ok_inv c i x (w w' : world) x' :
  d_regularize_block c i x w = (Ok x', w') ->
  a_d_reg_every (args c) <> 0
  /\ (if i mod a_d_reg_every (args c) =? 0
      then
        exists real_img_aug sent_emb real_pred w1 w2,
          l_sent_emb (loc w) = Some sent_emb
          /\ (if a_augment (args c)
              then exists p rs, real_img_aug = fst (augment (with_grad x) p rs)
              else real_img_aug = with_grad x)
          /\ real_pred = fst (discriminator_forward (nets (tw w) Discriminator)
                                (training (tw w) Discriminator)
                                real_img_aug sent_emb)
          /\ d_reg_forward c x w
             = (Ok (d_r1_loss real_pred (with_grad x), real_pred), w1)
          /\ (zero_grad Discriminator ;;
              backward
                (add (scale (IZR (a_d_reg_every (args c)))
                        (scale (a_r1 (args c) / 2)
                           (d_r1_loss real_pred (with_grad x))))
                     (scale 0 (first_row real_pred))) ;;
              d_optim_step) w1 = (Ok tt, w2)
          /\ nets (tw w') = nets (tw w2)
          /\ ostate (d_optim (tw w')) = adam_tick (ostate (d_optim (tw w)))
          /\ l_r1_loss (loc w') = Some (d_r1_loss real_pred (with_grad x))
          /\ x' = with_grad x
      else
        nets (tw w') = nets (tw w)
        /\ d_optim (tw w') = d_optim (tw w)
        /\ l_r1_loss (loc w') = l_r1_loss (loc w)
        /\ x' = x)
  /\ g_optim (tw w') = g_optim (tw w)
  /\ exists r1 ld,
       l_r1_loss (loc w') = Some r1
       /\ l_loss_dict (loc w') = Some ld
       /\ lookup "r1" ld = Some (PyTensor r1).
Proof.
  intros H. unfold d_regularize_block in H. cbv zeta in H. ok_inv H.
  apply py_mod_ok_inv in E. destruct E as [Hd [-> ->]].
  apply read_local_ok_inv in E1. destruct E1 as [Hr ->].
  apply loss_dict_store_ok_inv in E2. destruct E2 as [ld [Hld ->]].
  apply ret_inv in H. destruct H as [R ->]. inversion R; subst x'; clear R.
  split; [exact Hd|].
  destruct (i mod a_d_reg_every (args c) =? 0).
  - ok_inv E0. apply ret_inv in E0. destruct E0 as [R ->].
    inversion R; subst a0; clear R.
    destruct a as [r1 rp].
    pose proof (d_reg_forward_ok_inv _ _ _ _ _ E) as F.
    destruct F as [aug [se [Hse [Haug [Hrp [Hr1 [Hl [N1 [G1 [D1 LD1]]]]]]]]]].
    simpl fst in *. simpl snd in *.
    destruct (d_reg_backward_step_ok c r1 rp w0) as [w2' [S [O2 [G2 L2]]]].
    rewrite S in E1. inversion E1; subst w2'; clear E1.
    cbn [loc upd_loc tw nets l_r1_loss set_loss_dict l_loss_dict g_optim d_optim].
    split; [|split].
    + exists aug, se, rp, w0, w2. subst r1.
      rewrite L2, Hl in Hr. inversion Hr; subst a1.
      repeat split; auto.
      * rewrite O2, D1. reflexivity.
      * rewrite L2. exact Hl.
    + rewrite G2. exact G1.
    + exists a1, (dict_set "r1" (PyTensor a1) ld). rewrite Hr.
      repeat split. apply lookup_dict_set_same.
  - apply ret_inv in E0. destruct E0 as [R ->]. inversion R; subst a0; clear R.
    cbn [loc upd_loc tw nets l_r1_loss set_loss_dict l_loss_dict g_optim d_optim].
    split; [auto|]. split; [reflexivity|].
    exists a1, (dict_set "r1" (PyTensor a1) ld). rewrite Hr.
    repeat split. apply lookup_dict_set_same.
Qed.

Ltac r1_solver :=
  let w := fresh "w" in
  intros w; intros;
  match goal with
  | H : r1_state _ _ w |- _ => destruct H as [? ?]; split; cbn; auto
  end.

Lemma r1_before_d_step o v c : preserves (r1_state o v) (before_d_step c).
Proof. pres r1_solver. Qed.

Lemma r1_ada_tune_block o v c p : preserves (r1_state o v) (ada_tune_block c p).
Proof. pres r1_solver. Qed.

Lemma r1_g_forward o v c x ml ids : preserves (r1_state o v) (g_forward c x ml ids).
Proof. pres r1_solver. Qed.

Lemma r1_g_backward_step o v g : preserves (r1_state o v) (g_backward_step g).
Proof. pres r1_solver. Qed.

Lemma r1_after_g_step o v c i : preserves (r1_state o v) (after_g_step c i).
Proof. pres r1_solver. Qed.

Lemma d_backward_step_ok_inv d (w w' : world) :
  d_backward_step d w = (Ok tt, w') ->
  ostate (d_optim (tw w')) = adam_tick (ostate (d_optim (tw w)))
  /\ l_r1_loss (loc w') = l_r1_loss (loc w).
Proof.
  destruct d as [z|loss]; [discriminate|].
  unfold d_backward_step, py_backward, backward, d_optim_step, bind, modify.
  intros E. injection E as <-. cbn. auto.
Qed.

Lemma train_prologue_r1 c (w : world) r w' :
  train_prologue c w = (r, w') ->
  l_r1_loss (loc w') = Some (tensor_of_float 0).
Proof.
  intros E. unfold train_prologue in E. unfold assign at 1 in E.
  rewrite bind_modify in E. cbv beta in E.
  match type of E with
  | ?m ?w0 = _ =>
      assert (P : preserves (r1_state (d_optim (tw w)) (Some (tensor_of_float 0))) m)
        by (pres r1_solver);
      apply (P w0 r w'); [|exact E]
  end.
  split; reflexivity.
Qed.

(** C4. In a pass through the loop body that returns,
    [args.d_reg_every] is not zero, and lines 293-312 do the following.
    When [i % args.d_reg_every == 0]: [r1_loss] becomes
    [d_r1_loss(real_pred, real_img)], the mean over the batch of the
    per-sample sums of the squared gradient of [real_pred.sum()] with
    respect to [real_img]; the discriminator gradients are reset,
    [args.r1 / 2 * r1_loss * args.d_reg_every + 0 * real_pred[0]] is
    backpropagated and [d_optim] steps, so that [d_optim] has stepped
    twice in the pass.  Otherwise the parameters and [d_optim] are left
    alone, [d_optim] has stepped once in the pass, and [r1_loss] keeps
    its value.  In both cases [loss_dict["r1"]] is [r1_loss].  The
    prologue of [train] sets [r1_loss] to [torch.tensor(0.0)]. *)
Theorem r1_schedule c i (w w' : world) :
  train_iter c i w = (Ok tt, w') ->
  a_d_reg_every (args c) <> 0
  /\ ostate (d_optim (tw w')) =
       (if i mod a_d_reg_every (args c) =? 0
        then adam_tick (adam_tick (ostate (d_optim (tw w))))
        else adam_tick (ostate (d_optim (tw w))))
  /\ (exists real_img wa real_img' wb,
        d_regularize_block c i real_img wa = (Ok real_img', wb)
        /\ l_r1_loss (loc wa) = l_r1_loss (loc w)
        /\ l_r1_loss (loc w') = l_r1_loss (loc wb)
        /\ (if i mod a_d_reg_every (args c) =? 0
            then
              exists real_img_aug sent_emb real_pred w1 w2,
                l_sent_emb (loc wa) = Some sent_emb
                /\ (if a_augment (args c)
                    then exists p rs,
                           real_img_aug = fst (augment (with_grad real_img) p rs)
                    else real_img_aug = with_grad real_img)
                /\ real_pred
                   = fst (discriminator_forward (nets (tw wa) Discriminator)
                            (training (tw wa) Discriminator)
                            real_img_aug sent_emb)
                /\ d_reg_forward c real_img wa
                   = (Ok (d_r1_loss real_pred (with_grad real_img), real_pred), w1)
                /\ d_r1_loss real_pred (with_grad real_img)
                   = mean (sum_dim
                             (reshape_rows
                                (pow (autograd_grad (tsum real_pred)
                                        (with_grad real_img)) 2)) 1)
                /\ (zero_grad Discriminator ;;
                    backward
                      (add (scale (IZR (a_d_reg_every (args c)))
                              (scale (a_r1 (args c) / 2)
                                 (d_r1_loss real_pred (with_grad real_img))))
                           (scale 0 (first_row real_pred))) ;;
                    d_optim_step) w1 = (Ok tt, w2)
                /\ nets (tw wb) = nets (tw w2)
                /\ l_r1_loss (loc wb)
                   = Some (d_r1_loss real_pred (with_grad real_img))
            else
              nets (tw wb) = nets (tw wa)
              /\ d_optim (tw wb) = d_optim (tw wa)
              /\ l_r1_loss (loc wb) = l_r1_loss (loc wa))
        /\ exists r1 ld,
             l_r1_loss (loc wb) = Some r1
             /\ l_loss_dict (loc wb) = Some ld
             /\ lookup "r1" ld = Some (PyTensor r1))
  /\ (forall w0 r w1,
        train_prologue c w0 = (r, w1) ->
        l_r1_loss (loc w1) = Some (tensor_of_float 0)).
Proof.
  intros H. apply train_iter_ok_inv in H.
  destruct H as [x [w1 [w2 [g [w3 [w4 [E1 [E2 [E3 [E4 E5]]]]]]]]]].
  apply between_steps_ok_inv in E3.
  destruct E3 as [wa [real_img [wb [A [B C]]]]].
  pose proof (r1_before_d_step _ _ c w _ _ (conj eq_refl eq_refl) E1) as [D1 R1].
  destruct (d_backward_step_ok_inv _ _ _ E2) as [D2 R2].
  pose proof (r1_ada_tune_block _ _ c _ w2 _ _ (conj eq_refl eq_refl) A) as [Da Ra].
  pose proof (r1_g_forward _ _ c _ _ _ wb _ _ (conj eq_refl eq_refl) C) as [D3 R3].
  pose proof (r1_g_backward_step _ _ g w3 _ _ (conj eq_refl eq_refl) E4) as [D4 R4].
  pose proof (r1_after_g_step _ _ c i w4 _ _ (conj eq_refl eq_refl) E5) as [D5 R5].
  pose proof (d_regularize_block_ok_inv _ _ _ _ _ _ B) as [Hd [Hreg [_ Hdict]]].
  split; [exact Hd|]. split; [|split].
  - rewrite D5, D4, D3.
    destruct (i mod a_d_reg_every (args c) =? 0).
    + destruct Hreg as [aug [se [rp [u1 [u2 Hreg]]]]].
      destruct Hreg as [_ [_ [_ [_ [_ [_ [O [_ _]]]]]]]].
      rewrite O, Da, D2, D1. reflexivity.
    + destruct Hreg as [_ [O _]]. rewrite O, Da, D2, D1. reflexivity.
  - exists (fst (fst x)), wa, real_img, wb.
    split; [exact B|]. split; [congruence|]. split; [congruence|].
    split; [|exact Hdict].
    destruct (i mod a_d_reg_every (args c) =? 0).
    + destruct Hreg as [aug [se [rp [u1 [u2 Hreg]]]]].
      destruct Hreg as [S1 [S2 [S3 [S4 [S5 [S6 [S7 [S8 S9]]]]]]]].
      exists aug, se, rp, u1, u2. repeat split; auto.
    + destruct Hreg as [S1 [S2 [S3 S4]]]. auto.
  - intros w0 r w1'. apply train_prologue_r1.
Qed.

(** ** What is written to disk *)

Ltac out_solver :=
  let w := fresh "w" in
  intros w; intros;
  match goal with
  | H : out_extends _ _ w |- _ =>
      let evs := fresh "evs" in
      let E := fresh "E" in
      let F := fresh "F" in
      destruct H as [evs [E F]]; unfold out_extends; cbn;
      first
        [ exists evs; split; [exact E | exact F]
        | eexists (evs ++ [_]); rewrite E, <- app_assoc; split; [reflexivity|];
          apply Forall_app; split; [exact F|];
          apply Forall_cons; [|apply Forall_nil];
          unfold file_event_ok; cbn; intros Hfw;
          first
            [ discriminate Hfw
            | repeat match goal with
                     | Hb : (_ =? _) = true |- _ => apply Z.eqb_eq in Hb
                     end;
              split; [assumption|]; eauto 6 ] ]
  end.

Lemma out_train_iter o c i :
  preserves (out_extends o (file_event_ok c i)) (train_iter c i).
Proof. pres out_solver. Qed.

Lemma reduced_value_world lr k (w : world) r w' :
  reduced_value lr k w = (r, w') -> w' = w.
Proof.
  unfold reduced_value. destruct (lookup k lr) as [[z|t]|]; intros E; now inversion E.
Qed.

Lemma emit_inv e (w : world) r w' :
  emit e w = (r, w') ->
  r = Ok tt /\ w' = upd_tw (fun t => set_out (out t ++ [e]) t) w.
Proof. unfold emit. apply modify_inv. Qed.

Lemma out_extends_none (w : world) : out_extends (out (tw w)) (fun _ => False) w.
Proof. exists []. split; [now rewrite app_nil_r | constructor]. Qed.

Lemma out_extends_none_inv o (w : world) :
  out_extends o (fun _ => False) w -> out (tw w) = o.
Proof.
  intros [evs [E F]]. destruct evs as [|e evs].
  - now rewrite app_nil_r in E.
  - inversion F; contradiction.
Qed.

Lemma out_before_report c i (w w' : world) :
  train_iter c i w = (Ok tt, w') ->
  exists wr, out (tw wr) = out (tw w) /\ report_block c i wr = (Ok tt, w').
Proof.
  intros H. apply train_iter_ok_inv in H.
  destruct H as [x [w1 [w2 [g [w3 [w4 [E1 [E2 [E3 [E4 E5]]]]]]]]]].
  unfold after_g_step in E5. ok_inv E5. exists w5. split; [|exact E5].
  assert (P1 : preserves (out_extends (out (tw w)) (fun _ => False))
                 (before_d_step c)) by (pres out_solver).
  assert (P2 : preserves (out_extends (out (tw w)) (fun _ => False))
                 (d_backward_step (fst (fst (snd x))))) by (pres out_solver).
  assert (P3 : preserves (out_extends (out (tw w)) (fun _ => False))
                 (between_steps c i x)) by (pres out_solver).
  assert (P4 : preserves (out_extends (out (tw w)) (fun _ => False))
                 (g_backward_step g)) by (pres out_solver).
  assert (P5 : preserves (out_extends (out (tw w)) (fun _ => False))
                 (g_regularize_test c i)) by (pres out_solver).
  assert (P6 : preserves (out_extends (out (tw w)) (fun _ => False))
                 ema_block) by (pres out_solver).
  apply out_extends_none_inv.
  eapply P6; [|eassumption]. eapply P5; [|eassumption].
  eapply P4; [|eassumption]. eapply P3; [|eassumption].
  eapply P2; [|eassumption]. eapply P1; [|eassumption].
  apply out_extends_none.
Qed.

Lemma zeros_length n : String.length (zeros n) = n.
Proof. induction n; simpl; congruence. Qed.

Lemma string_length_append (s t : string) :
  String.length (s ++ t)%string = (String.length s + String.length t)%nat.
Proof. induction s; simpl; congruence. Qed.

Lemma zfill_length width s :
  String.length (zfill width s) = Nat.max width (String.length s).
Proof.
  unfold zfill. destruct (Nat.leb_spec width (String.length s)) as [H|H]; [lia|].
  destruct s as [|ch rest]; simpl in *.
  - rewrite zeros_length. lia.
  - destruct (Ascii.eqb ch "+" || Ascii.eqb ch "-")%bool; simpl;
      rewrite string_length_append, zeros_length; simpl; lia.
Qed.

(** ** The moving average of the generator *)

Ltac data_solver :=
  let w := fresh "w" in
  intros w; intros;
  match goal with
  | H : data_fixed _ _ w |- _ =>
      destruct H as [? [? ?]]; repeat split; cbn -[data_of]; auto
  end.

Lemma data_backward n d loss : preserves (data_fixed n d) (backward loss).
Proof.
  apply preserves_modify. intros w [H1 [H2 H3]].
  repeat split; auto. cbn -[data_of]. now rewrite backward_data_of.
Qed.

Lemma data_d_optim_step n d : preserves (data_fixed n d) d_optim_step.
Proof.
  apply preserves_modify. intros w [H1 [H2 H3]].
  repeat split; auto. cbn -[optim_step data_of]. rewrite optim_step_other; auto.
Qed.

Lemma data_g_optim_step n d : preserves (data_fixed n d) g_optim_step.
Proof.
  apply preserves_modify. intros w [H1 [H2 H3]].
  repeat split; auto. cbn -[optim_step data_of]. rewrite optim_step_other; auto.
Qed.

#[local] Hint Resolve data_backward data_d_optim_step data_g_optim_step : pres.

Lemma keys_data_of (m : module) : keys m = map fst (data_of m).
Proof. unfold keys, data_of. rewrite map_map. reflexivity. Qed.

Lemma lookup_data_of (m m' : module) k p :
  data_of m = data_of m' ->
  lookup k m = Some p ->
  exists p', lookup k m' = Some p' /\ data p' = data p.
Proof.
  revert m'. induction m as [|[k0 q] m IH]; intros [|[k1 q'] m'] E H;
    simpl in *; try discriminate.
  inversion E; subst k1.
  destruct (String.eqb k k0).
  - inversion H; subst. eauto.
  - eapply IH; eauto.
Qed.

Lemma ema_block_ok_inv decay (w w' : world) :
  NoDup (keys (nets (tw w) GEma)) ->
  accumulate GEma Generator decay w = (Ok tt, w') ->
  nets (tw w') Generator = nets (tw w) Generator
  /\ keys (nets (tw w') GEma) = keys (nets (tw w) GEma)
  /\ forall k p',
       lookup k (nets (tw w') GEma) = Some p' ->
       exists p1 p2,
         lookup k (nets (tw w) GEma) = Some p1
         /\ lookup k (nets (tw w) Generator) = Some p2
         /\ List.length (data p1) = List.length (data p2)
         /\ p' = set_data (ema_data decay (data p1) (data p2)) p1.
Proof.
  intros Hnd H. unfold accumulate in H. ok_inv H.
  apply gets_inv in E. destruct E as [R ->]. inversion R; subst a; clear R.
  assert (Hne : GEma <> Generator) by discriminate.
  pose proof (accumulate_keys_ok_inv _ _ _ _ Hne Hnd _ _ H) as Hall.
  destruct (accumulate_keys_ok _ _ decay _ Hne Hnd w Hall)
    as [w2 [E2 [_ [N [K [L O]]]]]].
  rewrite E2 in H. inversion H; subst w2; clear H.
  split; [apply N; discriminate|]. split; [exact K|].
  intros k p' Hk.
  assert (Hin : In k (keys (nets (tw w) GEma))).
  { rewrite <- K. apply lookup_in_keys. congruence. }
  destruct (Hall k Hin) as [p1 [p2 [H1 [H2 Hlen]]]].
  exists p1, p2. repeat split; auto.
  rewrite (L k p1 p2 Hin H1 H2) in Hk. now inversion Hk.
Qed.

Lemma nets_report_block N c i :
  preserves (fun w : world => nets (tw w) = N) (report_block c i).
Proof. pres ltac:(intros; cbn; assumption). Qed.

Lemma data_fixed_train_iter_prefix c i (w w4 : world) x w1 w2 g w3 :
  optims_wf w ->
  before_d_step c w = (Ok x, w1) ->
  d_backward_step (fst (fst (snd x))) w1 = (Ok tt, w2) ->
  between_steps c i x w2 = (Ok g, w3) ->
  g_backward_step g w3 = (Ok tt, w4) ->
  data_of (nets (tw w4) GEma) = data_of (nets (tw w) GEma).
Proof.
  intros [Wg Wd] E1 E2 E3 E4.
  assert (D0 : data_fixed GEma (data_of (nets (tw w) GEma)) w).
  { repeat split; eapply registered_unregistered; eauto; discriminate. }
  assert (P1 : preserves (data_fixed GEma (data_of (nets (tw w) GEma)))
                 (before_d_step c)) by (pres data_solver).
  assert (P2 : preserves (data_fixed GEma (data_of (nets (tw w) GEma)))
                 (d_backward_step (fst (fst (snd x))))) by (pres data_solver).
  assert (P3 : preserves (data_fixed GEma (data_of (nets (tw w) GEma)))
                 (between_steps c i x)) by (pres data_solver).
  assert (P4 : preserves (data_fixed GEma (data_of (nets (tw w) GEma)))
                 (g_backward_step g)) by (pres data_solver).
  apply (P4 _ _ _ (P3 _ _ _ (P2 _ _ _ (P1 _ _ _ D0 E1) E2) E3) E4).
Qed.

Lemma accumulate_ok decay (w : world) :
  compatible (nets (tw w) GEma) (nets (tw w) Generator) ->
  exists w',
    accumulate GEma Generator decay w = (Ok tt, w')
    /\ nets (tw w') Generator = nets (tw w) Generator
    /\ forall k p1,
         lookup k (nets (tw w) GEma) = Some p1 ->
         exists p2,
           lookup k (nets (tw w) Generator) = Some p2
           /\ lookup k (nets (tw w') GEma)
              = Some (set_data (ema_data decay (data p1) (data p2)) p1)
           /\ List.length (data p1) = List.length (data p2).
Proof.
  intros [Hnd Hc].
  assert (Hne : GEma <> Generator) by discriminate.
  assert (Hall : forall k, In k (keys (nets (tw w) GEma)) ->
            exists p1 p2,
              lookup k (nets (tw w) GEma) = Some p1
              /\ lookup k (nets (tw w) Generator) = Some p2
              /\ List.length (data p1) = List.length (data p2)).
  { intros k Hin. apply lookup_in_keys in Hin.
    destruct (lookup k (nets (tw w) GEma)) as [p1|] eqn:H1; [|congruence].
    destruct (Hc k p1 H1) as [p2 [H2 Hl]]. eauto. }
  destruct (accumulate_keys_ok _ _ decay _ Hne Hnd w Hall)
    as [w2 [E2 [_ [N [K [L O]]]]]].
  exists w2. split; [|split].
  - unfold accumulate. unfold bind, gets. exact E2.
  - apply N. discriminate.
  - intros k p1 H1. destruct (Hc k p1 H1) as [p2 [H2 Hl]].
    exists p2. repeat split; auto. apply L; auto.
    apply lookup_in_keys. congruence.
Qed.

Lemma after_g_step_ok_inv c i (w w' : world) :
  after_g_step c i w = (Ok tt, w') ->
  a_g_reg_every (args c) <> 0
  /\ exists w5, ema_block w = (Ok tt, w5) /\ report_block c i w5 = (Ok tt, w').
Proof.
  intros H. unfold after_g_step, g_regularize_test in H.
  apply bind_ok_inv in H. destruct H as [[] [wa [Ea H]]].
  apply bind_ok_inv in Ea. destruct Ea as [m [wb [Eb Ea]]].
  apply py_mod_ok_inv in Eb. destruct Eb as [Hg [_ ->]].
  apply ret_inv in Ea. destruct Ea as [_ ->].
  apply bind_ok_inv in H. destruct H as [[] [w5 [E6 E5]]].
  split; [exact Hg|]. exists w5. now split.
Qed.

(** C3. In a pass through the loop body that returns, line 386 leaves
    in every parameter [k] of [g_ema] the data
    [accum * old + (1 - accum) * new], elementwise, where [old] is the
    data of [g_ema[k]] at the start of the pass, [new] the data of the
    generator's [k] at its end and
    [accum = 0.5 ** (32 / (10 * 1000))]; every parameter name of
    [g_ema] is one of the generator.  At startup
    [accumulate(g_ema, generator, 0)] returns and leaves in every
    parameter of [g_ema] the data of the generator's parameter of the
    same name, and the generator as it was. *)
Theorem ema_tracking c i (w w' : world) :
  optims_wf w ->
  NoDup (keys (nets (tw w) GEma)) ->
  train_iter c i w = (Ok tt, w') ->
  (forall k p',
     lookup k (nets (tw w') GEma) = Some p' ->
     exists p0 pg,
       lookup k (nets (tw w) GEma) = Some p0
       /\ lookup k (nets (tw w') Generator) = Some pg
       /\ data p'
          = zip_with (fun a b => (accum * a + (1 - accum) * b)%R)
              (data p0) (data pg))
  /\ keys (nets (tw w') GEma) = keys (nets (tw w) GEma)
  /\ accum = Rpower 0.5 (32 / (10 * 1000))
  /\ (forall w0 : world,
        compatible (nets (tw w0) GEma) (nets (tw w0) Generator) ->
        exists w1,
          accumulate GEma Generator 0 w0 = (Ok tt, w1)
          /\ nets (tw w1) Generator = nets (tw w0) Generator
          /\ forall k p1,
               lookup k (nets (tw w0) GEma) = Some p1 ->
               exists p2 p',
                 lookup k (nets (tw w0) Generator) = Some p2
                 /\ lookup k (nets (tw w1) GEma) = Some p'
                 /\ data p' = data p2).
Proof.
  intros Hwf Hnd H. split; [|split; [|split; [reflexivity|]]].
  - apply train_iter_ok_inv in H.
    destruct H as [x [w1 [w2 [g [w3 [w4 [E1 [E2 [E3 [E4 E5]]]]]]]]]].
    pose proof (data_fixed_train_iter_prefix _ _ _ _ _ _ _ _ _ Hwf E1 E2 E3 E4) as D4.
    apply after_g_step_ok_inv in E5. destruct E5 as [_ [w5 [E6 E5]]].
    assert (Hnd4 : NoDup (keys (nets (tw w4) GEma))).
    { rewrite keys_data_of, D4, <- keys_data_of. exact Hnd. }
    unfold ema_block in E6.
    destruct (ema_block_ok_inv _ _ _ Hnd4 E6) as [G6 [K6 L6]].
    pose proof (nets_report_block _ c i _ _ _ eq_refl E5) as N'.
    intros k p' Hk. rewrite N' in Hk.
    destruct (L6 k p' Hk) as [p1 [p2 [H1 [H2 [Hl ->]]]]].
    destruct (lookup_data_of _ (nets (tw w) GEma) k p1 D4 H1) as [p0 [H0 Hd]].
    exists p0, p2. rewrite N', G6, Hd. auto.
  - apply train_iter_ok_inv in H.
    destruct H as [x [w1 [w2 [g [w3 [w4 [E1 [E2 [E3 [E4 E5]]]]]]]]]].
    pose proof (data_fixed_train_iter_prefix _ _ _ _ _ _ _ _ _ Hwf E1 E2 E3 E4) as D4.
    apply after_g_step_ok_inv in E5. destruct E5 as [_ [w5 [E6 E5]]].
    assert (Hnd4 : NoDup (keys (nets (tw w4) GEma))).
    { rewrite keys_data_of, D4, <- keys_data_of. exact Hnd. }
    unfold ema_block in E6.
    destruct (ema_block_ok_inv _ _ _ Hnd4 E6) as [G6 [K6 L6]].
    pose proof (nets_report_block _ c i _ _ _ eq_refl E5) as N'.
    rewrite N', K6, !keys_data_of, D4. reflexivity.
  - intros w0 Hc. destruct (accumulate_ok 0 w0 Hc) as [w1 [E [G L]]].
    exists w1. split; [exact E|]. split; [exact G|].
    intros k p1 H1. destruct (L k p1 H1) as [p2 [H2 [H3 Hl]]].
    exists p2. eexists. split; [exact H2|]. split; [exact H3|].
    simpl. now apply ema_data_zero.
Qed.

(** ** Exceptions *)




Lemma wandb_guard_run installed (w : world) :
  wandb_guard installed w = (Ok installed, w).
Proof. destruct installed; reflexivity. Qed.

Lemma py_int_raises s e : py_int s = Raise e -> e = ValueError.
Proof.
  unfold py_int.
  match goal with |- match ?r with _ => _ end = _ -> _ => destruct r end;
    intros H; now inversion H.
Qed.

Lemma resume_counter_run c ckpt (w : world) :
  resume_counter c ckpt w
  = (Ok (match py_int (splitext_root (basename ckpt)) with
         | Ok z => set_start_iter z c
         | Raise _ => c
         end), w).
Proof.
  unfold resume_counter, try_except, bind, lift, ret. cbv zeta.
  destruct (py_int (splitext_root (basename ckpt))) as [z|e] eqn:E.
  - reflexivity.
  - apply py_int_raises in E. subst e. reflexivity.
Qed.


(* ------------------------------------------------------------------ *)
(** ** Further properties of the code *)

(** ** Numbers in file names *)

Lemma uint_value_pos d p :
  uint_value d (Zpos p) = Zpos (Pos.of_uint_acc d p).
Proof.
  revert p. induction d; intros p; cbn [uint_value Pos.of_uint_acc];
    try reflexivity;
    match goal with
    | |- uint_value _ ?a = _ =>
        match goal with
        | |- _ = Zpos (Pos.of_uint_acc _ ?q) =>
            replace a with (Zpos q) by lia
        end
    end; apply IHd.
Qed.

Lemma uint_value_zero d : uint_value d 0 = Z.of_uint d.
Proof.
  unfold Z.of_uint.
  induction d; cbn [uint_value Pos.of_uint]; try reflexivity; try exact IHd;
    match goal with
    | |- uint_value ?l ?a = _ => change a with (Zpos (Z.to_pos a))
    end; rewrite uint_value_pos; reflexivity.
Qed.

Lemma parse_digits_uint d acc :
  parse_digits (NilEmpty.string_of_uint d) acc true = Some (uint_value d acc).
Proof.
  revert acc. induction d; intros acc; simpl; try reflexivity; apply IHd.
Qed.

Lemma parse_digits_uint_nonnil d acc b :
  d <> Decimal.Nil ->
  parse_digits (NilEmpty.string_of_uint d) acc b = Some (uint_value d acc).
Proof.
  destruct d; intros H; try congruence; simpl; apply parse_digits_uint.
Qed.

Lemma parse_digits_zeros n s b :
  parse_digits (zeros n ++ s) 0 b
  = parse_digits s 0 (b || negb (Nat.eqb n 0))%bool.
Proof.
  revert b. induction n as [|n IH]; intros b; simpl.
  - now rewrite orb_false_r.
  - rewrite IH. simpl. now rewrite orb_true_r.
Qed.

Lemma str_forall_append p s t :
  str_forall p (s ++ t) = (str_forall p s && str_forall p t)%bool.
Proof. induction s; simpl; [reflexivity|]. now rewrite IHs, andb_assoc. Qed.

Lemma str_forall_impl (p q : ascii -> bool) s :
  (forall x, p x = true -> q x = true) ->
  str_forall p s = true -> str_forall q s = true.
Proof.
  intros H. induction s; simpl; [reflexivity|].
  intros E. apply andb_prop in E. destruct E as [E1 E2].
  now rewrite (H _ E1), IHs.
Qed.

Lemma str_forall_zeros n : str_forall is_digit (zeros n) = true.
Proof. induction n; simpl; auto. Qed.

Lemma str_forall_uint d : str_forall is_digit (NilEmpty.string_of_uint d) = true.
Proof. induction d; simpl; auto. Qed.

Lemma lstrip_no_space s :
  str_forall (fun x => negb (is_space x)) s = true -> lstrip s = s.
Proof.
  destruct s; simpl; [reflexivity|].
  intros E. apply andb_prop in E. destruct E as [E _].
  apply negb_true_iff in E. now rewrite E.
Qed.

Lemma rstrip_no_space s :
  str_forall (fun x => negb (is_space x)) s = true -> rstrip s = s.
Proof.
  induction s; simpl; [reflexivity|].
  intros E. apply andb_prop in E. destruct E as [E1 E2].
  apply negb_true_iff in E1. rewrite (IHs E2), E1. now destruct s.
Qed.

Lemma numeral_char_no_space x :
  is_numeral_char x = true -> negb (is_space x) = true.
Proof.
  destruct x as [[|] [|] [|] [|] [|] [|] [|] [|]]; vm_compute; congruence.
Qed.

Lemma digit_is_numeral x : is_digit x = true -> is_numeral_char x = true.
Proof. unfold is_numeral_char. now intros ->. Qed.

(** [int] of a string of digits that starts with a digit. *)
Lemma py_int_digits s :
  s <> "" ->
  str_forall is_digit s = true ->
  py_int s = match parse_digits s 0 false with
             | Some z => Ok z
             | None => Raise ValueError
             end.
Proof.
  intros Hne Hd. unfold py_int.
  rewrite lstrip_no_space, rstrip_no_space;
    try (eapply str_forall_impl; [|exact Hd];
         intros x Hx; apply numeral_char_no_space, digit_is_numeral, Hx).
  destruct s as [|x s]; [congruence|].
  simpl in Hd. apply andb_prop in Hd. destruct Hd as [Hx _].
  destruct x as [[|] [|] [|] [|] [|] [|] [|] [|]]; try discriminate Hx; reflexivity.
Qed.

(** [int] of a minus sign followed by digits. *)
Lemma py_int_minus s :
  str_forall is_digit s = true ->
  py_int (String "-" s)
  = match parse_digits s 0 false with
    | Some z => Ok (- z)
    | None => Raise ValueError
    end.
Proof.
  intros Hd. unfold py_int.
  assert (Hs : str_forall (fun x => negb (is_space x)) (String "-" s) = true).
  { simpl. eapply str_forall_impl; [|exact Hd].
    intros x Hx. apply numeral_char_no_space, digit_is_numeral, Hx. }
  rewrite lstrip_no_space, rstrip_no_space by exact Hs.
  destruct (parse_digits s 0 false); reflexivity.
Qed.

Lemma string_of_uint_nonempty d :
  d <> Decimal.Nil -> NilEmpty.string_of_uint d <> "".
Proof. destruct d; simpl; congruence. Qed.

(** Padded digits read back as the number. *)
Lemma py_int_padded n d :
  d <> Decimal.Nil ->
  py_int (zeros n ++ NilEmpty.string_of_uint d) = Ok (Z.of_uint d).
Proof.
  intros Hd. rewrite py_int_digits.
  - rewrite parse_digits_zeros, parse_digits_uint_nonnil by exact Hd.
    now rewrite uint_value_zero.
  - intros E. destruct n; simpl in E; [|discriminate].
    now apply string_of_uint_nonempty in E.
  - now rewrite str_forall_append, str_forall_zeros, str_forall_uint.
Qed.

Lemma py_int_padded_minus n d :
  d <> Decimal.Nil ->
  py_int (String "-" (zeros n ++ NilEmpty.string_of_uint d)) = Ok (- Z.of_uint d).
Proof.
  intros Hd. rewrite py_int_minus.
  - rewrite parse_digits_zeros, parse_digits_uint_nonnil by exact Hd.
    now rewrite uint_value_zero.
  - now rewrite str_forall_append, str_forall_zeros, str_forall_uint.
Qed.

Lemma zfill_digits width d :
  d <> Decimal.Nil ->
  exists n, zfill width (NilEmpty.string_of_uint d)
            = (zeros n ++ NilEmpty.string_of_uint d)%string.
Proof.
  intros Hd. unfold zfill.
  destruct (Nat.leb width (String.length (NilEmpty.string_of_uint d))).
  - now exists O.
  - destruct d; try congruence; simpl; eauto.
Qed.

Lemma zfill_minus width s :
  exists n, zfill width (String "-" s) = String "-" (zeros n ++ s).
Proof.
  unfold zfill. destruct (Nat.leb width (String.length (String "-" s))).
  - now exists O.
  - simpl. eauto.
Qed.

Lemma of_uint_to_uint p : Z.of_uint (Pos.to_uint p) = Zpos p.
Proof. unfold Z.of_uint. now rewrite DecimalPos.Unsigned.of_to. Qed.

Lemma str_of_int_cases i :
  (exists d, d <> Decimal.Nil /\ str_of_int i = NilEmpty.string_of_uint d
             /\ Z.of_uint d = i)
  \/ (exists d, d <> Decimal.Nil
                /\ str_of_int i = String "-" (NilEmpty.string_of_uint d)
                /\ - Z.of_uint d = i).
Proof.
  unfold str_of_int.
  destruct i as [|p|p]; simpl.
  - left. exists (Decimal.D0 Decimal.Nil). repeat split. discriminate.
  - left. exists (Pos.to_uint p).
    pose proof (DecimalPos.Unsigned.to_uint_nonnil p) as Hn.
    split; [exact Hn|]. split; [|apply of_uint_to_uint].
    unfold NilZero.string_of_uint. destruct (Pos.to_uint p); congruence.
  - right. exists (Pos.to_uint p).
    pose proof (DecimalPos.Unsigned.to_uint_nonnil p) as Hn.
    split; [exact Hn|]. split; [|now rewrite of_uint_to_uint].
    unfold NilZero.string_of_uint. destruct (Pos.to_uint p); congruence.
Qed.

Lemma py_int_zfill (width : nat) (i : Z) :
  py_int (zfill width (str_of_int i)) = Ok i.
Proof.
  destruct (str_of_int_cases i) as [[d [Hd [-> Hi]]] | [d [Hd [-> Hi]]]].
  - destruct (zfill_digits width d Hd) as [n ->].
    rewrite py_int_padded by exact Hd. now rewrite Hi.
  - destruct (zfill_minus width (NilEmpty.string_of_uint d)) as [n ->].
    rewrite py_int_padded_minus by exact Hd. now rewrite Hi.
Qed.

Lemma string_append_assoc (a b c : string) :
  ((a ++ b) ++ c = a ++ (b ++ c))%string.
Proof. induction a; simpl; [reflexivity|]. now rewrite IHa. Qed.

Lemma has_char_forall (p : ascii -> bool) ch s :
  p ch = false -> str_forall p s = true -> has_char ch s = false.
Proof.
  intros Hp. induction s as [|x s IH]; simpl; [reflexivity|].
  intros E. apply andb_prop in E. destruct E as [E1 E2].
  rewrite (IH E2), orb_false_r.
  destruct (Ascii.eqb_spec x ch) as [->|]; [congruence|reflexivity].
Qed.

Lemma has_char_append ch s t :
  has_char ch (s ++ t) = (has_char ch s || has_char ch t)%bool.
Proof. induction s; simpl; [reflexivity|]. now rewrite IHs, orb_assoc. Qed.

Lemma basename_no_slash f : has_char "/" f = false -> basename f = f.
Proof. destruct f; [reflexivity|]. intros E. cbn [basename]. now rewrite E. Qed.

(** What follows the last slash of a path is its base name. *)
Lemma basename_append p f :
  has_char "/" f = false -> basename (p ++ String "/" f) = f.
Proof.
  intros Hf. induction p as [|x p IH].
  - change ("" ++ String "/" f)%string with (String "/" f).
    cbn [basename]. cbn [has_char]. rewrite Ascii.eqb_refl. cbn [orb].
    now apply basename_no_slash.
  - change (String x p ++ String "/" f)%string with (String x (p ++ String "/" f)).
    cbn [basename].
    replace (has_char "/" (String x (p ++ String "/" f))) with true; [exact IH|].
    cbn [has_char]. rewrite has_char_append. cbn [has_char].
    rewrite Ascii.eqb_refl. cbn [orb]. now rewrite !orb_true_r.
Qed.

Lemma last_index_none ch s : has_char ch s = false -> last_index ch s = None.
Proof.
  induction s as [|x s IH]; simpl; [reflexivity|].
  intros E. apply orb_false_elim in E. destruct E as [E1 E2].
  now rewrite (IH E2), E1.
Qed.

Lemma last_index_append ch s t :
  has_char ch t = false ->
  last_index ch (s ++ String ch t) = Some (String.length s).
Proof.
  intros Ht. induction s as [|x s IH].
  - cbn [append last_index]. rewrite (last_index_none _ _ Ht).
    now rewrite Ascii.eqb_refl.
  - cbn [append last_index String.length]. now rewrite IH.
Qed.

Lemma substring_append s t : substring 0 (String.length s) (s ++ t) = s.
Proof.
  induction s as [|x s IH]; cbn [append String.length substring].
  - now destruct t.
  - now rewrite IH.
Qed.

Lemma all_char_absent ch s :
  s <> "" -> has_char ch s = false -> all_char ch s = false.
Proof.
  destruct s as [|x s]; [congruence|]. intros _. simpl.
  intros E. apply orb_false_elim in E. destruct E as [E _]. now rewrite E.
Qed.

(** [splitext] cuts at the last dot. *)
Lemma splitext_root_append name ext :
  name <> "" -> has_char "." name = false -> has_char "." ext = false ->
  splitext_root (name ++ String "." ext) = name.
Proof.
  intros Hne Hn He. unfold splitext_root.
  rewrite (last_index_append _ _ _ He), substring_append.
  now rewrite (all_char_absent _ _ Hne Hn).
Qed.

Lemma zfill_str_of_int_shape width i :
  str_forall is_numeral_char (zfill width (str_of_int i)) = true
  /\ zfill width (str_of_int i) <> "".
Proof.
  assert (Hz : forall n, str_forall is_numeral_char (zeros n) = true).
  { intros n. eapply str_forall_impl; [apply digit_is_numeral|apply str_forall_zeros]. }
  assert (Hu : forall d, str_forall is_numeral_char (NilEmpty.string_of_uint d) = true).
  { intros d. eapply str_forall_impl; [apply digit_is_numeral|apply str_forall_uint]. }
  destruct (str_of_int_cases i) as [[d [Hd [-> Hi]]] | [d [Hd [-> Hi]]]].
  - destruct (zfill_digits width d Hd) as [n ->]. split.
    + now rewrite str_forall_append, Hz, Hu.
    + intros E. destruct n; [|discriminate E].
      now apply (string_of_uint_nonempty d Hd).
  - destruct (zfill_minus width (NilEmpty.string_of_uint d)) as [n ->]. split.
    + cbn [str_forall]. now rewrite str_forall_append, Hz, Hu.
    + discriminate.
Qed.

(** The number of a file name [<dir>/<padded number>.<ext>] is read back
    by [int(os.path.splitext(os.path.basename(path))[0])]. *)
Lemma counter_of_path dir ext width i :
  has_char "." ext = false -> has_char "/" ext = false ->
  py_int (splitext_root (basename
    (dir ++ String "/" (zfill width (str_of_int i) ++ String "." ext))))
  = Ok i.
Proof.
  intros He Hs'.
  destruct (zfill_str_of_int_shape width i) as [Hs Hne].
  rewrite basename_append.
  - rewrite splitext_root_append; auto.
    + apply py_int_zfill.
    + now apply (has_char_forall is_numeral_char).
  - rewrite has_char_append. cbn [has_char].
    rewrite (has_char_forall is_numeral_char "/" _ eq_refl Hs), Hs'.
    reflexivity.
Qed.

Lemma resume_counter_path c dir ext width i w :
  has_char "." ext = false -> has_char "/" ext = false ->
  resume_counter c
    (dir ++ String "/" (zfill width (str_of_int i) ++ String "." ext)) w
  = (Ok (set_start_iter i c), w).
Proof.
  intros He Hs. unfold resume_counter, try_except, lift, bind, ret.
  now rewrite counter_of_path.
Qed.

Lemma checkpoint_path_split pre i :
  (pre ++ checkpoint_path i)%string
  = ((pre ++ "checkpoint") ++ String "/" (zfill 6 (str_of_int i) ++ String "." "pt"))%string.
Proof. unfold checkpoint_path. now rewrite string_append_assoc. Qed.

Lemma sample_path_split i :
  sample_path i
  = ("sample" ++ String "/" (zfill 6 (str_of_int i) ++ String "." "png"))%string.
Proof. reflexivity. Qed.


(** X2. Resuming from a checkpoint file that the training loop wrote at
    counter [i], whatever directory the path leads through, sets
    [args.start_iter] to [i]; no [ValueError] is caught and the rest of
    the configuration and the world are unchanged. *)
Theorem resume_reads_checkpoint_counter (c : ctx_t) (pre : string) (i : Z)
    (w : world) :
  resume_counter c (pre ++ checkpoint_path i) w = (Ok (set_start_iter i c), w).
Proof.
  rewrite checkpoint_path_split. now apply resume_counter_path.
Qed.

(** X3. The sample and checkpoint file names determine the counter: two
    different counters never give the same sample file or the same
    checkpoint file, so no pass overwrites the files of another. *)
Theorem file_names_injective (i j : Z) :
  (sample_path i = sample_path j -> i = j)
  /\ (checkpoint_path i = checkpoint_path j -> i = j).
Proof.
  split; intros E.
  - assert (H : py_int (splitext_root (basename (sample_path i)))
                = py_int (splitext_root (basename (sample_path j))))
      by now rewrite E.
    rewrite !sample_path_split, !counter_of_path in H by reflexivity.
    congruence.
  - assert (H : py_int (splitext_root (basename ("" ++ checkpoint_path i)))
                = py_int (splitext_root (basename ("" ++ checkpoint_path j))))
      by now rewrite E.
    rewrite !checkpoint_path_split, !counter_of_path in H by reflexivity.
    congruence.
Qed.

(** ** The loop counters after a resume *)

Lemma train_loop_run c step (w : world) :
  1 <= a_start_iter (args c) ->
  train_loop c step w
  = (for_each (map (fun idx => idx + a_start_iter (args c))
                 (py_range (a_iter (args c) - a_start_iter (args c) + 1))) step ;;
     if ((1 <? a_start_iter (args c)) && (0 <? a_iter (args c)))%bool
     then print "Done!" else ret tt) w.
Proof.
  intros Hs. set (n := a_iter (args c)). set (s := a_start_iter (args c)).
  fold s in Hs. unfold train_loop. fold n.
  destruct (Z.leb_spec n 0) as [Hn|Hn].
  - replace (py_range n) with (@nil Z)
      by (unfold py_range; now replace (Z.to_nat n) with O by lia).
    replace (py_range (n - s + 1)) with (@nil Z)
      by (unfold py_range; now replace (Z.to_nat (n - s + 1)) with O by lia).
    destruct (Z.ltb_spec 0 n); [lia|]. rewrite andb_false_r. reflexivity.
  - set (k := Z.max 0 (n - s + 1)).
    replace (py_range (n - s + 1)) with (py_range k)
      by (unfold py_range, k; f_equal; f_equal; lia).
    rewrite (py_range_split n k) by (unfold k; lia).
    rewrite (for_break_split _ _ _ (fun idx => step (idx + s)) (print "Done!")).
    + unfold bind. rewrite for_each_map.
      destruct (for_each (py_range k) (fun a => step (a + s)) w) as [[[]|e] w1];
        [|reflexivity].
      destruct (Z.ltb_spec 0 n); [|lia]. rewrite andb_true_r.
      destruct (Z.ltb_spec 1 s) as [Hlt|Hge].
      * replace (Z.to_nat (n - k)) with (S (Z.to_nat (n - k - 1)))
          by (unfold k; lia).
        reflexivity.
      * replace (Z.to_nat (n - k)) with O by (unfold k; lia). reflexivity.
    + intros a w' Hin. apply py_range_spec in Hin.
      apply loop_pass_continue. fold n s. unfold k in Hin. lia.
    + intros a w' Hhd. apply loop_pass_break. fold n s.
      destruct (Z.to_nat (n - k)) as [|m] eqn:Em; simpl in Hhd; [discriminate|].
      inversion Hhd; subst a. unfold k in *. lia.
Qed.

(** X4. The loop after a resume.  With [args.start_iter >= 1] the body
    runs for the counters [start_iter, start_iter + 1, ..., args.iter],
    in this order and for no other: the pass for [i = args.iter] is run,
    which a start from 0 never does, and nothing is run when
    [start_iter > args.iter].  "Done!" is printed afterwards exactly
    when [start_iter > 1] and [args.iter > 0]. *)
Theorem resumed_loop_counters (c : ctx_t) :
  1 <= a_start_iter (args c) ->
  exists l : list Z,
    (forall step (w : world),
       train_loop c step w
       = (for_each l step ;;
          if ((1 <? a_start_iter (args c)) && (0 <? a_iter (args c)))%bool
          then print "Done!" else ret tt) w)
    /\ l = map (fun k => a_start_iter (args c) + Z.of_nat k)
             (seq 0 (Z.to_nat (a_iter (args c) - a_start_iter (args c) + 1)))
    /\ (forall i, In i l <-> a_start_iter (args c) <= i <= a_iter (args c)).
Proof.
  intros Hs.
  exists (map (fun idx => idx + a_start_iter (args c))
            (py_range (a_iter (args c) - a_start_iter (args c) + 1))).
  split; [|split].
  - intros step w. now apply train_loop_run.
  - unfold py_range. rewrite map_map. apply map_ext. intros k. lia.
  - intros i. rewrite in_map_iff. split.
    + intros [idx [<- Hin]]. apply py_range_spec in Hin. lia.
    + intros Hi. exists (i - a_start_iter (args c)). split; [lia|].
      apply py_range_spec. lia.
Qed.

(** ** [accumulate] that fails *)

Lemma for_each_app {W A} (l1 l2 : list A) (body : A -> M W unit) w :
  for_each (l1 ++ l2) body w = (for_each l1 body ;; for_each l2 body) w.
Proof.
  revert w. induction l1 as [|a l1 IH]; intros w; simpl.
  - reflexivity.
  - unfold bind in *. destruct (body a w) as [[[]|e] w1]; [|reflexivity].
    rewrite IH. reflexivity.
Qed.

(** The receiver is scaled before the argument is looked up. *)
Lemma accumulate_key_missing model1 model2 decay k (w : world) p1 :
  model1 <> model2 ->
  lookup k (nets (tw w) model1) = Some p1 ->
  lookup k (nets (tw w) model2) = None ->
  accumulate_key model1 model2 decay k w
  = (Raise (KeyError k),
     set_net model1
       (update k (set_data (mul_ (data p1) decay)) (nets (tw w) model1)) w).
Proof.
  intros Hne H1 H2.
  unfold accumulate_key, get_param, put_data, modify, bind.
  rewrite H1. rewrite nets_set_net_other by congruence. now rewrite H2.
Qed.

Lemma accumulate_stops model1 model2 decay pre k post (w : world) e :
  model1 <> model2 ->
  NoDup (pre ++ k :: post) ->
  keys (nets (tw w) model1) = pre ++ k :: post ->
  (forall k', In k' pre ->
     exists p1 p2,
       lookup k' (nets (tw w) model1) = Some p1
       /\ lookup k' (nets (tw w) model2) = Some p2
       /\ List.length (data p1) = List.length (data p2)) ->
  (forall (w1 : world) p1,
     lookup k (nets (tw w) model1) = Some p1 ->
     lookup k (nets (tw w1) model1) = Some p1 ->
     nets (tw w1) model2 = nets (tw w) model2 ->
     accumulate_key model1 model2 decay k w1
     = (Raise e,
        set_net model1
          (update k (set_data (mul_ (data p1) decay)) (nets (tw w1) model1)) w1)) ->
  exists w',
    accumulate model1 model2 decay w = (Raise e, w')
    /\ (forall n, n <> model1 -> nets (tw w') n = nets (tw w) n)
    /\ keys (nets (tw w') model1) = keys (nets (tw w) model1)
    /\ (forall k' p1 p2, In k' pre ->
          lookup k' (nets (tw w) model1) = Some p1 ->
          lookup k' (nets (tw w) model2) = Some p2 ->
          lookup k' (nets (tw w') model1)
          = Some (set_data (ema_data decay (data p1) (data p2)) p1))
    /\ (forall p1, lookup k (nets (tw w) model1) = Some p1 ->
          lookup k (nets (tw w') model1)
          = Some (set_data (mul_ (data p1) decay) p1))
    /\ (forall k', In k' post ->
          lookup k' (nets (tw w') model1) = lookup k' (nets (tw w) model1)).
Proof.
  intros Hne Hnd Hk Hpre Hfail.
  assert (Hnd1 : NoDup pre) by (apply NoDup_app_remove_r in Hnd; exact Hnd).
  assert (Hk1 : ~ In k pre).
  { intros Hin. apply NoDup_remove_2 in Hnd. apply Hnd.
    apply in_or_app. now left. }
  assert (Hpost : forall k', In k' post -> k' <> k /\ ~ In k' pre).
  { intros k' Hin. split.
    - intros ->. apply NoDup_remove_2 in Hnd. apply Hnd.
      apply in_or_app. now right.
    - intros Hin'. apply NoDup_remove_1 in Hnd.
      revert Hnd Hin Hin'. clear. induction pre as [|a pre IH]; simpl; [tauto|].
      intros Hnd Hin [->|Hin'].
      + inversion Hnd; subst. apply H1. apply in_or_app. now right.
      + inversion Hnd; subst. now apply IH. }
  destruct (accumulate_keys_ok _ _ decay _ Hne Hnd1 w Hpre)
    as [w1 [E1 [_ [N1 [K1 [L1 O1]]]]]].
  assert (Hin : lookup k (nets (tw w) model1) <> None).
  { apply lookup_in_keys. rewrite Hk. apply in_or_app. right. now left. }
  destruct (lookup k (nets (tw w) model1)) as [p1|] eqn:H1; [|congruence].
  assert (H1' : lookup k (nets (tw w1) model1) = Some p1)
    by (rewrite O1; assumption).
  pose proof (Hfail w1 p1 eq_refl H1' (N1 model2 (not_eq_sym Hne))) as E2.
  eexists. split; [|split; [|split; [|split; [|split]]]].
  - unfold accumulate, bind, gets. rewrite Hk, for_each_app.
    rewrite (bind_run _ _ _ _ _ E1). simpl. apply bind_raises. exact E2.
  - intros n Hn. rewrite nets_set_net_other by assumption. now apply N1.
  - rewrite nets_set_net_same, keys_update. exact K1.
  - intros k' q1 q2 Hin' Q1 Q2. rewrite nets_set_net_same.
    rewrite lookup_update_other by (intros ->; contradiction).
    now apply L1.
  - intros q1 Q. inversion Q; subst q1.
    rewrite nets_set_net_same, lookup_update_same, H1'. reflexivity.
  - intros k' Hin'. destruct (Hpost k' Hin') as [Hk' Hnp].
    rewrite nets_set_net_same, lookup_update_other by congruence.
    now apply O1.
Qed.

(** X5. [accumulate(model1, model2, decay)] when a parameter name [k]
    of [model1] is missing in [model2]: the call raises [KeyError] for
    [k] and leaves [model1] half updated.  The parameters before [k]
    hold the moving average, [k] itself has already been multiplied by
    [decay] (the receiver [par1[k].data.mul_(decay)] is evaluated before
    [par2[k]] is looked up), the parameters after [k] and all other
    networks are untouched. *)
Theorem accumulate_missing_key model1 model2 decay pre k post (w : world) :
  model1 <> model2 ->
  NoDup (pre ++ k :: post) ->
  keys (nets (tw w) model1) = pre ++ k :: post ->
  (forall k', In k' pre ->
     exists p1 p2,
       lookup k' (nets (tw w) model1) = Some p1
       /\ lookup k' (nets (tw w) model2) = Some p2
       /\ List.length (data p1) = List.length (data p2)) ->
  lookup k (nets (tw w) model2) = None ->
  exists w',
    accumulate model1 model2 decay w = (Raise (KeyError k), w')
    /\ (forall n, n <> model1 -> nets (tw w') n = nets (tw w) n)
    /\ keys (nets (tw w') model1) = keys (nets (tw w) model1)
    /\ (forall k' p1 p2, In k' pre ->
          lookup k' (nets (tw w) model1) = Some p1 ->
          lookup k' (nets (tw w) model2) = Some p2 ->
          lookup k' (nets (tw w') model1)
          = Some (set_data (ema_data decay (data p1) (data p2)) p1))
    /\ (forall p1, lookup k (nets (tw w) model1) = Some p1 ->
          lookup k (nets (tw w') model1)
          = Some (set_data (mul_ (data p1) decay) p1))
    /\ (forall k', In k' post ->
          lookup k' (nets (tw w') model1) = lookup k' (nets (tw w) model1)).
Proof.
  intros Hne Hnd Hk Hpre H2.
  apply accumulate_stops; auto.
  intros w1 p1 _ H1 N. apply accumulate_key_missing; auto. now rewrite N.
Qed.

(** ** Noise *)

Lemma mixing_noise_run batch_n latent_dim prob (w : world) :
  mixing_noise batch_n latent_dim prob w
  = (if Rlt_dec 0 prob then
       let u := random_random (rng (tw w)) in
       if Rlt_dec (fst u) prob then
         let z := randn [2; batch_n; latent_dim] (snd u) in
         (Ok (unbind0 (fst z)), upd_tw (set_rng (snd z)) w)
       else
         let z := randn [batch_n; latent_dim] (snd u) in
         (Ok [fst z], upd_tw (set_rng (snd z)) w)
     else
       let z := randn [batch_n; latent_dim] (rng (tw w)) in
       (Ok [fst z], upd_tw (set_rng (snd z)) w)).
Proof.
  unfold mixing_noise, make_noise_n, make_noise_1, draw, bind, ret.
  destruct (Rlt_dec 0 prob).
  - destruct (random_random (rng (tw w))) as [u rs]. cbn.
    destruct (Rlt_dec u prob); cbn.
    + destruct (randn [2; batch_n; latent_dim] rs); reflexivity.
    + destruct (randn [batch_n; latent_dim] rs); reflexivity.
  - cbn. destruct (randn [batch_n; latent_dim] (rng (tw w))); reflexivity.
Qed.

Lemma mixing_noise_loc batch_n latent_dim prob (w : world) r w' :
  mixing_noise batch_n latent_dim prob w = (r, w') -> loc w' = loc w.
Proof.
  rewrite mixing_noise_run.
  destruct (Rlt_dec 0 prob); cbv zeta;
    [destruct (Rlt_dec _ prob)|]; intros E; inversion E; reflexivity.
Qed.

(** X6. [mixing_noise] never raises and changes nothing but the state
    of the random generators.  For [prob <= 0] it does not call
    [random.random()]: it returns the one tensor of a single
    [torch.randn(batch, latent_dim)] on the state it was called in.  For
    [prob > 0] it draws [u = random.random()] first, and returns the two
    slices of one [torch.randn(2, batch, latent_dim)] when [u < prob],
    one tensor [torch.randn(batch, latent_dim)] otherwise. *)
Theorem mixing_noise_effects batch_n latent_dim prob (w : world) :
  exists zs w',
    mixing_noise batch_n latent_dim prob w = (Ok zs, w')
    /\ same_but_rng w w'
    /\ ((prob <= 0)%R ->
        zs = [fst (randn [batch_n; latent_dim] (rng (tw w)))]
        /\ rng (tw w') = snd (randn [batch_n; latent_dim] (rng (tw w))))
    /\ ((0 < prob)%R ->
        let u := random_random (rng (tw w)) in
        if Rlt_dec (fst u) prob
        then zs = unbind0 (fst (randn [2; batch_n; latent_dim] (snd u)))
             /\ rng (tw w') = snd (randn [2; batch_n; latent_dim] (snd u))
        else zs = [fst (randn [batch_n; latent_dim] (snd u))]
             /\ rng (tw w') = snd (randn [batch_n; latent_dim] (snd u))).
Proof.
  rewrite mixing_noise_run.
  destruct (Rlt_dec 0 prob) as [Hp|Hp]; cbv zeta.
  - destruct (Rlt_dec (fst (random_random (rng (tw w)))) prob) as [Hu|Hu];
      do 2 eexists; (split; [reflexivity|]); (split; [repeat split|]);
      (split; [intros; lra|]); intros _;
      destruct (Rlt_dec (fst (random_random (rng (tw w)))) prob);
      try contradiction; split; reflexivity.
  - do 2 eexists. split; [reflexivity|]. split; [repeat split|].
    split; [intros _; split; reflexivity | intros; lra].
Qed.

(** ** A run without conditioning *)

Lemma data_of_set_flag b (m : module) :
  data_of (map (fun kp => (fst kp, set_flag b (snd kp))) m) = data_of m.
Proof. unfold data_of. rewrite map_map. reflexivity. Qed.

Lemma data_of_set_grad g (m : module) :
  data_of (map (fun kp => (fst kp, set_grad g (snd kp))) m) = data_of m.
Proof. unfold data_of. rewrite map_map. reflexivity. Qed.

Ltac untrained_solver :=
  let w := fresh "w" in
  let n := fresh "n" in
  intros w; intros;
  match goal with
  | H : untrained _ _ _ _ w |- _ =>
      let H1 := fresh "H" in
      destruct H as [H1 [? [? ?]]]; repeat split; cbn -[data_of]; auto;
      intros n; specialize (H1 n); destruct n; cbn -[data_of];
      rewrite ?data_of_set_flag, ?data_of_set_grad; assumption
  end.

Lemma untrained_before_d_step D og od o c :
  preserves (untrained D og od o) (before_d_step c).
Proof. pres untrained_solver. Qed.

Lemma untrained_train_prologue D og od o c :
  preserves (untrained D og od o) (train_prologue c).
Proof. pres untrained_solver. Qed.

Lemma d_forward_value c x (w w' : world) r :
  d_forward c x w = (Ok r, w') ->
  conditioned c = false -> fst (fst r) = PyInt 0.
Proof.
  intros H Hc. unfold d_forward in H. ok_inv H.
  apply ret_inv in H. destruct H as [R _]. inversion R; subst r.
  rewrite Hc. reflexivity.
Qed.

Lemma before_d_step_value c (w w' : world) x :
  before_d_step c w = (Ok x, w') ->
  conditioned c = false -> fst (fst (snd x)) = PyInt 0.
Proof.
  intros H Hc. unfold before_d_step in H. ok_inv H.
  apply ret_inv in H. destruct H as [R _]. inversion R; subst x. cbn [snd].
  eapply d_forward_value; eassumption.
Qed.

Lemma train_iter_unconditioned_raises D og od o c i (w : world) :
  conditioned c = false ->
  untrained D og od o w ->
  exists e w', train_iter c i w = (Raise e, w') /\ untrained D og od o w'.
Proof.
  intros Hc Hu. unfold train_iter.
  destruct (before_d_step c w) as [[x|e] w1] eqn:E1.
  - pose proof (untrained_before_d_step D og od o c _ _ _ Hu E1) as Hu1.
    rewrite (bind_run _ _ _ _ _ E1).
    rewrite (before_d_step_value _ _ _ _ E1 Hc).
    exists (AttributeError "backward"), w1. split; [reflexivity | exact Hu1].
  - exists e, w1. split; [now apply bind_raises|].
    exact (untrained_before_d_step D og od o c _ _ _ Hu E1).
Qed.

Lemma untrained_print D og od o s (w : world) :
  untrained D og od o w ->
  untrained D og od (o ++ [EvPrint s]) (snd (print s w)).
Proof.
  intros [H1 [H2 [H3 H4]]]. repeat split; cbn; auto. now rewrite H4.
Qed.

Lemma train_loop_unconditioned D og od o c (w : world) r w' :
  conditioned c = false ->
  untrained D og od o w ->
  train_loop c (train_iter c) w = (r, w') ->
  (untrained D og od o w'
   \/ (r = Ok tt /\ untrained D og od (o ++ [EvPrint "Done!"]) w'))
  /\ (r = Ok tt ->
      a_iter (args c) <= 0 \/ a_iter (args c) < a_start_iter (args c)).
Proof.
  intros Hc Hu. unfold train_loop, py_range.
  destruct (Z.to_nat (a_iter (args c))) as [|m] eqn:Em.
  - simpl. intros E. inversion E; subst. split; [now left|]. intros _. left. lia.
  - cbn [seq map for_break]. unfold loop_pass at 1. cbn [Z.of_nat].
    destruct (Z.gtb_spec (0 + a_start_iter (args c)) (a_iter (args c))) as [Hgt|Hle].
    + intros E. cbn in E. inversion E; subst. split.
      * right. split; [reflexivity|]. now apply (untrained_print D og od o "Done!" w).
      * intros _. right. lia.
    + destruct (train_iter_unconditioned_raises D og od o c
                  (0 + a_start_iter (args c)) w Hc Hu) as [e [w1 [E1 Hu1]]].
      unfold bind. rewrite E1. intros E. inversion E; subst.
      split; [now left | discriminate].
Qed.

(** X7. A run of [train] with [conditioned] false trains and writes
    nothing, from whatever world it starts and however it ends: the
    data of every parameter of every network and both optimizers are
    as before the call, and the only output there can be is the line
    "Done!".  The call returns only when the loop body is never
    entered, that is when [args.iter <= 0] or
    [args.start_iter > args.iter]; every pass through the loop body
    raises, from whatever world it starts, and leaves the data of every
    parameter as it was. *)
Theorem unconditioned_trains_nothing c (w : world) r w' :
  conditioned c = false ->
  train c w = (r, w') ->
  (forall n, data_of (nets (tw w') n) = data_of (nets (tw w) n))
  /\ g_optim (tw w') = g_optim (tw w)
  /\ d_optim (tw w') = d_optim (tw w)
  /\ (out (tw w') = out (tw w)
      \/ (r = Ok tt /\ out (tw w') = out (tw w) ++ [EvPrint "Done!"]))
  /\ (r = Ok tt ->
      a_iter (args c) <= 0 \/ a_iter (args c) < a_start_iter (args c))
  /\ (forall i w1 r1 w2,
        train_iter c i w1 = (r1, w2) ->
        exists e, r1 = Raise e
                  /\ forall n, data_of (nets (tw w2) n) = data_of (nets (tw w1) n)).
Proof.
  intros Hc E.
  set (D := fun n => data_of (nets (tw w) n)).
  assert (Hu : untrained D (g_optim (tw w)) (d_optim (tw w)) (out (tw w)) w)
    by (repeat split).
  unfold train in E.
  assert (Hfinal :
    (untrained D (g_optim (tw w)) (d_optim (tw w)) (out (tw w)) w'
     \/ (r = Ok tt
         /\ untrained D (g_optim (tw w)) (d_optim (tw w))
              (out (tw w) ++ [EvPrint "Done!"]) w'))
    /\ (r = Ok tt ->
        a_iter (args c) <= 0 \/ a_iter (args c) < a_start_iter (args c))).
  { unfold bind at 1 in E. cbn [modify] in E.
    set (w0 := upd_loc (fun _ => no_locals) w) in E.
    assert (Hu0 : untrained D (g_optim (tw w)) (d_optim (tw w)) (out (tw w)) w0)
      by (repeat split).
    unfold bind in E.
    destruct (train_prologue c w0) as [[[]|e] w1] eqn:E1.
    - pose proof (untrained_train_prologue _ _ _ _ c _ _ _ Hu0 E1) as Hu1.
      eapply train_loop_unconditioned; eassumption.
    - inversion E; subst. split; [left|discriminate].
      exact (untrained_train_prologue _ _ _ _ c _ _ _ Hu0 E1). }
  destruct Hfinal as [Hf Hr].
  assert (Hd : forall o, untrained D (g_optim (tw w)) (d_optim (tw w)) o w' ->
             (forall n, data_of (nets (tw w') n) = data_of (nets (tw w) n))
             /\ g_optim (tw w') = g_optim (tw w)
             /\ d_optim (tw w') = d_optim (tw w) /\ out (tw w') = o).
  { intros o [H1 [H2 [H3 H4]]]. auto. }
  split; [|split; [|split; [|split; [|split]]]].
  - destruct Hf as [Hf|[_ Hf]]; apply Hd in Hf; tauto.
  - destruct Hf as [Hf|[_ Hf]]; apply Hd in Hf; tauto.
  - destruct Hf as [Hf|[_ Hf]]; apply Hd in Hf; tauto.
  - destruct Hf as [Hf|[Hr' Hf]]; apply Hd in Hf; [left|right]; tauto.
  - exact Hr.
  - intros i w1 r1 w2 E1.
    destruct (train_iter_unconditioned_raises
                (fun n => data_of (nets (tw w1) n)) (g_optim (tw w1))
                (d_optim (tw w1)) (out (tw w1)) c i w1 Hc)
      as [e [w3 [E3 [H3 _]]]]; [repeat split|].
    rewrite E3 in E1. inversion E1; subst. eauto.
Qed.

(** ** The pass up to the generator step *)

Lemma train_iter_split c i (w : world) :
  train_iter c i w = (train_iter_prefix c i ;; after_g_step c i) w.
Proof.
  unfold train_iter, train_iter_prefix, bind.
  destruct (before_d_step c w) as [[x|e] w1]; [|reflexivity].
  destruct (d_backward_step (fst (fst (snd x))) w1) as [[[]|e] w2]; [|reflexivity].
  destruct (between_steps c i x w2) as [[g|e] w3]; [|reflexivity].
  destruct (g_backward_step g w3) as [[[]|e] w4]; reflexivity.
Qed.

Lemma preserves_train_iter_prefix (I : world -> Prop) c i :
  preserves I (before_d_step c) ->
  (forall d, preserves I (d_backward_step d)) ->
  (forall x, preserves I (between_steps c i x)) ->
  (forall g, preserves I (g_backward_step g)) ->
  preserves I (train_iter_prefix c i).
Proof.
  intros P1 P2 P3 P4. unfold train_iter_prefix.
  apply preserves_bind; [exact P1|intros x].
  apply preserves_bind; [apply P2|intros _].
  apply preserves_bind; [apply P3|intros g]. apply P4.
Qed.

Lemma out_train_iter_prefix o c i :
  preserves (fun w : world => out (tw w) = o) (train_iter_prefix c i).
Proof.
  apply preserves_train_iter_prefix; intros;
    pres ltac:(intros; cbn; assumption).
Qed.

Lemma data_train_iter_prefix d c i :
  preserves (data_fixed GEma d) (train_iter_prefix c i).
Proof.
  apply preserves_train_iter_prefix; intros; pres data_solver.
Qed.

Lemma after_g_step_zero c i (w : world) :
  a_g_reg_every (args c) = 0 ->
  after_g_step c i w = (Raise ZeroDivisionError, w).
Proof.
  intros H. unfold after_g_step, g_regularize_test, py_mod, bind. now rewrite H.
Qed.

(** X8. With [args.g_reg_every = 0] no pass through the loop body
    returns: [i % args.g_reg_every] on line 352, whose value is not even
    used, raises [ZeroDivisionError] as soon as [g_optim.step()] is
    done.  So both networks are trained, but whatever the pass does
    before, it logs and saves nothing and the average [g_ema] does not
    move. *)
Theorem g_reg_every_zero c i (w : world) r w' :
  a_g_reg_every (args c) = 0 ->
  optims_wf w ->
  train_iter c i w = (r, w') ->
  (exists e, r = Raise e)
  /\ out (tw w') = out (tw w)
  /\ data_of (nets (tw w') GEma) = data_of (nets (tw w) GEma)
  /\ (forall w4, train_iter_prefix c i w = (Ok tt, w4) ->
        r = Raise ZeroDivisionError /\ w' = w4).
Proof.
  intros Hg [Wg Wd] E. rewrite train_iter_split in E. unfold bind in E.
  assert (D0 : data_fixed GEma (data_of (nets (tw w) GEma)) w).
  { repeat split; eapply registered_unregistered; eauto; discriminate. }
  destruct (train_iter_prefix c i w) as [[[]|e] w4] eqn:E4.
  - rewrite after_g_step_zero in E by exact Hg. inversion E; subst.
    pose proof (out_train_iter_prefix _ c i _ _ _ eq_refl E4) as O.
    pose proof (data_train_iter_prefix _ c i _ _ _ D0 E4) as [Dd _].
    split; [eauto|]. split; [exact O|]. split; [exact Dd|].
    intros w5 R. inversion R; subst. now split.
  - inversion E; subst.
    pose proof (out_train_iter_prefix _ c i _ _ _ eq_refl E4) as O.
    pose proof (data_train_iter_prefix _ c i _ _ _ D0 E4) as [Dd _].
    split; [eauto|]. split; [exact O|]. split; [exact Dd|].
    intros w5 R. discriminate R.
Qed.

(** X9. With [conditioned] true and a [text_encoder_type] that is
    neither "rnn" nor "transformer", neither branch assigns
    [sample_words_embs], and [train] raises [UnboundLocalError] for it
    on line 206, before the loop: one batch has been taken from the
    loader, no network, no optimizer and no output has been touched. *)
Theorem unknown_encoder_type c (w : world) :
  conditioned c = true ->
  text_encoder_type c <> "rnn" ->
  text_encoder_type c <> "transformer" ->
  exists w',
    train c w = (Raise (UnboundLocalError "sample_words_embs"), w')
    /\ nets (tw w') = nets (tw w)
    /\ training (tw w') = training (tw w)
    /\ g_optim (tw w') = g_optim (tw w)
    /\ d_optim (tw w') = d_optim (tw w)
    /\ out (tw w') = out (tw w)
    /\ loader_pos (tw w') = S (loader_pos (tw w)).
Proof.
  destruct c as [a ty cond rk wi bs lam ne]. simpl. intros -> H1 H2.
  apply String.eqb_neq in H1, H2.
  unfold train, train_prologue, sample_inputs, assign, next_batch, draw, bind,
    ret, gets, modify, read_local.
  cbn [text_encoder_type conditioned args]. rewrite H1, H2.
  run_cases; eexists; repeat split.
Qed.

(** ** What a pass consumes *)

Ltac field_solver := intros; cbn; assumption.

Lemma loader_after_fetch k c (x : act * act * act * act) :
  preserves (fun w : world => loader_pos (tw w) = k)
    (encode_captions c (fst (fst (fst x))) (snd (fst (fst x))) (snd (fst x)) ;;
     d <- d_forward c (fst (fst (fst x))) ;;
     ret (fst (fst (fst x)), snd x, d)).
Proof. pres field_solver. Qed.

Lemma before_d_step_loader c (w w1 : world) x :
  before_d_step c w = (Ok x, w1) ->
  loader_pos (tw w1) = S (loader_pos (tw w)).
Proof.
  intros H. unfold before_d_step in H.
  apply bind_ok_inv in H. destruct H as [b [wa [Ea H]]].
  unfold fetch_batch, next_batch, bind, ret in Ea. inversion Ea; subst b wa.
  eapply (loader_after_fetch (S (loader_pos (tw w))) c); [|exact H].
  reflexivity.
Qed.

Lemma loader_rest k c i x d g :
  preserves (fun w : world => loader_pos (tw w) = k) (d_backward_step d)
  /\ preserves (fun w : world => loader_pos (tw w) = k) (between_steps c i x)
  /\ preserves (fun w : world => loader_pos (tw w) = k) (g_backward_step g)
  /\ preserves (fun w : world => loader_pos (tw w) = k) (after_g_step c i).
Proof. repeat split; pres field_solver. Qed.

Lemma g_optim_rest o c i x d :
  preserves (fun w : world => g_optim (tw w) = o) (before_d_step c)
  /\ preserves (fun w : world => g_optim (tw w) = o) (d_backward_step d)
  /\ preserves (fun w : world => g_optim (tw w) = o) (between_steps c i x)
  /\ preserves (fun w : world => g_optim (tw w) = o) (after_g_step c i).
Proof. repeat split; pres field_solver. Qed.

Lemma g_backward_step_optim g (w w' : world) :
  g_backward_step g w = (Ok tt, w') ->
  g_optim (tw w')
  = mk_optimizer (param_ids (g_optim (tw w))) (adam_tick (ostate (g_optim (tw w)))).
Proof.
  unfold g_backward_step, backward, g_optim_step, bind, modify.
  intros E. injection E as <-. reflexivity.
Qed.

Lemma d_ids_train_iter l c i :
  preserves (fun w : world => param_ids (d_optim (tw w)) = l) (train_iter c i).
Proof. pres field_solver. Qed.

Lemma mode_train_iter n b c i :
  n <> GEma ->
  preserves (fun w : world => training (tw w) n = b) (train_iter c i).
Proof.
  intros Hn.
  pres ltac:(intros; cbn; try rewrite (net_eqb_false _ _ Hn); assumption).
Qed.

Lemma train_iter_consumes c i (w : world) r w' :
  train_iter c i w = (r, w') ->
  (r = Ok tt ->
     loader_pos (tw w') = S (loader_pos (tw w))
     /\ g_optim (tw w')
        = mk_optimizer (param_ids (g_optim (tw w)))
            (adam_tick (ostate (g_optim (tw w)))))
  /\ param_ids (d_optim (tw w')) = param_ids (d_optim (tw w))
  /\ (forall n, n <> GEma -> training (tw w') n = training (tw w) n).
Proof.
  intros H. split; [|split].
  - intros ->. apply train_iter_ok_inv in H.
    destruct H as [x [w1 [w2 [g [w3 [w4 [E1 [E2 [E3 [E4 E5]]]]]]]]]].
    split.
    + destruct (loader_rest (S (loader_pos (tw w))) c i x (fst (fst (snd x))) g)
        as [P2 [P3 [P4 P5]]].
      eapply P5; [|exact E5]. eapply P4; [|exact E4].
      eapply P3; [|exact E3]. eapply P2; [|exact E2].
      eapply before_d_step_loader; exact E1.
    + destruct (g_optim_rest (g_optim (tw w)) c i x (fst (fst (snd x))))
        as [P1 [P2 [P3 _]]].
      assert (G3 : g_optim (tw w3) = g_optim (tw w)).
      { eapply P3; [|exact E3]. eapply P2; [|exact E2].
        eapply P1; [|exact E1]. reflexivity. }
      destruct (g_optim_rest (g_optim (tw w4)) c i x (fst (fst (snd x))))
        as [_ [_ [_ P5]]].
      rewrite (P5 _ _ _ eq_refl E5).
      rewrite (g_backward_step_optim _ _ _ E4), G3. reflexivity.
  - exact (d_ids_train_iter _ c i _ _ _ eq_refl H).
  - intros n Hn. exact (mode_train_iter n _ c i Hn _ _ _ eq_refl H).
Qed.

(** X10. What a pass through the loop body that returns has consumed:
    exactly one batch of the loader, and exactly one step of [g_optim],
    which still holds the parameters it was built with.  However the
    pass ends, [d_optim] holds the parameters it was built with, and
    the train/eval mode of every network but [g_ema] is as before. *)
Theorem pass_accounting c i (w : world) r w' :
  train_iter c i w = (r, w') ->
  (r = Ok tt ->
     loader_pos (tw w') = S (loader_pos (tw w))
     /\ g_optim (tw w')
        = mk_optimizer (param_ids (g_optim (tw w)))
            (adam_tick (ostate (g_optim (tw w)))))
  /\ param_ids (d_optim (tw w')) = param_ids (d_optim (tw w))
  /\ (forall n, n <> GEma -> training (tw w') n = training (tw w) n).
Proof. apply train_iter_consumes. Qed.

(** ** Loading a checkpoint *)

Lemma load_param_fst sd kp : fst (load_param sd kp) = fst kp.
Proof.
  unfold load_param. destruct (lookup (fst kp) sd); [|reflexivity].
  now destruct (Nat.eqb _ _).
Qed.

Lemma lookup_map_load sd (m : module) k :
  lookup k (map (load_param sd) m)
  = option_map (fun p => snd (load_param sd (k, p))) (lookup k m).
Proof.
  induction m as [|[k' p] m IH]; [reflexivity|].
  change (map (load_param sd) ((k', p) :: m))
    with (load_param sd (k', p) :: map (load_param sd) m).
  pose proof (load_param_fst sd (k', p)) as F.
  destruct (load_param sd (k', p)) as [k1 p1] eqn:E.
  cbn in F. subst k1. cbn [lookup].
  destruct (String.eqb_spec k k') as [->|Hne]; [|exact IH].
  cbn [option_map]. now rewrite E.
Qed.

Lemma lookup_In {A} k (m : list (string * A)) a :
  lookup k m = Some a -> In (k, a) m.
Proof.
  induction m as [|[k' a'] m IH]; simpl; [discriminate|].
  destruct (String.eqb_spec k k') as [->|Hne].
  - intros E. inversion E. now left.
  - intros E. right. now apply IH.
Qed.

Lemma fits_lookup sd (m : module) k p :
  state_dict_fits sd m = true ->
  lookup k m = Some p ->
  exists t, lookup k sd = Some t /\ List.length t = List.length (data p).
Proof.
  unfold state_dict_fits. intros F H. apply andb_prop in F. destruct F as [F _].
  rewrite forallb_forall in F. specialize (F _ (lookup_In _ _ _ H)).
  cbn [fst snd] in F. destruct (lookup k sd) as [t|]; [|discriminate].
  exists t. split; [reflexivity|]. now apply Nat.eqb_eq.
Qed.

(** After a load that fits, every parameter holds the tensor of its
    name in the state dict and has kept its flag and gradient. *)
Lemma loaded_param sd (m : module) k p' :
  state_dict_fits sd m = true ->
  lookup k (map (load_param sd) m) = Some p' ->
  exists p, lookup k m = Some p
            /\ lookup k sd = Some (data p')
            /\ requires_grad_flag p' = requires_grad_flag p
            /\ grad p' = grad p.
Proof.
  intros F H. rewrite lookup_map_load in H.
  destruct (lookup k m) as [p|] eqn:E; [|discriminate].
  destruct (fits_lookup _ _ _ _ F E) as [t [Ht Hl]].
  cbn in H. unfold load_param in H. cbn [fst snd] in H. rewrite Ht in H.
  apply Nat.eqb_eq in Hl. rewrite Hl in H. cbn in H. inversion H; subst p'.
  exists p. repeat split. exact Ht.
Qed.

Lemma load_state_dict_run n sd (w : world) :
  load_state_dict n sd w
  = (if state_dict_fits sd (nets (tw w) n) then Ok tt
     else Raise (RuntimeError "load_state_dict"),
     set_net n (map (load_param sd) (nets (tw w) n)) w).
Proof.
  unfold load_state_dict, bind, gets, modify.
  now destruct (state_dict_fits sd (nets (tw w) n)).
Qed.

Lemma keys_map_load sd (m : module) : keys (map (load_param sd) m) = keys m.
Proof.
  unfold keys. rewrite map_map. apply map_ext. intros kp. apply load_param_fst.
Qed.

Lemma ckpt_entry_run ck k (w : world) :
  ckpt_entry ck k w
  = (match lookup k ck with Some sd => Ok sd | None => Raise (KeyError k) end, w).
Proof. unfold ckpt_entry. now destruct (lookup k ck). Qed.

(** The world after [resume] when every entry is there and fits. *)
Lemma resume_run c path (w : world) sg sd se og od :
  lookup "g" (torch_load_ckpt path) = Some sg ->
  lookup "d" (torch_load_ckpt path) = Some sd ->
  lookup "g_ema" (torch_load_ckpt path) = Some se ->
  lookup "g_optim" (torch_load_ckpt path) = Some og ->
  lookup "d_optim" (torch_load_ckpt path) = Some od ->
  state_dict_fits sg (nets (tw w) Generator) = true ->
  state_dict_fits sd (nets (tw w) Discriminator) = true ->
  state_dict_fits se (nets (tw w) GEma) = true ->
  exists w',
    resume c (Some path) w
    = (Ok (match py_int (splitext_root (basename path)) with
           | Ok z => set_start_iter z c
           | Raise _ => c
           end), w')
    /\ nets (tw w') Generator = map (load_param sg) (nets (tw w) Generator)
    /\ nets (tw w') Discriminator = map (load_param sd) (nets (tw w) Discriminator)
    /\ nets (tw w') GEma = map (load_param se) (nets (tw w) GEma)
    /\ nets (tw w') TextEncoder = nets (tw w) TextEncoder
    /\ nets (tw w') ImageEncoder = nets (tw w) ImageEncoder
    /\ g_optim (tw w')
       = mk_optimizer (param_ids (g_optim (tw w)))
           (adam_load_state (ostate (g_optim (tw w))) og)
    /\ d_optim (tw w')
       = mk_optimizer (param_ids (d_optim (tw w)))
           (adam_load_state (ostate (d_optim (tw w))) od)
    /\ out (tw w') = out (tw w) ++ [EvPrint ("load model: " ++ path)]
    /\ training (tw w') = training (tw w)
    /\ loc w' = loc w.
Proof.
  intros Hg Hd He Hog Hod Fg Fd Fe.
  unfold resume. unfold bind.
  unfold print, emit, modify at 1.
  rewrite resume_counter_run.
  rewrite ckpt_entry_run, Hg, load_state_dict_run. cbn [nets tw upd_tw set_out].
  rewrite Fg.
  rewrite ckpt_entry_run, Hd, load_state_dict_run.
  rewrite nets_set_net_other by discriminate. cbn [nets tw upd_tw set_out].
  rewrite Fd.
  rewrite ckpt_entry_run, He, load_state_dict_run.
  rewrite !nets_set_net_other by discriminate. cbn [nets tw upd_tw set_out].
  rewrite Fe.
  rewrite ckpt_entry_run, Hog. unfold modify at 1.
  rewrite ckpt_entry_run, Hod. unfold modify, ret.
  eexists. split; [reflexivity|].
  repeat split.
Qed.

(** X11. Resuming from a checkpoint whose five entries are there and
    whose state dicts fit the networks (the names agree and the sizes
    agree) returns, and afterwards every parameter of the generator,
    the discriminator and [g_ema] holds the tensor stored under its
    name, with its [requires_grad] flag and gradient as before; no
    parameter is added or removed; the encoders are untouched; both
    optimizers keep their parameters and take the stored state; the
    only output is the line "load model: <path>". *)
Theorem checkpoint_restored c path (w : world) sg sd se og od :
  lookup "g" (torch_load_ckpt path) = Some sg ->
  lookup "d" (torch_load_ckpt path) = Some sd ->
  lookup "g_ema" (torch_load_ckpt path) = Some se ->
  lookup "g_optim" (torch_load_ckpt path) = Some og ->
  lookup "d_optim" (torch_load_ckpt path) = Some od ->
  state_dict_fits sg (nets (tw w) Generator) = true ->
  state_dict_fits sd (nets (tw w) Discriminator) = true ->
  state_dict_fits se (nets (tw w) GEma) = true ->
  exists c' w',
    resume c (Some path) w = (Ok c', w')
    /\ (forall n s,
          In (n, s) [(Generator, sg); (Discriminator, sd); (GEma, se)] ->
          keys (nets (tw w') n) = keys (nets (tw w) n)
          /\ forall k p',
               lookup k (nets (tw w') n) = Some p' ->
               exists p, lookup k (nets (tw w) n) = Some p
                         /\ lookup k s = Some (data p')
                         /\ requires_grad_flag p' = requires_grad_flag p
                         /\ grad p' = grad p)
    /\ nets (tw w') TextEncoder = nets (tw w) TextEncoder
    /\ nets (tw w') ImageEncoder = nets (tw w) ImageEncoder
    /\ g_optim (tw w')
       = mk_optimizer (param_ids (g_optim (tw w)))
           (adam_load_state (ostate (g_optim (tw w))) og)
    /\ d_optim (tw w')
       = mk_optimizer (param_ids (d_optim (tw w)))
           (adam_load_state (ostate (d_optim (tw w))) od)
    /\ out (tw w') = out (tw w) ++ [EvPrint ("load model: " ++ path)].
Proof.
  intros Hg Hd He Hog Hod Fg Fd Fe.
  destruct (resume_run c path w sg sd se og od Hg Hd He Hog Hod Fg Fd Fe)
    as [w' [E [Ng [Nd [Ne [Nt [Ni [Og [Od [O _]]]]]]]]]].
  do 2 eexists. split; [exact E|].
  split; [|repeat split; assumption].
  intros n s [H|[H|[H|[]]]]; inversion H; subst n s.
  - rewrite Ng. split; [apply keys_map_load|]. intros k p'. now apply loaded_param.
  - rewrite Nd. split; [apply keys_map_load|]. intros k p'. now apply loaded_param.
  - rewrite Ne. split; [apply keys_map_load|]. intros k p'. now apply loaded_param.
Qed.

(** X12. Resuming from a checkpoint without the entry "g_ema", as one
    saved without the averaged generator, raises [KeyError] for it on
    line 692, when the generator and the discriminator have already
    been overwritten with the checkpoint: [g_ema] and both optimizers
    are as before. *)
Theorem checkpoint_without_g_ema c path (w : world) sg sd :
  lookup "g" (torch_load_ckpt path) = Some sg ->
  lookup "d" (torch_load_ckpt path) = Some sd ->
  lookup "g_ema" (torch_load_ckpt path) = None ->
  state_dict_fits sg (nets (tw w) Generator) = true ->
  state_dict_fits sd (nets (tw w) Discriminator) = true ->
  exists w',
    resume c (Some path) w = (Raise (KeyError "g_ema"), w')
    /\ nets (tw w') Generator = map (load_param sg) (nets (tw w) Generator)
    /\ nets (tw w') Discriminator = map (load_param sd) (nets (tw w) Discriminator)
    /\ nets (tw w') GEma = nets (tw w) GEma
    /\ g_optim (tw w') = g_optim (tw w)
    /\ d_optim (tw w') = d_optim (tw w).
Proof.
  intros Hg Hd He Fg Fd.
  unfold resume. unfold bind.
  unfold print, emit, modify at 1.
  rewrite resume_counter_run.
  rewrite ckpt_entry_run, Hg, load_state_dict_run. cbn [nets tw upd_tw set_out].
  rewrite Fg.
  rewrite ckpt_entry_run, Hd, load_state_dict_run.
  rewrite nets_set_net_other by discriminate. cbn [nets tw upd_tw set_out].
  rewrite Fd.
  rewrite ckpt_entry_run, He.
  eexists. split; [reflexivity|]. repeat split.
Qed.

(** ** The augmentation probability *)

Lemma ada_fixed_train_iter p c i :
  a_augment (args c) = false \/ a_augment_p (args c) <> 0%R ->
  preserves (fun w : world => l_ada_aug_p (loc w) = Some p) (train_iter c i).
Proof.
  intros H.
  pres ltac:(intros; cbn; first [assumption | exfalso; intuition congruence]).
Qed.

Lemma train_prologue_ada c (w : world) r w' :
  train_prologue c w = (r, w') ->
  l_ada_aug_p (loc w')
  = Some (if Rgt_dec (a_augment_p (args c)) 0 then a_augment_p (args c) else 0%R).
Proof.
  unfold train_prologue, assign. rewrite !bind_modify. 
  set (p := if Rgt_dec (a_augment_p (args c)) 0 then a_augment_p (args c) else 0%R).
  intros E.
  assert (P : preserves (fun w : world => l_ada_aug_p (loc w) = Some p)
                (modify (upd_loc (set_r_t_stat 0)) ;;
                 (if a_augment (args c) then
                    if Req_dec_T (a_augment_p (args c)) 0 then
                      modify (upd_loc (set_ada_augment
                        (ada_new (a_ada_target (args c)) (a_ada_length (args c)) 8)))
                    else ret tt
                  else ret tt) ;;
                 sample_inputs c)).
  { pres ltac:(intros; cbn; assumption). }
  eapply P; [|exact E]. reflexivity.
Qed.

(** X13. Without adaptive augmentation, that is with [args.augment]
    off or with a fixed [args.augment_p] other than 0, the probability
    [ada_aug_p] is a constant of the run: the prologue sets it to
    [args.augment_p] if that is positive and to 0 otherwise, every pass
    through the loop body leaves it as it is, however the pass ends, and
    so it has this value when [train] ends. *)
Theorem ada_aug_p_constant c :
  a_augment (args c) = false \/ a_augment_p (args c) <> 0%R ->
  (forall p i (w : world) r w',
     l_ada_aug_p (loc w) = Some p ->
     train_iter c i w = (r, w') ->
     l_ada_aug_p (loc w') = Some p)
  /\ (forall (w : world) r w',
        train c w = (r, w') ->
        l_ada_aug_p (loc w')
        = Some (if Rgt_dec (a_augment_p (args c)) 0
                then a_augment_p (args c) else 0%R)).
Proof.
  intros H. split.
  - intros p i w r w' Hp E. exact (ada_fixed_train_iter p c i H _ _ _ Hp E).
  - intros w r w' E. unfold train in E. rewrite bind_modify in E.
    unfold bind in E.
    destruct (train_prologue c (upd_loc (fun _ => no_locals) w))
      as [[[]|e] w1] eqn:E1.
    + pose proof (train_prologue_ada _ _ _ _ E1) as A.
      assert (P : preserves
                    (fun w : world => l_ada_aug_p (loc w)
                       = Some (if Rgt_dec (a_augment_p (args c)) 0
                               then a_augment_p (args c) else 0%R))
                    (train_loop c (train_iter c))).
      { unfold train_loop. apply preserves_for_break. intros idx.
        unfold loop_pass. cbv zeta.
        destruct (_ >? _).
        - pres ltac:(intros; cbn; assumption).
        - apply preserves_bind; [apply ada_fixed_train_iter; exact H|].
          intros _. apply preserves_ret. }
      exact (P _ _ _ A E).
    + inversion E; subst. exact (train_prologue_ada _ _ _ _ E1).
Qed.

(** ** The output of a pass *)

Lemma quiet_train_iter o c i :
  rank c <> 0 ->
  preserves (fun w : world => out (tw w) = o) (train_iter c i).
Proof.
  intros Hr.
  pres ltac:(intros; cbn;
             first [ assumption
                   | exfalso;
                     match goal with
                     | Hb : (rank _ =? 0) = true |- _ =>
                         apply Z.eqb_eq in Hb; contradiction
                     end ]).
Qed.

Lemma reduced_value_ok_inv lr k (w : world) v w' :
  reduced_value lr k w = (Ok v, w') ->
  w' = w /\ exists t, lookup k lr = Some (PyTensor t) /\ v = item (mean t).
Proof.
  unfold reduced_value. destruct (lookup k lr) as [[z|t]|]; intros E;
    inversion E; subst. eauto.
Qed.

Lemma save_sample_image c i (w w' : world) :
  save_sample c i w = (Ok tt, w') ->
  nets (tw w') = nets (tw w) /\ loc w' = loc w
  /\ training (tw w') GEma = false
  /\ exists z nrow,
       l_sample_z (loc w) = Some z
       /\ 0 <= a_n_sample (args c)
       /\ int_pow_half (a_n_sample (args c)) = Some nrow
       /\ if conditioned c
          then exists se,
                 l_sample_sent_emb (loc w) = Some se
                 /\ out (tw w')
                    = out (tw w)
                      ++ [EvSaveImage
                            (generator_forward (nets (tw w) GEma) false [cat1 z se])
                            (sample_path i) nrow]
          else out (tw w')
               = out (tw w)
                 ++ [EvSaveImage (generator_forward (nets (tw w) GEma) false [z])
                       (sample_path i) nrow].
Proof.
  intros H. unfold save_sample in H.
  apply bind_ok_inv in H. destruct H as [[] [w1 [E1 H]]].
  apply modify_inv in E1. destruct E1 as [_ ->].
  apply bind_ok_inv in H. destruct H as [z [w2 [E2 H]]].
  apply read_local_ok_inv in E2. destruct E2 as [Hz ->].
  apply bind_ok_inv in H. destruct H as [enc [w3 [E3 H]]].
  apply bind_ok_inv in H. destruct H as [img [w4 [E4 H]]].
  apply gets_inv in E4. destruct E4 as [Himg ->].
  apply bind_ok_inv in H. destruct H as [nrow [w5 [E5 H]]].
  destruct (Z.ltb_spec (a_n_sample (args c)) 0) as [|Hn]; [discriminate|].
  destruct (int_pow_half (a_n_sample (args c))) as [nr|] eqn:Hnr;
    [|discriminate].
  apply ret_inv in E5. destruct E5 as [R ->]. inversion R; subst nrow; clear R.
  apply emit_inv in H. destruct H as [_ ->].
  destruct (conditioned c).
  - apply bind_ok_inv in E3. destruct E3 as [se [w6 [E6 E3]]].
    apply read_local_ok_inv in E6. destruct E6 as [Hse ->].
    apply ret_inv in E3. destruct E3 as [R ->]. inversion R; subst enc; clear R.
    inversion Himg; subst img. cbn in *.
    repeat split. exists z, nr. split; [exact Hz|]. split; [exact Hn|].
    split; [reflexivity|]. exists se. split; [exact Hse|].
    reflexivity.
  - apply ret_inv in E3. destruct E3 as [R ->]. inversion R; subst enc; clear R.
    inversion Himg; subst img. cbn in *.
    repeat split. exists z, nr. split; [exact Hz|]. split; [exact Hn|].
    split; reflexivity.
Qed.

Lemma sample_inputs_fixed z se c i :
  preserves (fun w : world => l_sample_z (loc w) = z
                              /\ l_sample_sent_emb (loc w) = se)
    (train_iter c i).
Proof. pres ltac:(intros; cbn; assumption). Qed.

Lemma report_block_output c i (w w' : world) :
  report_block c i w = (Ok tt, w') ->
  rank c = 0 ->
  nets (tw w') = nets (tw w) /\ loc w' = loc w
  /\ exists de wl sl,
       out (tw w')
       = out (tw w) ++ [de] ++ wl ++ sl
         ++ (if i mod 10000 =? 0
             then [EvTorchSave checkpoint_keys (checkpoint_path i)] else [])
       /\ description_of w de
       /\ (if (wandb_imported c && a_wandb (args c))%bool
           then exists e, wl = [e] /\ wandb_record_of w e
           else wl = [])
       /\ (if i mod 100 =? 0
           then exists e, sl = [e] /\ sample_of c i w' e
           else sl = []).
Proof.
  intros H Hr. unfold report_block in H. cbv zeta in H.
  apply bind_ok_inv in H. destruct H as [ld [w0 [E0 H]]].
  apply read_local_ok_inv in E0. destruct E0 as [Hld ->].
  apply bind_ok_inv in H. destruct H as [vd [w1 [E1 H]]].
  apply reduced_value_ok_inv in E1. destruct E1 as [-> [td [Ld ->]]].
  apply bind_ok_inv in H. destruct H as [vg [w2 [E2 H]]].
  apply reduced_value_ok_inv in E2. destruct E2 as [-> [tg [Lg ->]]].
  apply bind_ok_inv in H. destruct H as [vr [w3 [E3 H]]].
  apply reduced_value_ok_inv in E3. destruct E3 as [-> [tr [Lr ->]]].
  apply bind_ok_inv in H. destruct H as [vreal [w4 [E4 H]]].
  apply reduced_value_ok_inv in E4. destruct E4 as [-> [treal [Lreal ->]]].
  apply bind_ok_inv in H. destruct H as [vfake [w5 [E5 H]]].
  apply reduced_value_ok_inv in E5. destruct E5 as [-> [tfake [Lfake ->]]].
  apply bind_ok_inv in H. destruct H as [vs [w6 [E6 H]]].
  apply reduced_value_ok_inv in E6. destruct E6 as [-> [ts [Ls ->]]].
  rewrite Hr in H. cbn [Z.eqb] in H.
  apply bind_ok_inv in H. destruct H as [[] [wa [Ea H]]].
  apply emit_inv in Ea. destruct Ea as [_ ->].
  apply bind_ok_inv in H. destruct H as [[] [wb [Eb H]]].
  apply bind_ok_inv in H. destruct H as [[] [wc [Ec H]]].
  (* the wandb record *)
  assert (Hb : nets (tw wb) = nets (tw w) /\ loc wb = loc w
               /\ training (tw wb) = training (tw w)
               /\ exists wl,
                    out (tw wb)
                    = out (tw w)
                      ++ [EvSetDescription (item (mean td)) (item (mean tg))
                            (item (mean tr)) (item (mean ts))] ++ wl
                    /\ (if (wandb_imported c && a_wandb (args c))%bool
                        then exists e, wl = [e] /\ wandb_record_of w e
                        else wl = [])).
  { destruct (wandb_imported c && a_wandb (args c))%bool.
    - unfold ada_aug_p_local in Eb.
      apply bind_ok_inv in Eb. destruct Eb as [p [wp [Ep Eb]]].
      apply read_local_ok_inv in Ep. destruct Ep as [Hp ->].
      apply bind_ok_inv in Eb. destruct Eb as [rt [wr [Er Eb]]].
      apply read_local_ok_inv in Er. destruct Er as [Hrt ->].
      apply emit_inv in Eb. destruct Eb as [_ ->]. cbn.
      repeat split. eexists. rewrite <- app_assoc. split; [reflexivity|].
      eexists. split; [reflexivity|].
      exists ld, td, tg, tr, treal, tfake, p, rt. repeat split; assumption.
    - apply ret_inv in Eb. destruct Eb as [_ ->]. cbn.
      repeat split. exists []. split; [reflexivity|reflexivity]. }
  destruct Hb as [Nb [Lb [Tb [wl [Ob Wl]]]]].
  (* the sample *)
  assert (Hc : nets (tw wc) = nets (tw wb) /\ loc wc = loc wb
               /\ exists sl,
                    out (tw wc) = out (tw wb) ++ sl
                    /\ (if i mod 100 =? 0
                        then exists e, sl = [e] /\ sample_of c i wc e
                        else sl = [])).
  { destruct (i mod 100 =? 0).
    - apply save_sample_image in Ec.
      destruct Ec as [Nc [Lc [Tc [z [nrow [Hz [Hn [Hnr Hs]]]]]]]].
      repeat split; auto.
      destruct (conditioned c) eqn:Hcond.
      + destruct Hs as [se [Hse Ho]]. eexists. split; [exact Ho|].
        eexists. split; [reflexivity|]. exists z, nrow.
        rewrite Lc, Nc, Hcond.
        repeat split; auto. exists se. split; [exact Hse|reflexivity].
      + eexists. split; [exact Hs|].
        eexists. split; [reflexivity|]. exists z, nrow.
        rewrite Lc, Nc, Hcond.
        repeat split; auto.
    - apply ret_inv in Ec. destruct Ec as [_ ->].
      repeat split. exists []. now rewrite app_nil_r. }
  destruct Hc as [Nc [Lc [sl [Oc Sl]]]].
  (* the checkpoint *)
  assert (Hd : nets (tw w') = nets (tw wc) /\ loc w' = loc wc
               /\ training (tw w') = training (tw wc)
               /\ out (tw w')
                  = out (tw wc)
                    ++ (if i mod 10000 =? 0
                        then [EvTorchSave checkpoint_keys (checkpoint_path i)]
                        else [])).
  { destruct (i mod 10000 =? 0).
    - unfold ada_aug_p_local in H.
      apply bind_ok_inv in H. destruct H as [p [wp [Ep H]]].
      apply read_local_ok_inv in Ep. destruct Ep as [Hp ->].
      apply emit_inv in H. destruct H as [_ ->]. cbn. repeat split.
    - apply ret_inv in H. destruct H as [_ ->]. repeat split.
      now rewrite app_nil_r. }
  destruct Hd as [Nd [Ld' [Td Od]]].
  split; [congruence|]. split; [congruence|].
  eexists. exists wl, sl. split; [|split; [|split]].
  - rewrite Od, Oc, Ob. rewrite <- !app_assoc. reflexivity.
  - exists ld, td, tg, tr, ts. repeat split; assumption.
  - exact Wl.
  - destruct (i mod 100 =? 0); [|exact Sl].
    destruct Sl as [e [-> [z [nrow [Hz [Ht [Hn [Hnr Hs]]]]]]]].
    exists e. split; [reflexivity|].
    exists z, nrow. rewrite Ld', Nd, Td. repeat split; auto.
Qed.

(** ** The files of a pass *)

(** C7. However a pass through the loop body for the counter [i] ends,
    what it adds to the output contains a file only on rank 0, and that
    file is the sample [sample/<i>.png] with [i % 100 == 0] or the
    checkpoint [checkpoint/<i>.pt] with [i % 10000 == 0], where [<i>]
    is [str(i).zfill(6)], at least six characters long; the checkpoint
    has the keys g, d, g_ema, g_optim, d_optim, args and ada_aug_p.  A
    pass that returns on rank 0 writes exactly the sample when
    [i % 100 == 0], then exactly the checkpoint when [i % 10000 == 0].
    The sample is the image that [g_ema], in evaluation mode and with
    the parameters it has at the end of the pass, makes of the fixed
    [sample_z] of the prologue (joined with the fixed [sample_sent_emb]
    when [conditioned]), laid out in rows of
    [int(args.n_sample ** 0.5)]. *)
Theorem files_written c i (w : world) r w' :
  train_iter c i w = (r, w') ->
  exists evs,
    out (tw w') = out (tw w) ++ evs
    /\ (forall e, In e evs -> is_file_write e = true ->
          rank c = 0
          /\ ((exists img nrow, e = EvSaveImage img (sample_path i) nrow
                                /\ i mod 100 = 0)
              \/ (e = EvTorchSave checkpoint_keys (checkpoint_path i)
                  /\ i mod 10000 = 0)))
    /\ (rank c <> 0 -> filter is_file_write evs = [])
    /\ (r = Ok tt -> rank c = 0 ->
        exists sl,
          filter is_file_write evs
          = sl ++ (if i mod 10000 =? 0
                   then [EvTorchSave checkpoint_keys (checkpoint_path i)]
                   else [])
          /\ (if i mod 100 =? 0
              then exists e, sl = [e] /\ sample_of c i w' e
              else sl = []))
    /\ sample_path i = ("sample/" ++ zfill 6 (str_of_int i) ++ ".png")%string
    /\ checkpoint_path i
       = ("checkpoint/" ++ zfill 6 (str_of_int i) ++ ".pt")%string
    /\ (6 <= String.length (zfill 6 (str_of_int i)))%nat
    /\ checkpoint_keys
       = ["g"; "d"; "g_ema"; "g_optim"; "d_optim"; "args"; "ada_aug_p"].
Proof.
  intros H.
  destruct (out_train_iter (out (tw w)) c i w r w') as [evs [E F]].
  { exists []. split; [now rewrite app_nil_r | constructor]. }
  { exact H. }
  exists evs. split; [exact E|].
  assert (Hall : forall e, In e evs -> is_file_write e = true ->
            rank c = 0
            /\ ((exists img nrow, e = EvSaveImage img (sample_path i) nrow
                                  /\ i mod 100 = 0)
                \/ (e = EvTorchSave checkpoint_keys (checkpoint_path i)
                    /\ i mod 10000 = 0))).
  { intros e Hin. rewrite Forall_forall in F. exact (F e Hin). }
  split; [exact Hall|]. split; [|split].
  - intros Hr. clear E F. induction evs as [|e evs IH]; [reflexivity|]. simpl.
    destruct (is_file_write e) eqn:Ef.
    + destruct (Hall e (or_introl eq_refl) Ef) as [H0 _]. contradiction.
    + apply IH. intros e' Hin. apply Hall. now right.
  - intros -> Hr. apply out_before_report in H. destruct H as [wr [O R]].
    destruct (report_block_output c i wr w' R Hr)
      as [_ [_ [de [wl [sl [Ho [Hd [Hw Hs]]]]]]]].
    rewrite O, E in Ho. apply app_inv_head in Ho. subst evs.
    exists sl. split; [|exact Hs].
    destruct Hd as [ld [td [tg [tr [ts [_ [_ [_ [_ [_ ->]]]]]]]]]].
    assert (Fw : filter is_file_write wl = []).
    { destruct (wandb_imported c && a_wandb (args c))%bool; [|now subst wl].
      destruct Hw as [e [-> [? [? [? [? [? [? [? [? He]]]]]]]]]].
      destruct He as [_ [_ [_ [_ [_ [_ [_ [_ ->]]]]]]]]. reflexivity. }
    assert (Fs : filter is_file_write sl = sl).
    { destruct (i mod 100 =? 0); [|now subst sl].
      destruct Hs as [e [-> [z [nrow [_ [_ [_ [_ He]]]]]]]].
      destruct (conditioned c).
      - destruct He as [se [_ ->]]. reflexivity.
      - subst e. reflexivity. }
    cbn [app filter is_file_write]. rewrite !filter_app, Fw, Fs. cbn [app].
    destruct (i mod 10000 =? 0); reflexivity.
  - repeat split. rewrite zfill_length. lia.
Qed.

(** X14. The output of a pass through the loop body.  On a rank other
    than 0 a pass writes nothing, however it ends.  On rank 0 a pass
    that returns writes, in this order: the description of the progress
    bar with the reduced losses d, g, r1 and sent; the wandb record,
    exactly when wandb was imported and [args.wandb] is set; when
    [i % 100 == 0] the sample, which is the image that [g_ema], in
    evaluation mode and after the update of its average in this pass,
    makes of the fixed [sample_z] of the prologue (joined with the
    fixed [sample_sent_emb] when [conditioned]), in rows of
    [int(args.n_sample ** 0.5)], a number that the floating-point
    arithmetic of the machine gives and that is left open here; when
    [i % 10000 == 0] the checkpoint.  It prints nothing.  A pass in
    which [args.n_sample] is negative, or too large for a double, and
    [i % 100 == 0] does not return: see [save_sample]. *)
Theorem pass_output c i (w : world) r w' :
  train_iter c i w = (r, w') ->
  (rank c <> 0 -> out (tw w') = out (tw w))
  /\ l_sample_z (loc w') = l_sample_z (loc w)
  /\ l_sample_sent_emb (loc w') = l_sample_sent_emb (loc w)
  /\ (r = Ok tt -> rank c = 0 ->
      exists de wl sl,
        out (tw w')
        = out (tw w) ++ [de] ++ wl ++ sl
          ++ (if i mod 10000 =? 0
              then [EvTorchSave checkpoint_keys (checkpoint_path i)] else [])
        /\ description_of w' de
        /\ (if (wandb_imported c && a_wandb (args c))%bool
            then exists e, wl = [e] /\ wandb_record_of w' e
            else wl = [])
        /\ (if i mod 100 =? 0
            then exists e, sl = [e] /\ sample_of c i w' e
            else sl = [])).
Proof.
  intros H. split; [|split; [|split]].
  - intros Hr. exact (quiet_train_iter _ c i Hr _ _ _ eq_refl H).
  - exact (proj1 (sample_inputs_fixed _ _ c i _ _ _ (conj eq_refl eq_refl) H)).
  - exact (proj2 (sample_inputs_fixed _ _ c i _ _ _ (conj eq_refl eq_refl) H)).
  - intros -> Hr. apply out_before_report in H. destruct H as [wr [O R]].
    destruct (report_block_output c i wr w' R Hr)
      as [N [L [de [wl [sl [Ho [Hd [Hw Hs]]]]]]]].
    exists de, wl, sl. rewrite <- O. split; [exact Ho|]. split; [|split].
    + destruct Hd as [ld [td [tg [tr [ts Hd]]]]].
      exists ld, td, tg, tr, ts. now rewrite L.
    + destruct (wandb_imported c && a_wandb (args c))%bool; [|exact Hw].
      destruct Hw as [e [-> [ld [td [tg [tr [treal [tfake [p [rt Hw]]]]]]]]]].
      exists e. split; [reflexivity|].
      exists ld, td, tg, tr, treal, tfake, p, rt. now rewrite L.
    + exact Hs.
Qed.

(** ** [str.replace] *)

Lemma replace_skip old new s t :
  replace_from old new (String.length s) (s ++ t) = replace_from old new O t.
Proof.
  induction s as [|x s IH]; [reflexivity|].
  cbn [String.length append replace_from]. exact IH.
Qed.

Lemma prefix_append old s : String.prefix old (old ++ s) = true.
Proof.
  induction old as [|a o IH]; cbn [append String.prefix].
  - now destruct s.
  - destruct (ascii_dec a a); [exact IH|congruence].
Qed.

Lemma replace_head old new s :
  old <> "" ->
  replace_from old new O (old ++ s) = (new ++ replace_from old new O s)%string.
Proof.
  destruct old as [|a o]; [congruence|]. intros _.
  change (String a o ++ s)%string with (String a (o ++ s)).
  cbn [replace_from].
  change (String a (o ++ s)) with (String a o ++ s)%string.
  rewrite prefix_append.
  cbn [String.length]. rewrite Nat.sub_1_r. cbn [Nat.pred].
  now rewrite replace_skip.
Qed.

Lemma prefix_false old s :
  substring 0 (String.length old) s <> old -> String.prefix old s = false.
Proof.
  intros H. destruct (String.prefix old s) eqn:E; [|reflexivity].
  apply prefix_correct in E. contradiction.
Qed.

Lemma replace_absent old new s :
  (forall k, substring k (String.length old) s <> old) ->
  replace_from old new O s = s.
Proof.
  induction s as [|x s IH]; intros H; [reflexivity|].
  cbn [replace_from]. rewrite (prefix_false _ _ (H O)).
  f_equal. apply IH. intros k. exact (H (S k)).
Qed.

Lemma replace_first old new pre post :
  old <> "" ->
  (forall k, (k < String.length pre)%nat ->
     substring k (String.length old) (pre ++ old ++ post) <> old) ->
  replace_from old new O (pre ++ old ++ post)
  = (pre ++ new ++ replace_from old new O post)%string.
Proof.
  intros Hne. induction pre as [|x pre IH]; intros H.
  - cbn [append]. now apply replace_head.
  - change (String x pre ++ old ++ post)%string
      with (String x (pre ++ old ++ post)) in *.
    cbn [replace_from].
    rewrite (prefix_false _ _ (H O (Nat.lt_0_succ _))).
    cbn [append]. f_equal. apply IH. intros k Hk.
    apply (H (S k)). cbn [String.length]. lia.
Qed.

(** ** Parameters without gradient *)

Lemma step_param_lookup_other st ns id n k :
  id <> (n, k) ->
  lookup k (step_param st ns id n) = lookup k (ns n).
Proof.
  intros Hne. unfold step_param.
  destruct (lookup (snd id) (ns (fst id))) as [p|]; [|reflexivity].
  destruct (grad p); [|reflexivity].
  destruct (net_eqb_spec' n (fst id)) as [[-> E]|[-> E]]; [|reflexivity].
  subst n. apply lookup_update_other. intros E. apply Hne.
  destruct id; cbn in *. now subst.
Qed.

Lemma step_param_lookup_same st ns n k :
  lookup k (step_param st ns (n, k) n)
  = option_map (stepped st (n, k)) (lookup k (ns n)).
Proof.
  unfold step_param, stepped. cbn [fst snd].
  destruct (lookup k (ns n)) as [p|] eqn:E; [|now rewrite E].
  destruct (grad p) eqn:G.
  - rewrite net_eqb_refl, lookup_update_same, E. cbn. now rewrite G.
  - rewrite E. cbn. now rewrite G.
Qed.

Lemma pid_eq_dec (a b : pid) : {a = b} + {a <> b}.
Proof.
  destruct a as [n k], b as [n' k'].
  destruct (net_eqb_spec' n n') as [[_ ->]|[_ Hn]].
  - destruct (String.eqb_spec k k') as [->|Hk]; [now left|right; congruence].
  - right. congruence.
Qed.

Lemma fold_step_untouched st ids ns n k :
  ~ In (n, k) ids ->
  lookup k (fold_left (step_param st) ids ns n) = lookup k (ns n).
Proof.
  revert ns. induction ids as [|id ids IH]; intros ns H; [reflexivity|].
  cbn [fold_left]. rewrite IH by (intros Hin; apply H; now right).
  apply step_param_lookup_other. intros ->. apply H. now left.
Qed.

Lemma fold_step_updated st ids ns n k :
  NoDup ids -> In (n, k) ids ->
  lookup k (fold_left (step_param st) ids ns n)
  = option_map (stepped st (n, k)) (lookup k (ns n)).
Proof.
  intros Hnd. revert ns. induction Hnd as [|id ids Hid Hnd IH]; intros ns Hin.
  - destruct Hin.
  - cbn [fold_left]. destruct Hin as [->|Hin].
    + rewrite fold_step_untouched by exact Hid.
      apply step_param_lookup_same.
    + rewrite IH by exact Hin. f_equal.
      apply step_param_lookup_other. intros ->. contradiction.
Qed.

Lemma fold_step_no_grad st ids ns n k :
  (forall p, lookup k (ns n) = Some p -> grad p = None) ->
  lookup k (fold_left (step_param st) ids ns n) = lookup k (ns n).
Proof.
  revert ns. induction ids as [|id ids IH]; intros ns H; [reflexivity|].
  cbn [fold_left].
  assert (E : lookup k (step_param st ns id n) = lookup k (ns n)).
  { destruct (pid_eq_dec id (n, k)) as [->|Hne].
    - rewrite step_param_lookup_same.
      destruct (lookup k (ns n)) as [p|] eqn:L; [|reflexivity].
      cbn. unfold stepped. now rewrite (H p eq_refl).
    - now apply step_param_lookup_other. }
  rewrite IH; [exact E|]. intros p Hp. apply H. now rewrite <- E.
Qed.

Lemma lookup_map_keyed {A} (f : string -> A -> A) (m : list (string * A)) k :
  lookup k (map (fun kp => (fst kp, f (fst kp) (snd kp))) m)
  = option_map (f k) (lookup k m).
Proof.
  induction m as [|[k' a] m IH]; [reflexivity|].
  cbn [map lookup fst snd].
  destruct (String.eqb_spec k k') as [->|Hne]; [reflexivity|exact IH].
Qed.

(** X16. [path.replace(old, new)] as used on line 652 for the path of
    the image encoder: a path in which [old] does not occur comes back
    unchanged, so that the image encoder would be loaded from the file
    of the text encoder; otherwise the first occurrence of [old] is
    replaced by [new], what precedes it is kept, and the replacement
    goes on behind it. *)
Theorem replace_first_occurrence (old new pre post : string) :
  old <> "" ->
  (forall k, (k < String.length pre)%nat ->
     substring k (String.length old) (pre ++ old ++ post) <> old) ->
  replace_from old new O (pre ++ old ++ post)
  = (pre ++ new ++ replace_from old new O post)%string
  /\ (forall s,
        (forall k, substring k (String.length old) s <> old) ->
        replace_from old new O s = s).
Proof.
  intros Hne H. split.
  - now apply replace_first.
  - intros s Hs. now apply replace_absent.
Qed.

(** X17. [set_grad_none(model, targets)] drops the gradient of the
    parameters of [model] named in [targets] and changes nothing else:
    the other parameters, the data and the flags of all, the other
    networks.  A parameter so treated is skipped by the next
    [optimizer.step()], whichever optimizer it is: the step leaves it
    as it is. *)
Theorem set_grad_none_effect (n : net) (targets : list string) (w : world) :
  exists w',
    set_grad_none n targets w = (Ok tt, w')
    /\ (forall n', n' <> n -> nets (tw w') n' = nets (tw w) n')
    /\ keys (nets (tw w') n) = keys (nets (tw w) n)
    /\ data_of (nets (tw w') n) = data_of (nets (tw w) n)
    /\ (forall k,
          lookup k (nets (tw w') n)
          = if existsb (String.eqb k) targets
            then option_map (set_grad None) (lookup k (nets (tw w) n))
            else lookup k (nets (tw w) n))
    /\ (forall (o : optimizer) k,
          In k targets ->
          lookup k (fst (optim_step o (nets (tw w'))) n)
          = lookup k (nets (tw w') n)).
Proof.
  eexists. split; [reflexivity|].
  assert (L : forall k,
            lookup k (map (fun kp : string * param =>
                             if existsb (String.eqb (fst kp)) targets
                             then (fst kp, set_grad None (snd kp)) else kp)
                        (nets (tw w) n))
            = if existsb (String.eqb k) targets
              then option_map (set_grad None) (lookup k (nets (tw w) n))
              else lookup k (nets (tw w) n)).
  { intros k. induction (nets (tw w) n) as [|[k' p] m IH]; cbn [map lookup fst snd].
    - now destruct (existsb (String.eqb k) targets).
    - destruct (existsb (String.eqb k') targets) eqn:E'; cbn [lookup];
        destruct (String.eqb_spec k k') as [->|Hne]; try exact IH.
      + now rewrite E'.
      + now rewrite E'. }
  split; [|split; [|split; [|split]]].
  - intros n' Hn. now apply nets_set_net_other.
  - rewrite nets_set_net_same. unfold keys. rewrite map_map. apply map_ext.
    intros kp. now destruct (existsb _ targets).
  - rewrite nets_set_net_same. unfold data_of. rewrite map_map. apply map_ext.
    intros kp. now destruct (existsb _ targets).
  - intros k. rewrite nets_set_net_same. apply L.
  - intros o k Hin. unfold optim_step. cbn [fst].
    apply fold_step_no_grad. intros p. rewrite nets_set_net_same, L.
    assert (E : existsb (String.eqb k) targets = true).
    { apply existsb_exists. exists k. split; [exact Hin|apply String.eqb_refl]. }
    rewrite E. destruct (lookup k (nets (tw w) n)); [|discriminate].
    cbn. intros R. now inversion R.
Qed.

(** ** The generator step *)

Lemma lookup_map_backward loss n (m : module) k :
  lookup k (map (backward_param loss n) m)
  = option_map (fun p => snd (backward_param loss n (k, p))) (lookup k m).
Proof.
  induction m as [|[k' p] m IH]; [reflexivity|].
  change (map (backward_param loss n) ((k', p) :: m))
    with (backward_param loss n (k', p) :: map (backward_param loss n) m).
  pose proof (backward_param_fst loss n (k', p)) as F.
  destruct (backward_param loss n (k', p)) as [k1 p1] eqn:E.
  cbn in F. subst k1. cbn [lookup].
  destruct (String.eqb_spec k k') as [->|Hne]; [|exact IH].
  cbn [option_map]. now rewrite E.
Qed.

Lemma lookup_zero_grad (m : module) k :
  lookup k (map (fun kp => (fst kp, set_grad None (snd kp))) m)
  = option_map (set_grad None) (lookup k m).
Proof. apply (lookup_map_keyed (fun _ => set_grad None)). Qed.

(** [loss.backward(); optimizer.step()] on a parameter that asks for a
    gradient and has none: the step is made with the gradient of
    [loss]. *)
Lemma backward_then_step (o : optimizer) ns loss n k p :
  NoDup (param_ids o) -> In (n, k) (param_ids o) ->
  lookup k (ns n) = Some p ->
  requires_grad_flag p = true -> grad p = None ->
  lookup k (fst (optim_step o
                   (fun n0 => map (backward_param loss n0) (ns n0))) n)
  = Some (match param_grad loss (n, k) with
          | Some gr =>
              mk_param (adam_update (ostate o) (n, k) (data p) gr) true (Some gr)
          | None => p
          end).
Proof.
  intros Hnd Hin Hp Hf Hg. unfold optim_step. cbn [fst].
  rewrite fold_step_updated by assumption.
  rewrite lookup_map_backward, Hp. cbn [option_map]. f_equal.
  unfold backward_param. cbn [fst snd]. rewrite Hf.
  destruct (param_grad loss (n, k)) as [gr|]; cbn [snd].
  - rewrite Hg. unfold stepped, set_grad, set_data. cbn. now rewrite Hf.
  - unfold stepped. now rewrite Hg.
Qed.

Ltac gen_data_solver :=
  let w := fresh "w" in
  intros w; intros;
  match goal with
  | H : generator_data _ w |- _ =>
      destruct H as [? ?]; split; cbn -[data_of optim_step];
      rewrite ?data_of_set_flag, ?data_of_set_grad, ?backward_data_of;
      auto
  end.

Lemma gen_data_backward d loss : preserves (generator_data d) (backward loss).
Proof. unfold backward. apply preserves_modify. gen_data_solver. Qed.

Lemma gen_data_d_optim_step d : preserves (generator_data d) d_optim_step.
Proof.
  apply preserves_modify. intros w [H1 H2]. split; cbn -[data_of optim_step]; auto.
  rewrite optim_step_other; auto.
Qed.

#[local] Hint Resolve gen_data_backward gen_data_d_optim_step : pres.

Lemma gen_data_before_d_step d c : preserves (generator_data d) (before_d_step c).
Proof. pres gen_data_solver. Qed.

Lemma gen_data_d_backward_step d l : preserves (generator_data d) (d_backward_step l).
Proof. pres gen_data_solver. Qed.

Lemma gen_data_between_steps d c i x :
  preserves (generator_data d) (between_steps c i x).
Proof. pres gen_data_solver. Qed.

Lemma g_forward_grads c x ml ids (w w' : world) g :
  g_forward c x ml ids w = (Ok g, w') ->
  forall k p, lookup k (nets (tw w') Generator) = Some p -> grad p = None.
Proof.
  intros H. unfold g_forward in H. ok_inv H.
  apply ret_inv in H. destruct H as [_ ->].
  match goal with
  | E : zero_grad Generator _ = _ |- _ =>
      apply modify_inv in E; destruct E as [_ ->]
  end.
  intros k p. cbn. rewrite lookup_zero_grad.
  destruct (lookup k _); [|discriminate]. cbn. intros R. now inversion R.
Qed.

Lemma generator_after_g_step m c i :
  preserves (fun w : world => nets (tw w) Generator = m) (after_g_step c i).
Proof. pres ltac:(intros; cbn; assumption). Qed.

Lemma loss_dict_after_g_forward ld c i g :
  preserves (fun w : world => l_loss_dict (loc w) = ld) (g_backward_step g)
  /\ preserves (fun w : world => l_loss_dict (loc w) = ld) (after_g_step c i).
Proof. split; pres ltac:(intros; cbn; assumption). Qed.

Lemma all_flags_lookup b (m : module) k p :
  all_flags b m -> lookup k m = Some p -> requires_grad_flag p = b.
Proof.
  intros H L. apply lookup_In in L. unfold all_flags in H.
  rewrite Forall_forall in H. exact (H _ L).
Qed.

(** X15. The update of the generator in a pass that returns.  Let
    [g_optim] hold each of its parameters once.  Then every generator
    parameter [k] it holds goes through the pass unchanged up to
    [g_optim.step()], and ends the pass with the data that Adam, in the
    state [g_optim] had at the start of the pass, makes of its old data
    and of the gradient of [g_loss] with respect to [k]; its [.grad] is
    that gradient alone, since [generator.zero_grad()] has dropped what
    the backward passes of the discriminator losses could have left, and
    its [requires_grad] is true.  A parameter that the graph of [g_loss]
    does not reach keeps its data and has no gradient.  [g_loss] is the
    value stored under ["g"] in [loss_dict]. *)
Theorem generator_update c i (w w' : world) k p :
  train_iter c i w = (Ok tt, w') ->
  optims_wf w ->
  NoDup (param_ids (g_optim (tw w))) ->
  In (Generator, k) (param_ids (g_optim (tw w))) ->
  lookup k (nets (tw w) Generator) = Some p ->
  exists g_loss ld,
    l_loss_dict (loc w') = Some ld
    /\ lookup "g" ld = Some (PyTensor g_loss)
    /\ lookup k (nets (tw w') Generator)
       = Some (match param_grad g_loss (Generator, k) with
               | Some gr =>
                   mk_param (adam_update (ostate (g_optim (tw w)))
                               (Generator, k) (data p) gr)
                     true (Some gr)
               | None => mk_param (data p) true None
               end).
Proof.
  intros H [Wg Wd] Hnd Hin Hp.
  apply train_iter_ok_inv in H.
  destruct H as [x [w1 [w2 [g [w3 [w4 [E1 [E2 [E3 [E4 E5]]]]]]]]]].
  (* the generator up to the generator step *)
  assert (D0 : generator_data (data_of (nets (tw w) Generator)) w).
  { split; [reflexivity|].
    eapply registered_unregistered; [exact Wd|discriminate]. }
  pose proof (gen_data_before_d_step _ c _ _ _ D0 E1) as D1.
  pose proof (gen_data_d_backward_step _ _ _ _ _ D1 E2) as D2.
  pose proof (gen_data_between_steps _ c i x _ _ _ D2 E3) as [D3 _].
  destruct (lookup_data_of _ (nets (tw w3) Generator) k p (eq_sym D3) Hp)
    as [p3 [Hp3 Hd3]].
  destruct (g_optim_rest (g_optim (tw w)) c i x (fst (fst (snd x))))
    as [P1 [P2 [P3 _]]].
  assert (G3 : g_optim (tw w3) = g_optim (tw w)).
  { eapply P3; [|exact E3]. eapply P2; [|exact E2].
    eapply P1; [|exact E1]. reflexivity. }
  destruct (between_steps_ok_inv _ _ _ _ _ _ E3) as [wa [ri [wb [_ [_ Ef]]]]].
  pose proof (g_forward_grads _ _ _ _ _ _ _ Ef k p3 Hp3) as Hgrad.
  pose proof (g_forward_flags _ _ _ _ _ _ _ Ef) as [Fg _].
  pose proof (all_flags_lookup _ _ _ _ Fg Hp3) as Hflag.
  destruct (g_forward_ok_inv _ _ _ _ _ _ _ Ef)
    as [noise [fake [se [_ [_ [_ [ld [Hld [Lg _]]]]]]]]].
  (* the step *)
  assert (N4 : lookup k (nets (tw w4) Generator)
               = Some (match param_grad g (Generator, k) with
                       | Some gr =>
                           mk_param (adam_update (ostate (g_optim (tw w)))
                                       (Generator, k) (data p) gr)
                             true (Some gr)
                       | None => mk_param (data p) true None
                       end)).
  { unfold g_backward_step, backward, g_optim_step, bind, modify in E4.
    injection E4 as <-. cbn -[optim_step].
    pose proof (backward_then_step (g_optim (tw w3)) (nets (tw w3)) g Generator k p3)
      as R.
    unfold optim_step in R. cbn [fst] in R.
    rewrite R; try assumption; try (rewrite G3; assumption).
    rewrite G3, Hd3. destruct (param_grad g (Generator, k)); [reflexivity|].
    destruct p3 as [d3 f3 g3]. cbn in *. now subst. }
  destruct (loss_dict_after_g_forward (Some ld) c i g) as [Q4 Q5].
  exists g, ld. split; [|split].
  - eapply Q5; [|exact E5]. eapply Q4; [|exact E4]. exact Hld.
  - exact Lg.
  - rewrite (generator_after_g_step _ c i _ _ _ eq_refl E5). exact N4.
Qed.

(** ** Parameter names and optimizers *)

Lemma keys_map_fst (f : string * param -> string * param) (m : module) :
  (forall kp, fst (f kp) = fst kp) -> keys (map f m) = keys m.
Proof.
  intros H. unfold keys. rewrite map_map. apply map_ext. exact H.
Qed.

Lemma keys_set_flag b (m : module) :
  keys (map (fun kp => (fst kp, set_flag b (snd kp))) m) = keys m.
Proof. now apply keys_map_fst. Qed.

Lemma keys_set_grad g (m : module) :
  keys (map (fun kp => (fst kp, set_grad g (snd kp))) m) = keys m.
Proof. now apply keys_map_fst. Qed.

Lemma keys_backward loss n (m : module) :
  keys (map (backward_param loss n) m) = keys m.
Proof. apply keys_map_fst. intros kp. apply backward_param_fst. Qed.

Lemma keys_step_param st ns id n :
  keys (step_param st ns id n) = keys (ns n).
Proof.
  unfold step_param.
  destruct (lookup (snd id) (ns (fst id))) as [p|]; [|reflexivity].
  destruct (grad p); [|reflexivity].
  destruct (net_eqb_spec' n (fst id)) as [[-> ->]|[-> _]]; [|reflexivity].
  apply keys_update.
Qed.

Lemma keys_optim_step (o : optimizer) ns n :
  keys (fst (optim_step o ns) n) = keys (ns n).
Proof.
  unfold optim_step. cbn [fst]. generalize (ostate o). intros st.
  revert ns. induction (param_ids o) as [|id ids IH]; intros ns; [reflexivity|].
  cbn [fold_left]. rewrite IH. apply keys_step_param.
Qed.

Ltac shape_solver :=
  let w := fresh "w" in
  let n := fresh "n" in
  intros w; intros;
  match goal with
  | H : shape_is _ _ _ w |- _ =>
      let H1 := fresh "H" in
      destruct H as [H1 [? ?]]; repeat split; cbn -[optim_step keys]; auto;
      intros n; specialize (H1 n); destruct n; cbn -[optim_step keys];
      rewrite ?keys_set_flag, ?keys_set_grad, ?keys_backward, ?keys_update;
      assumption
  end.

Lemma shape_backward K ig id loss : preserves (shape_is K ig id) (backward loss).
Proof. unfold backward. apply preserves_modify. shape_solver. Qed.

Lemma shape_d_optim_step K ig id : preserves (shape_is K ig id) d_optim_step.
Proof.
  apply preserves_modify. intros w [H1 [H2 H3]].
  repeat split; cbn -[optim_step keys]; auto.
  intros n. rewrite keys_optim_step. apply H1.
Qed.

Lemma shape_g_optim_step K ig id : preserves (shape_is K ig id) g_optim_step.
Proof.
  apply preserves_modify. intros w [H1 [H2 H3]].
  repeat split; cbn -[optim_step keys]; auto.
  intros n. rewrite keys_optim_step. apply H1.
Qed.

Lemma shape_load_state_dict K ig id n sd :
  preserves (shape_is K ig id) (load_state_dict n sd).
Proof.
  intros w r w' [H1 [H2 H3]] E. rewrite load_state_dict_run in E.
  inversion E; subst. repeat split; auto.
  intros n'. cbn -[keys]. destruct (net_eqb_spec' n' n) as [[-> ->]|[-> _]]; [|apply H1].
  rewrite keys_map_load. apply H1.
Qed.

#[local] Hint Resolve shape_backward shape_d_optim_step shape_g_optim_step
  shape_load_state_dict : pres.

Lemma shape_put_data K ig id n k t : preserves (shape_is K ig id) (put_data n k t).
Proof.
  apply preserves_modify. intros w [H1 [H2 H3]]. repeat split; auto.
  intros n'. cbn -[keys]. destruct (net_eqb_spec' n' n) as [[-> ->]|[-> _]]; [|apply H1].
  rewrite keys_update. apply H1.
Qed.

#[local] Hint Resolve shape_put_data : pres.

Lemma shape_train_iter K ig id c i : preserves (shape_is K ig id) (train_iter c i).
Proof. pres shape_solver. Qed.

Lemma shape_train K ig id c : preserves (shape_is K ig id) (train c).
Proof.
  unfold train. apply preserves_bind; [pres shape_solver|intros _].
  apply preserves_bind; [pres shape_solver|intros _].
  unfold train_loop. apply preserves_for_break. intros idx.
  unfold loop_pass. cbv zeta. destruct (_ >? _).
  - pres shape_solver.
  - apply preserves_bind; [apply shape_train_iter|intros _; apply preserves_ret].
Qed.

Lemma shape_resume K ig id c ckpt : preserves (shape_is K ig id) (resume c ckpt).
Proof. pres shape_solver. Qed.

Lemma shape_main_start K ig id c :
  preserves (shape_is K ig id) (eval_mode GEma)
  /\ preserves (shape_is K ig id) (accumulate GEma Generator 0)
  /\ preserves (shape_is K ig id) (setup_encoders c).
Proof. split; [|split]; pres shape_solver. Qed.

Lemma guard_inv (b : bool) e (w w' : world) :
  (if b then raise e else ret tt) w = (Ok tt, w') -> b = false /\ w' = w.
Proof. destruct b; intros H; inversion H; auto. Qed.

Lemma setup_optimizers_ids c (w w' : world) :
  setup_optimizers c w = (Ok tt, w') ->
  a_g_reg_every (args c) <> -1 /\ a_d_reg_every (args c) <> -1
  /\ nets (tw w') = nets (tw w)
  /\ param_ids (g_optim (tw w'))
     = map (fun k => (Generator, k)) (keys (nets (tw w) Generator))
  /\ param_ids (d_optim (tw w'))
     = map (fun k => (Discriminator, k)) (keys (nets (tw w) Discriminator)).
Proof.
  intros H. unfold setup_optimizers in H. cbv zeta in H.
  apply bind_ok_inv in H. destruct H as [[] [wa [Ea H]]].
  apply guard_inv in Ea. destruct Ea as [Hg ->].
  apply bind_ok_inv in H. destruct H as [[] [wb [Eb H]]].
  apply guard_inv in Eb. destruct Eb as [Hd ->].
  apply bind_ok_inv in H. destruct H as [[] [wc [Ec H]]].
  unfold modify in *. inversion Ec; inversion H; subst.
  apply Z.eqb_neq in Hg, Hd.
  split; [lia|]. split; [lia|]. repeat split.
Qed.

Lemma NoDup_map_pair (n : net) (l : list string) :
  NoDup l -> NoDup (map (fun k => (n, k)) l).
Proof.
  induction 1 as [|k l Hk Hl IH]; cbn; constructor; [|exact IH].
  intros Hin. apply in_map_iff in Hin. destruct Hin as [k' [E Hin]].
  inversion E; subst. contradiction.
Qed.

(** X18. Parameters and optimizers over a whole run.  The setup of the
    [__main__] block adds, removes or renames no parameter of any
    network, and when it returns [g_optim] holds the parameters of the
    generator and [d_optim] those of the discriminator, each once if
    the names are unique, in the order of [parameters()].  The run of
    [train] that follows, however it ends, keeps the parameter names of
    every network and the parameters held by both optimizers, and so
    does every pass through the loop body. *)
Theorem parameters_and_optimizers c ckpt (w w1 : world) c1 :
  main_setup c ckpt w = (Ok c1, w1) ->
  (forall n, keys (nets (tw w1) n) = keys (nets (tw w) n))
  /\ param_ids (g_optim (tw w1))
     = map (fun k => (Generator, k)) (keys (nets (tw w) Generator))
  /\ param_ids (d_optim (tw w1))
     = map (fun k => (Discriminator, k)) (keys (nets (tw w) Discriminator))
  /\ (NoDup (keys (nets (tw w) Generator)) -> NoDup (param_ids (g_optim (tw w1))))
  /\ (NoDup (keys (nets (tw w) Discriminator)) ->
      NoDup (param_ids (d_optim (tw w1))))
  /\ (forall r w2,
        train c1 w1 = (r, w2) ->
        (forall n, keys (nets (tw w2) n) = keys (nets (tw w) n))
        /\ param_ids (g_optim (tw w2)) = param_ids (g_optim (tw w1))
        /\ param_ids (d_optim (tw w2)) = param_ids (d_optim (tw w1)))
  /\ (forall c2 i wa r wb,
        train_iter c2 i wa = (r, wb) ->
        (forall n, keys (nets (tw wb) n) = keys (nets (tw wa) n))
        /\ param_ids (g_optim (tw wb)) = param_ids (g_optim (tw wa))
        /\ param_ids (d_optim (tw wb)) = param_ids (d_optim (tw wa))).
Proof.
  intros H.
  assert (Hpass : forall c2 i wa r wb,
            train_iter c2 i wa = (r, wb) ->
            (forall n, keys (nets (tw wb) n) = keys (nets (tw wa) n))
            /\ param_ids (g_optim (tw wb)) = param_ids (g_optim (tw wa))
            /\ param_ids (d_optim (tw wb)) = param_ids (d_optim (tw wa))).
  { intros c2 i wa r wb E.
    exact (shape_train_iter (fun n => keys (nets (tw wa) n)) _ _ c2 i wa r wb
             (conj (fun n => eq_refl) (conj eq_refl eq_refl)) E). }
  unfold main_setup in H. cbv zeta in H.
  apply bind_ok_inv in H. destruct H as [[] [wa [Ea H]]].
  apply bind_ok_inv in H. destruct H as [[] [wb [Eb H]]].
  apply bind_ok_inv in H. destruct H as [[] [wc [Ec H]]].
  apply bind_ok_inv in H. destruct H as [[] [wd [Ed H]]].
  set (K := fun n => keys (nets (tw w) n)).
  assert (S0 : shape_is K (param_ids (g_optim (tw w))) (param_ids (d_optim (tw w))) w)
    by (repeat split).
  destruct (shape_main_start K (param_ids (g_optim (tw w)))
              (param_ids (d_optim (tw w))) (set_start_iter 0 c)) as [Pa [Pb Pc]].
  pose proof (Pc _ _ _ (Pb _ _ _ (Pa _ _ _ S0 Ea) Eb) Ec) as [Kc _].
  destruct (setup_optimizers_ids _ _ _ Ed) as [_ [_ [Nd [Gd Dd]]]].
  assert (Sd : shape_is K (map (fun k => (Generator, k)) (K Generator))
                 (map (fun k => (Discriminator, k)) (K Discriminator)) wd).
  { split; [|split].
    - intros n. rewrite Nd. apply Kc.
    - rewrite Gd. now rewrite Kc.
    - rewrite Dd. now rewrite Kc. }
  pose proof (shape_resume _ _ _ _ _ _ _ _ Sd H) as [K1 [G1 D1]].
  split; [exact K1|]. split; [exact G1|]. split; [exact D1|].
  split; [|split; [|split]].
  - intros Hnd. rewrite G1. now apply NoDup_map_pair.
  - intros Hnd. rewrite D1. now apply NoDup_map_pair.
  - intros r w2 E.
    pose proof (shape_train K _ _ c1 _ _ _ (conj K1 (conj eq_refl eq_refl)) E)
      as [K2 [G2 D2]].
    auto.
  - exact Hpass.
Qed.

(** ** The discriminator steps *)

Lemma d_forward_grads c x (w w' : world) r :
  d_forward c x w = (Ok r, w') ->
  forall k p, lookup k (nets (tw w') Discriminator) = Some p -> grad p = None.
Proof.
  intros H. unfold d_forward in H. ok_inv H.
  apply ret_inv in H. destruct H as [_ ->].
  match goal with
  | E : zero_grad Discriminator _ = _ |- _ =>
      apply modify_inv in E; destruct E as [_ ->]
  end.
  intros k p. cbn. rewrite lookup_zero_grad.
  destruct (lookup k _); [|discriminate]. cbn. intros R. now inversion R.
Qed.

Lemma before_d_step_grads c (w w' : world) x :
  before_d_step c w = (Ok x, w') ->
  forall k p, lookup k (nets (tw w') Discriminator) = Some p -> grad p = None.
Proof.
  intros H. unfold before_d_step in H. cbv zeta in H. ok_inv H.
  inversion H; subst. eapply d_forward_grads; eauto.
Qed.

Lemma disc_data_before_d_step d o c :
  preserves (fun w : world => data_of (nets (tw w) Discriminator) = d
                              /\ d_optim (tw w) = o)
    (before_d_step c).
Proof.
  pres ltac:(intros;
             match goal with H : _ /\ _ |- _ => destruct H end;
             split; cbn -[data_of];
             rewrite ?data_of_set_flag, ?data_of_set_grad; assumption).
Qed.

Lemma has_d_store (v : pyval act) k v' :
  String.eqb "d" k = false ->
  preserves (fun w : world => exists ld, l_loss_dict (loc w) = Some ld
                                         /\ lookup "d" ld = Some v)
    (loss_dict_store k v').
Proof.
  intros Hk w r w' [ld [Hld Hd]] E.
  unfold loss_dict_store, read_local, assign, modify, bind in E.
  rewrite Hld in E. inversion E; subst. cbn.
  eexists. split; [reflexivity|].
  rewrite lookup_dict_set_other; [exact Hd|].
  intros ->. now rewrite String.eqb_refl in Hk.
Qed.

#[local] Hint Extern 1 (preserves _ (loss_dict_store _ _)) =>
  apply has_d_store; reflexivity : pres.

Ltac has_d_solver := intros; cbn; assumption.

Lemma has_d_rest (v : pyval act) c i x d g :
  preserves (fun w : world => exists ld, l_loss_dict (loc w) = Some ld
                                         /\ lookup "d" ld = Some v)
    (d_backward_step d)
  /\ preserves (fun w : world => exists ld, l_loss_dict (loc w) = Some ld
                                            /\ lookup "d" ld = Some v)
       (between_steps c i x)
  /\ preserves (fun w : world => exists ld, l_loss_dict (loc w) = Some ld
                                            /\ lookup "d" ld = Some v)
       (g_backward_step g)
  /\ preserves (fun w : world => exists ld, l_loss_dict (loc w) = Some ld
                                            /\ lookup "d" ld = Some v)
       (after_g_step c i).
Proof. split; [|split; [|split]]; pres has_d_solver. Qed.

Lemma d_forward_has_d c x (w w' : world) r :
  d_forward c x w = (Ok r, w') ->
  exists ld, l_loss_dict (loc w') = Some ld /\ lookup "d" ld = Some (fst (fst r)).
Proof.
  intros H. unfold d_forward in H. ok_inv H.
  apply ret_inv in H. destruct H as [R ->]. inversion R; subst r; clear R.
  cbn [fst].
  match goal with
  | E : loss_dict_store "d" ?v ?wa = (Ok tt, ?wb),
    E1 : loss_dict_store "real_score" _ ?wb = (Ok tt, ?wc),
    E2 : loss_dict_store "fake_score" _ ?wc = (Ok tt, ?wd),
    E3 : zero_grad Discriminator ?wd = _ |- _ =>
      apply loss_dict_store_ok_inv in E; destruct E as [l0 [_ ->]];
      apply loss_dict_store_ok_inv in E1; destruct E1 as [l1 [H1 ->]];
      apply loss_dict_store_ok_inv in E2; destruct E2 as [l2 [H2 ->]];
      apply modify_inv in E3; destruct E3 as [_ ->]
  end.
  cbn in *. inversion H1; subst l1. inversion H2; subst l2.
  eexists. split; [reflexivity|].
  rewrite !lookup_dict_set_other by discriminate. apply lookup_dict_set_same.
Qed.

Lemma before_d_step_has_d c (w w' : world) x :
  before_d_step c w = (Ok x, w') ->
  exists ld, l_loss_dict (loc w') = Some ld
             /\ lookup "d" ld = Some (fst (fst (snd x))).
Proof.
  intros H. unfold before_d_step in H. cbv zeta in H. ok_inv H.
  inversion H; subst. cbn [snd]. eapply d_forward_has_d; eauto.
Qed.

(** [zero_grad(); loss.backward(); d_optim.step()] on a parameter of the
    discriminator that asks for a gradient. *)
Lemma reg_step_lookup loss (w w2 : world) k p :
  (zero_grad Discriminator ;; backward loss ;; d_optim_step) w = (Ok tt, w2) ->
  NoDup (param_ids (d_optim (tw w))) ->
  In (Discriminator, k) (param_ids (d_optim (tw w))) ->
  lookup k (nets (tw w) Discriminator) = Some p ->
  requires_grad_flag p = true ->
  lookup k (nets (tw w2) Discriminator)
  = Some (match param_grad loss (Discriminator, k) with
          | Some gr =>
              mk_param (adam_update (ostate (d_optim (tw w)))
                          (Discriminator, k) (data p) gr) true (Some gr)
          | None => mk_param (data p) true None
          end).
Proof.
  intros E Hnd Hin Hp Hf.
  unfold zero_grad, backward, d_optim_step, bind, modify in E.
  injection E as <-. cbn -[optim_step].
  pose proof (backward_then_step (d_optim (tw w))
                (fun n' => if net_eqb n' Discriminator
                           then map (fun kp => (fst kp, set_grad None (snd kp)))
                                  (nets (tw w) Discriminator)
                           else nets (tw w) n')
                loss Discriminator k (set_grad None p) Hnd Hin) as R.
  unfold optim_step in R. cbn [fst] in R.
  eapply eq_trans; [apply R|].
  - cbn [net_eqb]. rewrite lookup_zero_grad, Hp. reflexivity.
  - exact Hf.
  - reflexivity.
  - destruct (param_grad loss (Discriminator, k)); [reflexivity|].
    unfold set_grad. now rewrite Hf.
Qed.

Lemma d_backward_step_lookup d (w w2 : world) k p :
  d_backward_step d w = (Ok tt, w2) ->
  NoDup (param_ids (d_optim (tw w))) ->
  In (Discriminator, k) (param_ids (d_optim (tw w))) ->
  lookup k (nets (tw w) Discriminator) = Some p ->
  requires_grad_flag p = true -> grad p = None ->
  exists loss,
    d = PyTensor loss
    /\ d_optim (tw w2)
       = mk_optimizer (param_ids (d_optim (tw w)))
           (adam_tick (ostate (d_optim (tw w))))
    /\ lookup k (nets (tw w2) Discriminator)
       = Some (match param_grad loss (Discriminator, k) with
               | Some gr =>
                   mk_param (adam_update (ostate (d_optim (tw w)))
                               (Discriminator, k) (data p) gr) true (Some gr)
               | None => mk_param (data p) true None
               end).
Proof.
  intros E Hnd Hin Hp Hf Hg. destruct d as [z|loss]; [discriminate|].
  exists loss. split; [reflexivity|].
  unfold d_backward_step, py_backward, backward, d_optim_step, bind, modify in E.
  injection E as <-. cbn -[optim_step]. split; [reflexivity|].
  pose proof (backward_then_step (d_optim (tw w)) (nets (tw w)) loss
                Discriminator k p Hnd Hin Hp Hf Hg) as R.
  unfold optim_step in R. cbn [fst] in R. rewrite R.
  destruct (param_grad loss (Discriminator, k)); [reflexivity|].
  destruct p as [dp fp gp]. cbn in *. now subst.
Qed.

Lemma disc_ada_tune_block N o c rp :
  preserves (fun w : world => nets (tw w) = N /\ d_optim (tw w) = o)
    (ada_tune_block c rp).
Proof. pres ltac:(intros; cbn; assumption). Qed.

Lemma disc_after_g_step m c i :
  preserves (fun w : world => nets (tw w) Discriminator = m) (after_g_step c i).
Proof. pres ltac:(intros; cbn; assumption). Qed.

Lemma lookup_set_flag b (m : module) k :
  lookup k (map (fun kp => (fst kp, set_flag b (snd kp))) m)
  = option_map (set_flag b) (lookup k m).
Proof. apply (lookup_map_keyed (fun _ => set_flag b)). Qed.

Lemma g_forward_disc c x ml ids (w w' : world) r :
  g_forward c x ml ids w = (r, w') ->
  nets (tw w') Discriminator
  = map (fun kp => (fst kp, set_flag false (snd kp))) (nets (tw w) Discriminator).
Proof.
  intros E. unfold g_forward in E. unfold requires_grad at 1 2 in E.
  rewrite bind_modify in E. cbv beta in E. rewrite bind_modify in E. cbv beta in E.
  match type of E with
  | ?m ?w0 = _ =>
      assert (P : preserves
                    (fun w1 : world =>
                       nets (tw w1) Discriminator = nets (tw w0) Discriminator) m)
        by (pres ltac:(intros; cbn; assumption));
      rewrite (P w0 r w' eq_refl E)
  end.
  reflexivity.
Qed.

(** X19. The update of the discriminator in a pass that returns.  Let
    [d_optim] hold each of its parameters once.  A discriminator
    parameter [k] it holds is stepped first with the gradient of
    [d_loss] alone, by Adam in the state [d_optim] had at the start of
    the pass.  When [i % args.d_reg_every == 0] it is stepped a second
    time, from the result of the first step, with the gradient of the
    R1 penalty alone and Adam one step further; otherwise it is left
    there.  The generator update that follows changes nothing of it but
    [requires_grad], which ends false; its [.grad] is the last gradient
    deposited, or none when the loss does not reach it.  [d_loss] is the
    value stored under ["d"] in [loss_dict]. *)
Theorem discriminator_update c i (w w' : world) k p :
  train_iter c i w = (Ok tt, w') ->
  optims_wf w ->
  NoDup (param_ids (d_optim (tw w))) ->
  In (Discriminator, k) (param_ids (d_optim (tw w))) ->
  lookup k (nets (tw w) Discriminator) = Some p ->
  exists d_loss ld,
    l_loss_dict (loc w') = Some ld
    /\ lookup "d" ld = Some (PyTensor d_loss)
    /\ let st := ostate (d_optim (tw w)) in
       let id := (Discriminator, k) in
       let after (s : adam_state) (loss : act) (d : tensor) (flag : bool) :=
         match param_grad loss id with
         | Some gr => mk_param (adam_update s id d gr) flag (Some gr)
         | None => mk_param d flag None
         end in
       if i mod a_d_reg_every (args c) =? 0
       then exists r1 real_pred,
              l_r1_loss (loc w') = Some r1
              /\ lookup k (nets (tw w') Discriminator)
                 = Some (after (adam_tick st) (r1_penalty c r1 real_pred)
                           (data (after st d_loss (data p) true)) false)
       else lookup k (nets (tw w') Discriminator)
            = Some (after st d_loss (data p) false).
Proof.
  intros H Hwf Hnd Hin Hp.
  apply train_iter_ok_inv in H.
  destruct H as [x [w1 [w2 [g [w3 [w4 [E1 [E2 [E3 [E4 E5]]]]]]]]]].
  (* up to the first step *)
  destruct (disc_data_before_d_step _ _ c _ _ _ (conj eq_refl eq_refl) E1)
    as [D1 O1].
  destruct (lookup_data_of _ (nets (tw w1) Discriminator) k p (eq_sym D1) Hp)
    as [p1 [Hp1 Hd1]].
  pose proof (before_d_step_grads _ _ _ _ E1 k p1 Hp1) as Hg1.
  pose proof (before_d_step_flags _ _ _ _ E1) as [_ F1].
  pose proof (all_flags_lookup _ _ _ _ F1 Hp1) as Hf1.
  destruct (before_d_step_has_d _ _ _ _ E1) as [ld1 [Hld1 Ld1]].
  (* the first step *)
  rewrite <- O1 in Hnd, Hin.
  destruct (d_backward_step_lookup _ _ _ _ _ E2 Hnd Hin Hp1 Hf1 Hg1)
    as [d_loss [Hd [O2 L2]]].
  rewrite O1, Hd1 in L2. rewrite O1 in O2.
  (* the regularization *)
  destruct (between_steps_ok_inv _ _ _ _ _ _ E3) as [wa [ri [wb [Ea [Eb Ef]]]]].
  destruct (disc_ada_tune_block _ _ c _ _ _ _ (conj eq_refl eq_refl) Ea)
    as [Na Oa].
  pose proof (wf_before_d_step c _ _ _ Hwf E1) as Wf1.
  pose proof (wf_d_backward_step _ _ _ _ Wf1 E2) as Wf2.
  pose proof (wf_between_steps c i x _ _ _ Wf2 E3) as Wf3.
  pose proof (g_forward_disc _ _ _ _ _ _ _ Ef) as N3.
  pose proof (g_forward_flags _ _ _ _ _ _ _ Ef) as [_ F3].
  destruct (g_backward_step_frame _ _ _ Wf3 E4) as [_ N4].
  specialize (N4 Discriminator ltac:(discriminate) F3).
  pose proof (disc_after_g_step _ c i _ _ _ eq_refl E5) as N5.
  (* the loss dict and r1_loss at the end *)
  destruct (has_d_rest (fst (fst (snd x))) c i x (fst (fst (snd x))) g)
    as [Q2 [Q3 [Q4 Q5]]].
  assert (Hld : exists ld, l_loss_dict (loc w') = Some ld
                           /\ lookup "d" ld = Some (fst (fst (snd x)))).
  { eapply Q5; [|exact E5]. eapply Q4; [|exact E4].
    eapply Q3; [|exact E3]. eapply Q2; [|exact E2]. eauto. }
  destruct Hld as [ld [Hld Ld]]. rewrite Hd in Ld.
  exists d_loss, ld. split; [exact Hld|]. split; [exact Ld|].
  cbv zeta.
  destruct (d_regularize_block_ok_inv _ _ _ _ _ _ Eb) as [_ [Hreg _]].
  rewrite N5, N4, N3, lookup_set_flag.
  destruct (i mod a_d_reg_every (args c) =? 0).
  - destruct Hreg as [aug [se [rp [wr1 [wr2 [_ [_ [_ [Er1 [Er2 [Nb [_ [Hr1 _]]]]]]]]]]]]].
    destruct (d_reg_forward_ok_inv _ _ _ _ _ Er1)
      as [_ [_ [_ [_ [_ [_ [_ [Nr [_ [Or _]]]]]]]]]].
    assert (Lr : lookup k (nets (tw wr1) Discriminator)
                 = lookup k (nets (tw w2) Discriminator))
      by (now rewrite Nr, Na).
    assert (Odr : d_optim (tw wr1) = d_optim (tw w2)) by (now rewrite Or, Oa).
    rewrite L2 in Lr.
    assert (Hfl : requires_grad_flag
                    match param_grad d_loss (Discriminator, k) with
                    | Some gr =>
                        mk_param (adam_update (ostate (d_optim (tw w)))
                                    (Discriminator, k) (data p) gr) true (Some gr)
                    | None => mk_param (data p) true None
                    end = true)
      by (destruct (param_grad d_loss (Discriminator, k)); reflexivity).
    rewrite O1 in Hnd, Hin.
    assert (Hnd' : NoDup (param_ids (d_optim (tw wr1))))
      by (rewrite Odr, O2; exact Hnd).
    assert (Hin' : In (Discriminator, k) (param_ids (d_optim (tw wr1))))
      by (rewrite Odr, O2; exact Hin).
    pose proof (reg_step_lookup _ _ _ k _ Er2 Hnd' Hin' Lr Hfl) as R.
    rewrite Odr, O2 in R. cbn [param_ids ostate] in R.
    assert (R1end : l_r1_loss (loc w') = Some (d_r1_loss rp (with_grad (fst (fst x))))).
    { destruct (r1_g_forward (d_optim (tw wb))
                  (Some (d_r1_loss rp (with_grad (fst (fst x))))) c ri
                  (snd (snd x)) (snd (fst x)) _ _ _ (conj eq_refl Hr1) Ef)
        as [_ R3].
      destruct (r1_g_backward_step (d_optim (tw w3))
                  (Some (d_r1_loss rp (with_grad (fst (fst x))))) g
                  _ _ _ (conj eq_refl R3) E4) as [_ R4].
      destruct (r1_after_g_step (d_optim (tw w4))
                  (Some (d_r1_loss rp (with_grad (fst (fst x))))) c i
                  _ _ _ (conj eq_refl R4) E5) as [_ R5].
      exact R5. }
    exists (d_r1_loss rp (with_grad (fst (fst x)))), rp.
    split; [exact R1end|].
    rewrite Nb. unfold r1_penalty. rewrite R.
    destruct (param_grad d_loss (Discriminator, k));
      destruct (param_grad _ (Discriminator, k)); reflexivity.
  - destruct Hreg as [Nb _]. rewrite Nb, Na, L2.
    destruct (param_grad d_loss (Discriminator, k)); reflexivity.
Qed.

(** ** What a whole run consumes *)

Lemma train_loop_from_zero c step (w : world) :
  a_start_iter (args c) = 0 ->
  train_loop c step w = for_each (py_range (a_iter (args c))) step w.
Proof.
  intros H0. unfold train_loop.
  rewrite (for_break_never _ _ (fun idx => step (idx + a_start_iter (args c)))).
  - rewrite H0. clear. generalize (py_range (a_iter (args c))). intros l.
    revert w. induction l as [|a l IH]; intros w; simpl; [reflexivity|].
    rewrite Z.add_0_r. unfold bind. destruct (step a w) as [[[]|e] w1]; auto.
  - intros a w' Hin. apply py_range_spec in Hin.
    apply loop_pass_continue. lia.
Qed.

Lemma passes_consume c (l : list Z) (w w' : world) :
  for_each l (train_iter c) w = (Ok tt, w') ->
  loader_pos (tw w') = (loader_pos (tw w) + List.length l)%nat
  /\ g_optim (tw w')
     = mk_optimizer (param_ids (g_optim (tw w)))
         (Nat.iter (List.length l) adam_tick (ostate (g_optim (tw w)))).
Proof.
  revert w. induction l as [|i l IH]; intros w E.
  - inversion E; subst. cbn. split; [lia|]. now destruct (g_optim (tw w')).
  - cbn [for_each] in E. apply bind_ok_inv in E. destruct E as [[] [w1 [E1 E]]].
    destruct (train_iter_consumes _ _ _ _ _ E1) as [H _].
    destruct (H eq_refl) as [L1 G1].
    destruct (IH _ E) as [L2 G2]. split.
    + rewrite L2, L1. cbn [List.length]. lia.
    + rewrite G2, G1. cbn [param_ids ostate List.length]. f_equal.
      now rewrite Nat.iter_succ_r.
Qed.

Lemma train_prologue_consumes c (w w' : world) :
  train_prologue c w = (Ok tt, w') ->
  loader_pos (tw w') = S (loader_pos (tw w)) /\ g_optim (tw w') = g_optim (tw w).
Proof.
  unfold train_prologue, assign. rewrite !bind_modify. intros E.
  apply bind_ok_inv in E. destruct E as [[] [wa [Ea E]]].
  assert (Pa : preserves (fun w0 : world => loader_pos (tw w0) = loader_pos (tw w)
                                            /\ g_optim (tw w0) = g_optim (tw w))
                 (if a_augment (args c)
                  then if Req_dec_T (a_augment_p (args c)) 0
                       then modify (upd_loc (set_ada_augment
                              (ada_new (a_ada_target (args c))
                                 (a_ada_length (args c)) 8)))
                       else ret tt
                  else ret tt)) by (pres ltac:(intros; cbn; assumption)).
  assert (Qa : loader_pos (tw wa) = loader_pos (tw w)
               /\ g_optim (tw wa) = g_optim (tw w))
    by (refine (Pa _ _ _ _ Ea); split; reflexivity).
  destruct Qa as [La Ga].
  unfold sample_inputs in E.
  apply bind_ok_inv in E. destruct E as [b [wb [Eb E]]].
  unfold next_batch in Eb. inversion Eb; subst b wb. cbv zeta in E.
  match type of E with
  | ?m ?w0 = _ =>
      assert (P : preserves
                    (fun w1 : world =>
                       loader_pos (tw w1) = S (loader_pos (tw w))
                       /\ g_optim (tw w1) = g_optim (tw w)) m)
        by (pres ltac:(intros; cbn; assumption));
      refine (P w0 _ _ _ E)
  end.
  cbn. now rewrite La, Ga.
Qed.

(** X20. What a run of [train] that returns has consumed.  The body
    has been run once for every counter [i = idx + args.start_iter]
    with [idx] in [range(args.iter)] and [i <= args.iter], which makes
    [args.iter] passes from [start_iter = 0] and
    [args.iter - start_iter + 1] passes, if any, after a resume.  The
    loader has yielded one batch for the samples of the prologue and
    one batch per pass, and [g_optim] has made one step per pass. *)
Theorem run_accounting c (w w' : world) :
  0 <= a_start_iter (args c) ->
  train c w = (Ok tt, w') ->
  let passes :=
    if a_start_iter (args c) =? 0 then Z.to_nat (a_iter (args c))
    else Z.to_nat (a_iter (args c) - a_start_iter (args c) + 1) in
  loader_pos (tw w') = (loader_pos (tw w) + 1 + passes)%nat
  /\ g_optim (tw w')
     = mk_optimizer (param_ids (g_optim (tw w)))
         (Nat.iter passes adam_tick (ostate (g_optim (tw w)))).
Proof.
  intros Hs E. cbv zeta. unfold train in E. rewrite bind_modify in E.
  apply bind_ok_inv in E. destruct E as [[] [w1 [E1 E]]].
  destruct (train_prologue_consumes _ _ _ E1) as [L1 G1]. cbn in L1, G1.
  assert (Hl : exists l : list Z,
            List.length l
            = (if a_start_iter (args c) =? 0 then Z.to_nat (a_iter (args c))
               else Z.to_nat (a_iter (args c) - a_start_iter (args c) + 1))
            /\ exists w2, for_each l (train_iter c) w1 = (Ok tt, w2)
                          /\ loader_pos (tw w') = loader_pos (tw w2)
                          /\ g_optim (tw w') = g_optim (tw w2)).
  { destruct (Z.eqb_spec (a_start_iter (args c)) 0) as [H0|H0].
    - exists (py_range (a_iter (args c))). split.
      + unfold py_range. now rewrite length_map, length_seq.
      + exists w'. rewrite train_loop_from_zero in E by exact H0. auto.
    - exists (map (fun idx => idx + a_start_iter (args c))
                (py_range (a_iter (args c) - a_start_iter (args c) + 1))).
      split.
      + unfold py_range. now rewrite !length_map, length_seq.
      + rewrite train_loop_run in E by lia.
        apply bind_ok_inv in E. destruct E as [[] [w2 [E2 E]]].
        exists w2. split; [exact E2|].
        destruct (_ && _)%bool; inversion E; subst; auto. }
  destruct Hl as [l [Hlen [w2 [E2 [L2 G2]]]]].
  destruct (passes_consume _ _ _ _ E2) as [L G].
  rewrite L2, G2, L, G, L1, G1, Hlen. split; [lia|reflexivity].
Qed.

(** X21. Conditioning on the captions.  With [conditioned] true and a
    text encoder of type "rnn" or "transformer", lines 230-244 return
    and leave in [words_embs] and [sent_emb] the detached outputs of the
    text encoder on the captions of this pass, changing nothing but
    these two locals; and the noise that lines 249-251 give to the
    generator is every tensor of [mixing_noise] joined along dimension 1
    with that [sent_emb]. *)
Theorem conditioning c real_img captions cap_lens (w : world) :
  conditioned c = true ->
  text_encoder_type c = "rnn" \/ text_encoder_type c = "transformer" ->
  exists w1,
    encode_captions c real_img captions cap_lens w = (Ok tt, w1)
    /\ tw w1 = tw w
    /\ l_words_embs (loc w1)
       = Some (detach (fst (caption_embeddings c real_img captions cap_lens w)))
    /\ l_sent_emb (loc w1)
       = Some (detach (snd (caption_embeddings c real_img captions cap_lens w)))
    /\ l_loss_dict (loc w1) = l_loss_dict (loc w)
    /\ l_r1_loss (loc w1) = l_r1_loss (loc w)
    /\ l_ada_aug_p (loc w1) = l_ada_aug_p (loc w)
    /\ forall zs w2,
         mixing_noise (shape0 real_img) (a_latent (args c)) (a_mixing (args c)) w1
         = (Ok zs, w2) ->
         conditioned_noise c real_img w1
         = (Ok (map (fun z =>
                       cat1 z (detach (snd (caption_embeddings c real_img
                                              captions cap_lens w)))) zs),
            w2).
Proof.
  intros Hc Ht.
  assert (E : exists w1,
            encode_captions c real_img captions cap_lens w = (Ok tt, w1)
            /\ tw w1 = tw w
            /\ l_words_embs (loc w1)
               = Some (detach (fst (caption_embeddings c real_img captions
                                      cap_lens w)))
            /\ l_sent_emb (loc w1)
               = Some (detach (snd (caption_embeddings c real_img captions
                                      cap_lens w)))
            /\ l_loss_dict (loc w1) = l_loss_dict (loc w)
            /\ l_r1_loss (loc w1) = l_r1_loss (loc w)
            /\ l_ada_aug_p (loc w1) = l_ada_aug_p (loc w)).
  { unfold encode_captions, caption_embeddings. rewrite Hc.
    destruct Ht as [Ht|Ht]; rewrite Ht; cbn [String.eqb Ascii.eqb Bool.eqb];
      eexists; (split; [reflexivity|]); repeat split. }
  destruct E as [w1 [E [Tw [Hw [Hs [Hl [Hr Ha]]]]]]].
  exists w1. repeat (split; [assumption|]).
  intros zs w2 Em. unfold conditioned_noise.
  rewrite (bind_run _ _ _ _ _ Em), Hc.
  apply map_m_cat. now rewrite (mixing_noise_loc _ _ _ _ _ _ Em).
Qed.

(** ** wandb *)

Lemma resume_ctx c ckpt (w w' : world) c1 :
  resume c ckpt w = (Ok c1, w') -> c1 = c \/ exists z, c1 = set_start_iter z c.
Proof.
  destruct ckpt as [path|]; cbn [resume].
  - intros H. ok_inv H.
    apply ret_inv in H. destruct H as [R _]. inversion R; subst c1.
    match goal with
    | E : resume_counter _ _ _ = _ |- _ =>
        rewrite resume_counter_run in E; inversion E
    end.
    destruct (py_int _); eauto.
  - intros H. inversion H. now left.
Qed.

Lemma main_setup_ctx c ckpt (w w' : world) c1 :
  main_setup c ckpt w = (Ok c1, w') -> exists z, c1 = set_start_iter z c.
Proof.
  intros H. unfold main_setup in H. cbv zeta in H. ok_inv H.
  apply resume_ctx in H. destruct H as [->|[z ->]]; [exists 0|exists z]; reflexivity.
Qed.

Ltac no_wandb_solver :=
  let w := fresh "w" in
  intros w; intros;
  match goal with
  | H : out_extends _ _ w |- _ =>
      let evs := fresh "evs" in
      let E := fresh "E" in
      let F := fresh "F" in
      destruct H as [evs [E F]]; unfold out_extends; cbn;
      first
        [ exists evs; split; [exact E | exact F]
        | eexists (evs ++ [_]); rewrite E, <- app_assoc; split; [reflexivity|];
          apply Forall_app; split; [exact F|];
          apply Forall_cons; [|apply Forall_nil];
          first
            [ reflexivity
            | exfalso;
              match goal with
              | Hb : (wandb_imported _ && a_wandb _)%bool = true |- _ =>
                  apply andb_prop in Hb; destruct Hb; intuition congruence
              end ] ]
  end.

Lemma no_wandb_train o c :
  wandb_imported c = false \/ a_wandb (args c) = false ->
  preserves (out_extends o (fun e => is_wandb_record e = false)) (train c).
Proof. intros H. pres no_wandb_solver. Qed.

Lemma no_wandb_main_setup o c ckpt :
  preserves (out_extends o (fun e => is_wandb_record e = false))
    (main_setup c ckpt).
Proof. pres no_wandb_solver. Qed.

(** X22. wandb over the whole script.  The setup changes nothing of
    the configuration but [args.start_iter].  If [import wandb] failed,
    or [args.wandb] is not set, the script runs as it would otherwise
    and, however it ends, nothing it has written is a wandb record:
    the guard of line 26 trades the [ImportError] for a silent run
    without logging, also under [--wandb]. *)
Theorem no_wandb_without_import installed c ckpt (w : world) r w' :
  installed = false \/ a_wandb (args c) = false ->
  main installed c ckpt w = (r, w') ->
  (forall c1 w1,
     main_setup (set_wandb_imported installed c) ckpt w = (Ok c1, w1) ->
     exists z, c1 = set_start_iter z (set_wandb_imported installed c))
  /\ exists evs,
       out (tw w') = out (tw w) ++ evs
       /\ Forall (fun e => is_wandb_record e = false) evs.
Proof.
  intros Hw E. split.
  - intros c1 w1. apply main_setup_ctx.
  - unfold main in E. unfold bind at 1 in E. rewrite wandb_guard_run in E.
    unfold bind in E.
    assert (O0 : out_extends (out (tw w)) (fun e => is_wandb_record e = false) w).
    { exists []. split; [now rewrite app_nil_r | constructor]. }
    destruct (main_setup (set_wandb_imported installed c) ckpt w)
      as [[c1|e] w1] eqn:E1.
    + pose proof (no_wandb_main_setup _ _ _ _ _ _ O0 E1) as O1.
      destruct (main_setup_ctx _ _ _ _ _ E1) as [z ->].
      refine (no_wandb_train _ _ _ _ _ _ O1 E).
      destruct Hw as [->|Hw]; [now left|now right].
    + inversion E; subst. exact (no_wandb_main_setup _ _ _ _ _ _ O0 E1).
Qed.

(** X23. The generator [sample_data(loader)] never ends: when a
    traversal of the loader is exhausted it starts the next one.  Over a
    loader whose traversals are never empty, [next] returns after at
    most one restart, the batches of a traversal come in order, none
    skipped and none repeated, and the first batch of the next traversal
    follows the last.  Over a loader that is always empty, [next] never
    returns, however many restarts it is given. *)
Theorem sample_data_endless {B} (loader : nat -> list B) :
  ((forall e, loader e = []) ->
   forall fuel e j, sample_data_next loader fuel e j = None)
  /\ ((forall e, loader e <> []) ->
      forall e j, (j <= List.length (loader e))%nat ->
        exists b,
          ((j < List.length (loader e))%nat
           /\ nth_error (loader e) j = Some b
           /\ (forall fuel,
                 sample_data_next loader fuel e j = Some (b, (e, S j))))
          \/ (j = List.length (loader e)
              /\ nth_error (loader (S e)) O = Some b
              /\ (forall fuel,
                    sample_data_next loader (S fuel) e j
                    = Some (b, (S e, 1%nat))))).
Proof.
  split.
  - intros Hempty fuel. induction fuel as [|fuel IH]; intros e j; cbn;
      rewrite Hempty; destruct j; cbn; auto.
  - intros Hne e j Hj.
    destruct (nth_error (loader e) j) as [b|] eqn:E.
    + exists b. left. split; [apply nth_error_Some; congruence|].
      split; [reflexivity|]. intros fuel. destruct fuel; cbn; now rewrite E.
    + apply nth_error_None in E.
      destruct (loader (S e)) as [|b l] eqn:L; [now apply Hne in L|].
      exists b. right. split; [lia|]. split; [reflexivity|].
      intros fuel. cbn [sample_data_next].
      assert (E' : nth_error (loader e) j = None) by (apply nth_error_None; lia).
      rewrite E'. destruct fuel; cbn; now rewrite L.
Qed.

End Proofs.

(* ================================================================== *)
(** * The model at work on the free interpretation *)

Lemma run_eq {W A} (m : outcome A * W) (a : outcome A) :
  fst m = a -> m = (a, snd m).
Proof. destruct m; simpl; congruence. Qed.

Lemma demo_setup_ok :
  main_setup (T := sym_torch) demo_ctx None demo_world = (Ok demo_ctx, demo_ready).
Proof. apply (run_eq (main_setup demo_ctx None demo_world)). vm_compute. reflexivity. Qed.

Lemma demo_prologue_ok :
  (modify (upd_loc (fun _ => no_locals)) ;; train_prologue demo_ctx) demo_ready
  = (Ok tt, demo_loop).
Proof.
  apply (run_eq ((modify (upd_loc (fun _ => no_locals)) ;; train_prologue demo_ctx)
                   demo_ready)).
  vm_compute. reflexivity.
Qed.

Lemma demo_pass_ok :
  train_iter (T := sym_torch) demo_ctx 0 demo_loop = (Ok tt, demo_after).
Proof.
  apply (run_eq (train_iter demo_ctx 0 demo_loop)).
  vm_compute.
  repeat match goal with
         | |- context [Rlt_dec ?x ?y] =>
             destruct (Rlt_dec x y) as [?|Hn]; [|exfalso; apply Hn; lra]
         end.
  reflexivity.
Qed.

Lemma demo_loop_wf : optims_wf demo_loop.
Proof.
  split; intros id Hin; vm_compute in Hin; destruct Hin as [<-|[]]; reflexivity.
Qed.

Lemma demo_loop_nodup : NoDup (keys (nets (tw demo_loop) GEma)).
Proof. vm_compute. constructor; [intros [] | constructor]. Qed.

Example sample_path_100 : sample_path 100 = "sample/000100.png".
Proof. reflexivity. Qed.

Example checkpoint_path_10000 : checkpoint_path 10000 = "checkpoint/010000.pt".
Proof. reflexivity. Qed.

Example sample_path_long : sample_path 1234500 = "sample/1234500.png".
Proof. reflexivity. Qed.

Example resume_from_checkpoint :
  fst (resume_counter (T := sym_torch) demo_ctx "checkpoint/010000.pt" demo_world)
  = Ok (set_start_iter 10000 demo_ctx).
Proof. reflexivity. Qed.

Example d_loss_unconditioned_demo :
  d_loss_value (T := sym_torch) false (Sym "real_pred" []) (Sym "fake_pred" [])
    (Sym "fake_logits" []) (Sym "fake_labels" [])
    (Sym "real_logits" []) (Sym "real_labels" [])
  = PyInt 0.
Proof. reflexivity. Qed.

(** The loop of C8 on [args.iter = 2], [args.start_iter = 0]: the
    body runs for the counters 0 and 1. *)
Lemma train_loop_counters_witness :
  0 <= a_start_iter (args demo_ctx)
  /\ py_range (a_iter (args demo_ctx)) = [0; 1]
  /\ Z.of_nat (List.length (py_range (a_iter (args demo_ctx))))
     = a_iter (args demo_ctx).
Proof.
  assert (H0 : 0 <= a_start_iter (args demo_ctx)) by (vm_compute; discriminate).
  destruct (train_loop_counters (T := sym_torch) demo_ctx H0) as [H _].
  destruct (H eq_refl) as [_ [_ H3]].
  split; [exact H0|]. split; [reflexivity|].
  apply H3. vm_compute. discriminate.
Defined.

(** The run of C2: [train] without conditioning on two iterations. *)
Lemma unconditioned_name_error_witness :
  exists w',
    train (T := sym_torch) demo_ctx_uncond demo_world
    = (Raise (UnboundLocalError "sent_emb"), w').
Proof.
  destruct (unconditioned_name_error (T := sym_torch) demo_ctx_uncond demo_world)
    as [H _].
  - reflexivity.
  - vm_compute. discriminate.
  - exact (proj1 (H eq_refl)).
Defined.

(** C3 on the first pass of the demo run. *)
Lemma ema_tracking_witness :
  keys (nets (tw demo_after) GEma) = keys (nets (tw demo_loop) GEma)
  /\ accum = Rpower 0.5 (32 / (10 * 1000)).
Proof.
  destruct (ema_tracking (T := sym_torch) demo_ctx 0 demo_loop demo_after
              demo_loop_wf demo_loop_nodup demo_pass_ok) as [_ [H1 [H2 _]]].
  exact (conj H1 H2).
Defined.

(** C4 on the first pass of the demo run: [0 % 16 == 0], two steps of
    [d_optim]. *)
Lemma r1_schedule_witness :
  a_d_reg_every (args demo_ctx) <> 0
  /\ ostate (d_optim (tw demo_after))
     = @adam_tick sym_torch
         (@adam_tick sym_torch (ostate (d_optim (tw demo_loop)))).
Proof.
  destruct (r1_schedule (T := sym_torch) demo_ctx 0 demo_loop demo_after
              demo_pass_ok) as [H1 [H2 _]].
  exact (conj H1 H2).
Defined.

(** C5 on the first pass of the demo run. *)
Lemma alternating_updates_witness :
  exists x w1 w2 g w3 w4,
    before_d_step (T := sym_torch) demo_ctx demo_loop = (Ok x, w1)
    /\ d_backward_step (fst (fst (snd x))) w1 = (Ok tt, w2)
    /\ between_steps demo_ctx 0 x w2 = (Ok g, w3)
    /\ g_backward_step g w3 = (Ok tt, w4)
    /\ after_g_step demo_ctx 0 w4 = (Ok tt, demo_after).
Proof.
  exact (proj2 (alternating_updates (T := sym_torch) demo_ctx 0 demo_loop
                  demo_loop_wf) demo_after demo_pass_ok).
Defined.


(** C7 on the first pass of the demo run: rank 0, counter 0, one sample
    and one checkpoint. *)
Lemma files_written_witness :
  exists evs e,
    out (tw demo_after) = out (tw demo_loop) ++ evs
    /\ filter is_file_write evs
       = [e; EvTorchSave checkpoint_keys "checkpoint/000000.pt"]
    /\ sample_of (T := sym_torch) demo_ctx 0 demo_after e.
Proof.
  destruct (files_written (T := sym_torch) demo_ctx 0 demo_loop (Ok tt) demo_after
              demo_pass_ok) as [evs [H1 [_ [_ [H2 _]]]]].
  destruct (H2 eq_refl eq_refl) as [sl [H3 [e [H4 H5]]]].
  exists evs, e. rewrite H4 in H3. exact (conj H1 (conj H3 H5)).
Defined.

(** C10 on the demo setup. *)
Lemma encoders_untouched_witness :
  exists mt mi,
    frozen_net (T := sym_torch) TextEncoder mt false demo_ready
    /\ frozen_net (T := sym_torch) ImageEncoder mi false demo_ready.
Proof.
  destruct (encoders_untouched (T := sym_torch) demo_ctx None demo_world
              demo_ready demo_ctx demo_setup_ok) as [mt [mi [H _]]].
  exists mt, mi. exact H.
Defined.



(** ** The further properties on the free interpretation *)

Lemma surjective_run {A B} (x : A * B) : x = (fst x, snd x).
Proof. now destruct x. Qed.

Lemma demo_run_one :
  train (T := sym_torch) demo_ctx_one demo_ready = (Ok tt, demo_after).
Proof.
  unfold train. rewrite bind_modify.
  pose proof demo_prologue_ok as P. rewrite bind_modify in P.
  change (train_prologue (T := sym_torch) demo_ctx_one)
    with (train_prologue (T := sym_torch) demo_ctx).
  rewrite (bind_run _ _ _ _ _ P).
  unfold train_loop, py_range, loop_pass.
  cbn [a_iter a_start_iter args demo_ctx_one Z.to_nat].
  change (PosDef.Pos.to_nat 1) with 1%nat.
  cbn [seq map Z.of_nat for_break].
  change (0 + 0 >? 1) with false. cbv iota.
  change (train_iter (T := sym_torch) demo_ctx_one (0 + 0))
    with (train_iter (T := sym_torch) demo_ctx 0).
  rewrite (bind_run _ _ _ _ _
             (bind_run _ (fun _ => ret false) _ _ _ demo_pass_ok)).
  reflexivity.
Qed.

(** X4 on a resume at counter 1 of a run to [args.iter = 2]: the passes
    for 1 and 2. *)
Lemma resumed_loop_counters_witness :
  1 <= a_start_iter (args (set_start_iter 1 demo_ctx))
  /\ exists l : list Z,
       l = [1; 2]
       /\ forall step (w : world (T := sym_torch)),
            train_loop (set_start_iter 1 demo_ctx) step w
            = (for_each l step ;; ret tt) w.
Proof.
  assert (H1 : 1 <= a_start_iter (args (set_start_iter 1 demo_ctx)))
    by (vm_compute; discriminate).
  split; [exact H1|].
  destruct (resumed_loop_counters (T := sym_torch) (set_start_iter 1 demo_ctx) H1)
    as [l [Hrun [Hl _]]].
  exists l. split; [rewrite Hl; reflexivity | exact Hrun].
Defined.

(** X5 on a [g_ema] with the parameters a, b, c over a generator
    without b. *)
Lemma accumulate_missing_key_witness :
  exists w',
    accumulate (T := sym_torch) GEma Generator (1 / 2) demo_mismatch
    = (Raise (KeyError "b"), w')
    /\ lookup "b" (nets (tw w') GEma)
       = Some (set_data (mul_ [4%R] (1 / 2)) (mk_param [4%R] true None))
    /\ lookup "c" (nets (tw w') GEma) = Some (mk_param [6%R] true None).
Proof.
  destruct (accumulate_missing_key (T := sym_torch) GEma Generator (1 / 2)
              ["a"] "b" ["c"] demo_mismatch)
    as [w' [E [_ [_ [_ [Hb Hc]]]]]].
  - discriminate.
  - repeat constructor; cbn; intuition discriminate.
  - reflexivity.
  - intros k' [<-|[]]. do 2 eexists. repeat split; reflexivity.
  - reflexivity.
  - exists w'. split; [exact E|]. split.
    + exact (Hb _ eq_refl).
    + rewrite (Hc "c" (or_introl eq_refl)). reflexivity.
Defined.

(** X7 on the demo run without conditioning. *)
Lemma unconditioned_trains_nothing_witness :
  conditioned demo_ctx_uncond = false
  /\ g_optim (tw (snd (train (T := sym_torch) demo_ctx_uncond demo_world)))
     = g_optim (tw demo_world)
  /\ forall n,
       data_of (nets (tw (snd (train (T := sym_torch) demo_ctx_uncond demo_world))) n)
       = data_of (nets (tw demo_world) n).
Proof.
  destruct (unconditioned_trains_nothing (T := sym_torch) demo_ctx_uncond demo_world
              _ _ eq_refl (surjective_run _)) as [Hd [Hg _]].
  split; [reflexivity|]. split; [exact Hg | exact Hd].
Defined.

(** X8 on the first pass of the demo run with [--g_reg_every 0]. *)
Lemma g_reg_every_zero_witness :
  a_g_reg_every (args demo_ctx_g0) = 0
  /\ (exists e, fst (train_iter (T := sym_torch) demo_ctx_g0 0 demo_loop) = Raise e)
  /\ out (tw (snd (train_iter (T := sym_torch) demo_ctx_g0 0 demo_loop)))
     = out (tw demo_loop).
Proof.
  destruct (g_reg_every_zero (T := sym_torch) demo_ctx_g0 0 demo_loop _ _
              eq_refl demo_loop_wf (surjective_run _)) as [He [Ho _]].
  split; [reflexivity|]. split; [exact He | exact Ho].
Defined.

(** X9 on the demo setup with the encoder type "bert". *)
Lemma unknown_encoder_type_witness :
  exists w',
    train (T := sym_torch) demo_ctx_bert demo_ready
    = (Raise (UnboundLocalError "sample_words_embs"), w').
Proof.
  destruct (unknown_encoder_type (T := sym_torch) demo_ctx_bert demo_ready)
    as [w' [E _]].
  - reflexivity.
  - discriminate.
  - discriminate.
  - exists w'. exact E.
Defined.

(** X10 on the first pass of the demo run. *)
Lemma pass_accounting_witness :
  loader_pos (tw demo_after) = S (loader_pos (tw demo_loop))
  /\ g_optim (tw demo_after)
     = mk_optimizer (T := sym_torch) (param_ids (g_optim (tw demo_loop)))
         (@adam_tick sym_torch (ostate (g_optim (tw demo_loop)))).
Proof.
  exact (proj1 (pass_accounting (T := sym_torch) demo_ctx 0 demo_loop (Ok tt)
                  demo_after demo_pass_ok) eq_refl).
Defined.

(** X11 on the checkpoint of the free interpretation. *)
Lemma checkpoint_restored_witness :
  exists c' w',
    resume (T := sym_torch) demo_ctx (Some "checkpoint/010000.pt") demo_world
    = (Ok c', w')
    /\ out (tw w') = out (tw demo_world) ++ [EvPrint "load model: checkpoint/010000.pt"].
Proof.
  destruct (checkpoint_restored (T := sym_torch) demo_ctx "checkpoint/010000.pt"
              demo_world [("weight", [0%R])] [("weight", [0%R])]
              [("weight", [0%R])] [] [])
    as [c' [w' [E [_ [_ [_ [_ [_ O]]]]]]]]; try reflexivity.
  exists c', w'. split; [exact E | exact O].
Defined.

(** X12 on a checkpoint without "g_ema". *)
Lemma checkpoint_without_g_ema_witness :
  exists w',
    resume (T := sym_torch_no_ema) demo_ctx (Some "checkpoint/010000.pt")
      demo_world_no_ema
    = (Raise (KeyError "g_ema"), w')
    /\ nets (tw w') GEma = nets (tw demo_world_no_ema) GEma.
Proof.
  destruct (checkpoint_without_g_ema (T := sym_torch_no_ema) demo_ctx
              "checkpoint/010000.pt" demo_world_no_ema
              [("weight", [0%R])] [("weight", [0%R])])
    as [w' [E [_ [_ [N _]]]]]; try reflexivity.
  exists w'. split; [exact E | exact N].
Defined.

(** X13 on the demo run, which has [args.augment] off. *)
Lemma ada_aug_p_constant_witness :
  a_augment (args demo_ctx) = false
  /\ l_ada_aug_p (loc (snd (train (T := sym_torch) demo_ctx demo_ready)))
     = Some (if Rgt_dec (a_augment_p (args demo_ctx)) 0
             then a_augment_p (args demo_ctx) else 0%R).
Proof.
  split; [reflexivity|].
  exact (proj2 (ada_aug_p_constant (T := sym_torch) demo_ctx (or_introl eq_refl))
           demo_ready _ _ (surjective_run _)).
Defined.

(** X14 on the first pass of the demo run: rank 0, counter 0, no
    wandb. *)
Lemma pass_output_witness :
  l_sample_z (loc demo_after) = l_sample_z (loc demo_loop)
  /\ exists de sl,
       out (tw demo_after)
       = out (tw demo_loop) ++ [de] ++ sl
         ++ [EvTorchSave checkpoint_keys (checkpoint_path 0)]
       /\ description_of demo_after de
       /\ exists e, sl = [e] /\ sample_of demo_ctx 0 demo_after e.
Proof.
  destruct (pass_output (T := sym_torch) demo_ctx 0 demo_loop (Ok tt) demo_after
              demo_pass_ok) as [_ [Hz [_ H]]].
  split; [exact Hz|].
  destruct (H eq_refl eq_refl) as [de [wl [sl [Ho [Hd [Hw Hs]]]]]].
  cbn in Hw. subst wl. exists de, sl. split; [exact Ho|]. split; [exact Hd|exact Hs].
Defined.

Lemma demo_loop_g_ids :
  param_ids (g_optim (tw demo_loop)) = [(Generator, "weight")].
Proof. vm_compute. reflexivity. Qed.

Lemma demo_loop_d_ids :
  param_ids (d_optim (tw demo_loop)) = [(Discriminator, "weight")].
Proof. vm_compute. reflexivity. Qed.

Lemma demo_loop_generator :
  lookup "weight" (nets (tw demo_loop) Generator) = Some (mk_param [1%R] true None).
Proof. vm_compute. reflexivity. Qed.

Lemma demo_loop_discriminator :
  lookup "weight" (nets (tw demo_loop) Discriminator)
  = Some (mk_param [3%R] true None).
Proof. vm_compute. reflexivity. Qed.

Lemma NoDup_single {A} (a : A) : NoDup [a].
Proof. constructor; [intros [] | constructor]. Qed.

(** X15 on the first pass of the demo run, where every gradient is
    [[1]] and Adam leaves the data as it is. *)
Lemma generator_update_witness :
  exists g_loss,
    lookup "weight" (nets (tw demo_after) Generator)
    = Some (mk_param
              (@adam_update sym_torch (ostate (g_optim (tw demo_loop)))
                 (Generator, "weight") [1%R] [1%R])
              true (@param_grad sym_torch g_loss (Generator, "weight"))).
Proof.
  destruct (generator_update (T := sym_torch) demo_ctx 0 demo_loop demo_after
              "weight" (mk_param [1%R] true None) demo_pass_ok demo_loop_wf)
    as [g_loss [ld [_ [_ H]]]].
  - rewrite demo_loop_g_ids. apply NoDup_single.
  - rewrite demo_loop_g_ids. now left.
  - exact demo_loop_generator.
  - exists g_loss. exact H.
Defined.

(** X16 on the path of the demo configuration under a directory. *)
Lemma replace_first_occurrence_witness :
  replace_from "text_encoder" "image_encoder" O "enc/text_encoder200.pth"
  = "enc/image_encoder200.pth".
Proof.
  destruct (replace_first_occurrence "text_encoder" "image_encoder" "enc/" "200.pth")
    as [H _].
  - discriminate.
  - intros k Hk.
    do 4 (destruct k as [|k]; [vm_compute; discriminate|]).
    cbn in Hk. lia.
  - exact H.
Defined.

(** X18 on the demo setup. *)
Lemma parameters_and_optimizers_witness :
  param_ids (g_optim (tw demo_ready)) = [(Generator, "weight")]
  /\ param_ids (d_optim (tw demo_ready)) = [(Discriminator, "weight")].
Proof.
  destruct (parameters_and_optimizers (T := sym_torch) demo_ctx None demo_world
              demo_ready demo_ctx demo_setup_ok) as [_ [Hg [Hd _]]].
  split; [exact Hg | exact Hd].
Defined.

(** X19 on the first pass of the demo run: [0 % 16 == 0], two steps. *)
Lemma discriminator_update_witness :
  exists p',
    lookup "weight" (nets (tw demo_after) Discriminator) = Some p'
    /\ requires_grad_flag p' = false
    /\ grad p' = Some [1%R].
Proof.
  destruct (discriminator_update (T := sym_torch) demo_ctx 0 demo_loop demo_after
              "weight" (mk_param [3%R] true None) demo_pass_ok demo_loop_wf)
    as [d_loss [ld [_ [_ H]]]].
  - rewrite demo_loop_d_ids. apply NoDup_single.
  - rewrite demo_loop_d_ids. now left.
  - exact demo_loop_discriminator.
  - cbv zeta in H.
    change (0 mod a_d_reg_every (args demo_ctx) =? 0) with true in H.
    destruct H as [r1 [rp [_ H]]].
    eexists. split; [exact H|]. split; reflexivity.
Defined.

(** X20 on the demo run with [--iter 1]: two batches, one step. *)
Lemma run_accounting_witness :
  0 <= a_start_iter (args demo_ctx_one)
  /\ loader_pos (tw demo_after) = (loader_pos (tw demo_ready) + 1 + 1)%nat
  /\ ostate (g_optim (tw demo_after))
     = @adam_tick sym_torch (ostate (g_optim (tw demo_ready))).
Proof.
  assert (H0 : 0 <= a_start_iter (args demo_ctx_one)) by (vm_compute; discriminate).
  destruct (run_accounting (T := sym_torch) demo_ctx_one demo_ready demo_after
              H0 demo_run_one) as [Hl Hg].
  split; [exact H0|]. split; [exact Hl|]. rewrite Hg. reflexivity.
Defined.

(** X21 on the demo run, whose text encoder is of type "rnn". *)
Lemma conditioning_witness :
  exists w1,
    encode_captions (T := sym_torch) demo_ctx (Sym "imgs" []) (Sym "captions" [])
      (Sym "cap_lens" []) demo_loop = (Ok tt, w1)
    /\ tw w1 = tw demo_loop
    /\ l_sent_emb (loc w1)
       = Some (Sym "detach"
                 [Sym "sent_emb" [Sym "captions" []; Sym "cap_lens" [];
                                  Sym "hidden" []]]).
Proof.
  destruct (conditioning (T := sym_torch) demo_ctx (Sym "imgs" [])
              (Sym "captions" []) (Sym "cap_lens" []) demo_loop eq_refl
              (or_introl eq_refl)) as [w1 [E [Ht [_ [Hs _]]]]].
  exists w1. split; [exact E|]. split; [exact Ht | exact Hs].
Defined.

(** X22 on the demo script without wandb. *)
Lemma no_wandb_without_import_witness :
  exists evs,
    out (tw (snd (main (T := sym_torch) false demo_ctx None demo_world)))
    = out (tw demo_world) ++ evs
    /\ Forall (fun e => is_wandb_record e = false) evs.
Proof.
  exact (proj2 (no_wandb_without_import (T := sym_torch) false demo_ctx None
                  demo_world _ _ (or_introl eq_refl) (surjective_run _))).
Defined.
